(** * Melown gdal-drivers: the Mapbox Vector Tile reader and the raster blender

    A shallow embedding of [mvt.cpp] (command stream reader, geometry
    builder, coordinate transform, layer iteration) and of the block
    reader of [blender.cpp], with the properties of the specification
    stated and proved over it.

    Conventions of the embedding.
    - [std::uint32_t] is [Z] with the wrap-around modulo [2^32] written out
      where the code adds ([Cursor] updates).
    - [double] is [spec_float] at precision 53 and exponent bound 1024
      (IEEE 754 binary64), with the operations of [SpecFloat].
    - A coordinate handed to an OGR geometry is the [double] obtained from
      a [std::uint32_t]; that conversion is exact, and the coordinate is
      kept as the integer it denotes.
    - A pair of iterators [(pos_, end_)] is the list of the elements that
      are still to be read.
    - A C++ exception is the [Throw] outcome of a computation; a nullable
      [std::unique_ptr] is an [option]. *)

From Stdlib Require Import String ZArith List Bool Lia SpecFloat.
Import ListNotations.
Open Scope Z_scope.

(** ** Machine numbers *)

Definition uint32_modulus : Z := 2 ^ 32.

(** Unsigned 32-bit arithmetic wraps. *)
Definition wrap32 (z : Z) : Z := z mod uint32_modulus.

Definition double : Type := spec_float.
Definition dprec : Z := 53.
Definition demax : Z := 1024.

Definition dadd : double -> double -> double := SFadd dprec demax.
Definition dsub : double -> double -> double := SFsub dprec demax.
Definition dmul : double -> double -> double := SFmul dprec demax.
Definition ddiv : double -> double -> double := SFdiv dprec demax.
Definition dopp : double -> double := SFopp.
Definition deqb : double -> double -> bool := SFeqb.
Definition dltb : double -> double -> bool := SFltb.
Definition dleb : double -> double -> bool := SFleb.

(** Conversion of an integer to [double] (round to nearest even). *)
Definition double_of_Z (z : Z) : double := binary_normalize dprec demax z 0 false.

Definition dzero : double := S754_zero false.
Definition done : double := double_of_Z 1.

(** ** Coordinate transform ([class Trafo]) *)

Module Trafo.

(** [math::Extents2]: lower-left and upper-right corner. *)
Record Extents2 := mkExtents2 {
  ll : double * double;
  ur : double * double
}.

(** [math::ul]: the upper-left corner. *)
Definition ul (e : Extents2) : double * double := (fst (ll e), snd (ur e)).

(** [math::size]: width and height. *)
Definition size (e : Extents2) : double * double :=
  (dsub (fst (ur e)) (fst (ll e)), dsub (snd (ur e)) (snd (ll e))).

Record t := mk {
  shift_ : double * double;               (* math::Point2d *)
  scale_ : double * double                (* math::Size2f: width, height *)
}.

Section Construction.

(** What a default-constructed [math::Point2d] holds in its first
      component; the constructor leaves it untouched when no extents
      are given. *)
Variable shift0_default : double.

(** [Trafo::Trafo(double extent, const boost::optional<math::Extents2>&)] *)
Definition new (extent : double) (extents : option Extents2) : t :=
    match extents with
    | Some e =>
        let sz := size e in
        mk (ul e) (ddiv (fst sz) extent, ddiv (snd sz) (dopp extent))
    | None =>
        mk (shift0_default, done) (ddiv done extent, ddiv done extent)
    end.

End Construction.

(** The affine application, disabled in the source by [#if 0]. *)
Definition x_disabled (tr : t) (value : Z) : double :=
  dadd (dmul (double_of_Z value) (fst (scale_ tr))) (fst (shift_ tr)).
Definition y_disabled (tr : t) (value : Z) : double :=
  dadd (dmul (double_of_Z value) (snd (scale_ tr))) (snd (shift_ tr)).

(** [inline double x(std::uint32_t value) const { return value; }] *)
Definition x (tr : t) (value : Z) : Z := value.

(** [inline double y(std::uint32_t value) const { return value; }] *)
Definition y (tr : t) (value : Z) : Z := value.

End Trafo.

(** ** Command stream reader ([class GeometryReader]) *)

Module Cursor.
Record t := mk { x : Z; y : Z }.
(** [Cursor() : x(), y() {}] *)
Definition init : t := mk 0 0.
End Cursor.

(** The [std::runtime_error]s of the decoder, one constructor per throw
    site (the message of each is in the comment). *)
Inductive runtime_error : Type :=
| CommandPastEnd                       (* Cannot read command past the end of input. *)
| ShiftPastEnd                         (* Cannot read shift past the end of input. *)
| UnexpectedType (got expected : Z)    (* Unexpected type: got (expected: expected). *)
| ExpectedNonzero (count : Z)          (* Expected nonzero count, got count. *)
| ExpectedZero (count : Z)             (* Expected zero count, got count. *)
| ExpectedSingle (count : Z).          (* Expected single count, got count. *)

(** The error taxonomy of the specification, as a view on the throw sites. *)
Inductive ErrorKind : Type := StreamUnderrun | UnexpectedOpcode | InvalidCount.

Definition kind (e : runtime_error) : ErrorKind :=
  match e with
  | CommandPastEnd | ShiftPastEnd => StreamUnderrun
  | UnexpectedType _ _ => UnexpectedOpcode
  | ExpectedNonzero _ | ExpectedZero _ | ExpectedSingle _ => InvalidCount
  end.

(** Outcome of a computation: a value, an exception, or the bound of a
    bounded loop reached (shown below never to happen). *)
Inductive result (A : Type) : Type :=
| Ok (a : A)
| Throw (e : runtime_error)
| OutOfFuel.
Arguments Ok {A} a.
Arguments Throw {A} e.
Arguments OutOfFuel {A}.

Record GeometryReader := mkGeometryReader {
  trafo : Trafo.t;          (* base class sub-object *)
  pos_ : list Z             (* the integers from pos_ up to end_ *)
}.

(** [GeometryReader(const Trafo &trafo, const MvtGeometry &source)] *)
Definition GeometryReader_new (tr : Trafo.t) (source : list Z) : GeometryReader :=
  mkGeometryReader tr source.

(** Computations on a reader passed by reference. *)
Definition GR (A : Type) : Type := GeometryReader -> result (A * GeometryReader).

Definition ret {A} (a : A) : GR A := fun gr => Ok (a, gr).

Definition bind {A B} (m : GR A) (k : A -> GR B) : GR B :=
  fun gr =>
    match m gr with
    | Ok (a, gr') => k a gr'
    | Throw e => Throw e
    | OutOfFuel => OutOfFuel
    end.

Definition throw {A} (e : runtime_error) : GR A := fun _ => Throw e.

Declare Scope gr_scope.
Delimit Scope gr_scope with gr.
Notation "x <- m ;; k" := (bind m (fun x => k))
  (at level 100, m at next level, right associativity) : gr_scope.
Notation "' p <- m ;; k" := (bind m (fun p => k))
  (at level 100, p pattern, m at next level, right associativity) : gr_scope.
Open Scope gr_scope.

(** [gr.x(value)], [gr.y(value)]: the inherited transform. *)
Definition gr_x (value : Z) : GR Z := fun gr => Ok (Trafo.x (trafo gr) value, gr).
Definition gr_y (value : Z) : GR Z := fun gr => Ok (Trafo.y (trafo gr) value, gr).

(** [operator bool() const { return pos_ != end_; }] *)
Definition more (gr : GeometryReader) : bool :=
  match pos_ gr with [] => false | _ :: _ => true end.

Module Command.
(** [enum class Type { moveTo = 1, lineTo = 2, closePath = 7 }]; a cast
    from [raw & 0x7] can hold any of 0..7. *)
Definition moveTo : Z := 1.
Definition lineTo : Z := 2.
Definition closePath : Z := 7.

Record t := mk { type : Z; count : Z }.

(** [Command(const std::uint32_t &raw)] *)
Definition of_raw (raw : Z) : t := mk (Z.land raw 7) (Z.shiftr raw 3).
End Command.

(** [Command command(Command::Type type)] *)
Definition command (type : Z) : GR Command.t :=
  fun gr =>
    match pos_ gr with
    | [] => Throw CommandPastEnd
    | raw :: rest =>
        let c := Command.of_raw raw in
        if negb (Command.type c =? type)
        then Throw (UnexpectedType (Command.type c) type)
        else Ok (c, mkGeometryReader (trafo gr) rest)
    end.

(** [void shift(Cursor &cursor)]; the updated cursor is returned. *)
Definition shift (cursor : Cursor.t) : GR Cursor.t :=
  fun gr =>
    match pos_ gr with
    | [] => Throw ShiftPastEnd
    | dx :: rest =>
        let cursor := Cursor.mk (wrap32 (Cursor.x cursor + dx)) (Cursor.y cursor) in
        match rest with
        | [] => Throw ShiftPastEnd
        | dy :: rest' =>
            Ok (Cursor.mk (Cursor.x cursor) (wrap32 (Cursor.y cursor + dy)),
                mkGeometryReader (trafo gr) rest')
        end
    end.

Definition checkNonzero (cmd : Command.t) : GR Command.t :=
  if Command.count cmd =? 0 then throw (ExpectedNonzero (Command.count cmd))
  else ret cmd.

Definition checkZero (cmd : Command.t) : GR Command.t :=
  if negb (Command.count cmd =? 0) then throw (ExpectedZero (Command.count cmd))
  else ret cmd.

Definition checkSingle (cmd : Command.t) : GR Command.t :=
  if negb (Command.count cmd =? 1) then throw (ExpectedSingle (Command.count cmd))
  else ret cmd.


(** ** OGR geometries, as far as the builder makes them *)

(** A vertex: the two [double]s passed to [addPoint] or [OGRPoint]. *)
Definition Vertex : Type := (Z * Z)%type.

(** [OGRLineString] and [OGRLinearRing]: the vertices in the order of the
    [addPoint] calls. *)
Definition OGRLineString : Type := list Vertex.
Definition OGRLinearRing : Type := list Vertex.

(** [OGRPolygon]: the rings in the order of the [addRingDirectly] calls. *)
Definition OGRPolygon : Type := list OGRLinearRing.

Definition OGRMultiLineString : Type := list OGRLineString.
Definition OGRMultiPolygon : Type := list OGRPolygon.

(** The geometries the builder returns.  [GeometryCollection] is the
    [::OGRGeometryCollection] that [points] fills with its points; the
    other collections are [::OGRMultiLineString] and [::OGRMultiPolygon]. *)
#[warnings="-register-all"]
Inductive OGRGeometry : Type :=
| Point (px py : Z)
| GeometryCollection (members : list OGRGeometry)
| LineString (ls : OGRLineString)
| MultiLineString (mls : OGRMultiLineString)
| Polygon (pg : OGRPolygon)
| MultiPolygon (mpg : OGRMultiPolygon).

(** ** Geometry builder *)

(** [new ::OGRPoint(gr.x(cur.x), gr.y(cur.y))] and the argument pair of
    [addPoint(gr.x(cur.x), gr.y(cur.y))]. *)
Definition vertex_at (cur : Cursor.t) : GR Vertex :=
  vx <- gr_x (Cursor.x cur) ;;
  vy <- gr_y (Cursor.y cur) ;;
  ret (vx, vy).

(** [while (moveTo.count--) { gr.shift(cur); g->addGeometryDirectly(...); }] *)
Fixpoint points_loop (count : nat) (cur : Cursor.t) (g : list OGRGeometry)
  : GR (list OGRGeometry) :=
  match count with
  | O => ret g
  | S count' =>
      cur <- shift cur ;;
      v <- vertex_at cur ;;
      points_loop count' cur (g ++ [Point (fst v) (snd v)])
  end.

(** [std::unique_ptr< ::OGRGeometry> points(GeometryReader &gr)] *)
Definition points : GR (option OGRGeometry) :=
  let cur := Cursor.init in
  moveTo <- (c <- command Command.moveTo ;; checkNonzero c) ;;
  if Command.count moveTo =? 1 then
    cur <- shift cur ;;
    v <- vertex_at cur ;;
    ret (Some (Point (fst v) (snd v)))
  else
    g <- points_loop (Z.to_nat (Command.count moveTo)) cur [] ;;
    ret (Some (GeometryCollection g)).

(** [while (lineTo.count--) { gr.shift(cur); ls->addPoint(...); }] *)
Fixpoint lineTo_loop (count : nat) (cur : Cursor.t) (ls : list Vertex)
  : GR (list Vertex * Cursor.t) :=
  match count with
  | O => ret (ls, cur)
  | S count' =>
      cur <- shift cur ;;
      v <- vertex_at cur ;;
      lineTo_loop count' cur (ls ++ [v])
  end.

(** [singleLineString(GeometryReader &gr, Cursor &cur, bool closed)]; the
    cursor, passed by reference, is returned with the line. *)
Definition singleLineString (cur : Cursor.t) (closed : bool)
  : GR (list Vertex * Cursor.t) :=
  let ls := [] in
  moveTo <- (c <- command Command.moveTo ;; checkSingle c) ;;
  cur <- shift cur ;;
  v <- vertex_at cur ;;
  let ls := ls ++ [v] in
  let start := cur in
  lineTo <- (c <- command Command.lineTo ;; checkNonzero c) ;;
  '(ls, cur) <- lineTo_loop (Z.to_nat (Command.count lineTo)) cur ls ;;
  if negb closed then ret (ls, cur)
  else
    closePath <- (c <- command Command.closePath ;; checkNonzero c) ;;
    v <- vertex_at start ;;
    ret (ls ++ [v], cur).

(** The loop of [lineStrings]; [fuel] bounds the number of iterations. *)
Fixpoint lineStrings_loop (fuel : nat) (cur : Cursor.t)
    (single : option OGRLineString) (multi : option OGRMultiLineString)
  : GR (option OGRLineString * option OGRMultiLineString) :=
  fun gr =>
    match fuel with
    | O => OutOfFuel
    | S fuel' =>
        if more gr then
          (* if (single) { multi.reset(new ...); multi->add(single.release()); } *)
          let '(single, multi) :=
            match single with
            | Some s => (None, Some [s])
            | None => (single, multi)
            end in
          ('(ls, cur) <- singleLineString cur false ;;
           let single := Some ls in
           (* if (multi) { multi->addGeometryDirectly(single.release()); } *)
           let '(single, multi) :=
             match multi with
             | Some m => (None, Some (m ++ [ls]))
             | None => (single, multi)
             end in
           lineStrings_loop fuel' cur single multi) gr
        else Ok ((single, multi), gr)
    end.

(** [std::unique_ptr< ::OGRGeometry> lineStrings(GeometryReader &gr)].
    Every iteration that does not throw reads at least one integer, so
    one more iteration than there are integers is a bound that is never
    reached. *)
Definition lineStrings : GR (option OGRGeometry) :=
  fun gr =>
    ('(single, multi) <-
        lineStrings_loop (S (length (pos_ gr))) Cursor.init None None ;;
     match single with
     | Some s => ret (Some (LineString s))
     | None => ret (option_map MultiLineString multi)
     end) gr.

Section Polygons.

(** [OGRLinearRing::isClockwise()], a function of the host library. *)
Variable isClockwise : OGRLinearRing -> bool.

(** The loop of [polygons]; [fuel] bounds the number of iterations. *)
Fixpoint polygons_loop (fuel : nat) (cur : Cursor.t)
    (single : option OGRPolygon) (multi : option OGRMultiPolygon)
  : GR (option OGRPolygon * option OGRMultiPolygon) :=
  fun gr =>
    match fuel with
    | O => OutOfFuel
    | S fuel' =>
        if more gr then
          ('(ls, cur) <- singleLineString cur true ;;
           let '(single, multi) :=
             if isClockwise ls then
               match single with
               | Some s =>
                   let m := match multi with Some m => m | None => [] end in
                   (None, Some (m ++ [s]))
               | None => (single, multi)
               end
             else (single, multi) in
           let single := match single with Some s => s | None => [] end in
           let single := Some (single ++ [ls]) in
           polygons_loop fuel' cur single multi) gr
        else Ok ((single, multi), gr)
    end.

(** [std::unique_ptr< ::OGRGeometry> polygons(GeometryReader &gr)] *)
Definition polygons : GR (option OGRGeometry) :=
  fun gr =>
    ('(single, multi) <-
        polygons_loop (S (length (pos_ gr))) Cursor.init None None ;;
     let '(single, multi) :=
       match multi, single with
       | Some m, Some s => (None, Some (m ++ [s]))
       | _, _ => (single, multi)
       end in
     match single with
     | Some s => ret (Some (Polygon s))
     | None => ret (option_map MultiPolygon multi)
     end) gr.

End Polygons.

(** ** The tile: layers and features (the decoded protobuf messages) *)

Inductive Tile_GeomType : Type :=
| Tile_GeomType_UNKNOWN
| Tile_GeomType_POINT
| Tile_GeomType_LINESTRING
| Tile_GeomType_POLYGON.

Inductive OGRwkbGeometryType : Type :=
| wkbUnknown
| wkbPoint
| wkbLineString
| wkbPolygon.

(** [OGRwkbGeometryType type(vector_tile::Tile_GeomType type)] *)
Definition type (t : Tile_GeomType) : OGRwkbGeometryType :=
  match t with
  | Tile_GeomType_POINT => wkbPoint
  | Tile_GeomType_LINESTRING => wkbLineString
  | Tile_GeomType_POLYGON => wkbPolygon
  | Tile_GeomType_UNKNOWN => wkbUnknown
  end.

Module Tile_Feature.
Record t := mk {
  id : option Z;                 (* has_id() and id() *)
  type : Tile_GeomType;
  geometry : list Z              (* repeated uint32 *)
}.
End Tile_Feature.

Module Tile_Layer.
Record t := mk {
  name : String.string;
  extent : Z;
  features : list Tile_Feature.t
}.
End Tile_Layer.

(** Run a builder on a reader of its own and keep the value. *)
Definition run {A} (m : GR A) (gr : GeometryReader) : result A :=
  match m gr with
  | Ok (a, _) => Ok a
  | Throw e => Throw e
  | OutOfFuel => OutOfFuel
  end.

(** A spatial reference, by its definition string. *)
Definition SrsDefinition : Type := String.string.

(** [::OGRFeature], as far as [GetNextFeature] sets it: the geometry type
    of its definition, the FID if one was set, and the geometry with the
    spatial reference assigned to it. *)
Record OGRFeature := mkOGRFeature {
  GeomType : OGRwkbGeometryType;
  FID : option Z;
  Geometry : option OGRGeometry;
  SpatialReference : option SrsDefinition
}.

(** [SetFID] takes a [GIntBig]; [feature.id()] is a [uint64]. *)
Definition GIntBig_of_uint64 (z : Z) : Z :=
  if z <? 2 ^ 63 then z else z - 2 ^ 64.

Record MvtDataset := mkMvtDataset {
  tile_ : list Tile_Layer.t;
  ds_srs_ : option SrsDefinition;
  extents_ : option Trafo.Extents2
}.

(** [class MvtDataset::Layer]: the iterator [ifeatures_] is the list of
    the features from it up to [efeatures_]. *)
Record Layer := mkLayer {
  srs_ : option SrsDefinition;
  layer_ : Tile_Layer.t;
  ifeatures_ : list Tile_Feature.t;
  trafo_ : Trafo.t
}.

(** What one call of [GetNextFeature] does: it returns a feature or
    [nullptr], with the message given to [CPLError] if there is one and
    the layer as the call leaves it; or it calls a member function through
    a null pointer; [LoopBound] stands for a builder that ran out of fuel. *)
Inductive NextFeature : Type :=
| Returns (feature : option OGRFeature) (cplError : option runtime_error)
          (after : Layer)
| NullDereference
| LoopBound.

(** [while (ifeatures_ != efeatures_ && ifeatures_->type() == UNKNOWN) ++ifeatures_;] *)
Fixpoint skip_unknown (ifeatures : list Tile_Feature.t) : list Tile_Feature.t :=
  match ifeatures with
  | [] => []
  | f :: rest =>
      match Tile_Feature.type f with
      | Tile_GeomType_UNKNOWN => skip_unknown rest
      | _ => ifeatures
      end
  end.

Section Layers.

Variable isClockwise : OGRLinearRing -> bool.

(** [generateGeometry(const vector_tile::Tile_Feature &feature, const Trafo &trafo)] *)
Definition generateGeometry (feature : Tile_Feature.t) (tr : Trafo.t)
  : result (option OGRGeometry) :=
  let gr := GeometryReader_new tr (Tile_Feature.geometry feature) in
  match Tile_Feature.type feature with
  | Tile_GeomType_POINT => run points gr
  | Tile_GeomType_LINESTRING => run lineStrings gr
  | Tile_GeomType_POLYGON => run (polygons isClockwise) gr
  | Tile_GeomType_UNKNOWN => Ok None
  end.

(** [::GIntBig MvtDataset::Layer::GetFeatureCount(int)] *)
Definition GetFeatureCount (l : Layer) : Z :=
  Z.of_nat (List.length (Tile_Layer.features (layer_ l))).

(** [void MvtDataset::Layer::ResetReading()] *)
Definition ResetReading (l : Layer) : Layer :=
  mkLayer (srs_ l) (layer_ l) (Tile_Layer.features (layer_ l)) (trafo_ l).

(** [::OGRFeature* MvtDataset::Layer::GetNextFeature()] *)
Definition GetNextFeature (l : Layer) : NextFeature :=
  let ifeatures := skip_unknown (ifeatures_ l) in
  match ifeatures with
  | [] => Returns None None (mkLayer (srs_ l) (layer_ l) ifeatures (trafo_ l))
  | feature :: next =>
      let geomType := type (Tile_Feature.type feature) in
      let fid := option_map GIntBig_of_uint64 (Tile_Feature.id feature) in
      match generateGeometry feature (trafo_ l) with
      | Throw e =>
          (* catch: CPLError(...); return nullptr;  the iterator stays *)
          Returns None (Some e) (mkLayer (srs_ l) (layer_ l) ifeatures (trafo_ l))
      | OutOfFuel => LoopBound
      | Ok geometry =>
          match srs_ l, geometry with
          | Some _, None =>
              (* geometry->assignSpatialReference(srs_.get()) on a null geometry *)
              NullDereference
          | srs, _ =>
              Returns
                (Some (mkOGRFeature geomType fid geometry
                         (match geometry with Some _ => srs | None => None end)))
                None
                (mkLayer (srs_ l) (layer_ l) next (trafo_ l))
          end
      end
  end.

(** The host's reading loop: call [GetNextFeature] until it returns
    [nullptr], at most [calls] times; the features in the order they were
    returned and the layer after the call that returned [nullptr]. *)
Fixpoint readFeatures (calls : nat) (l : Layer)
  : option (list OGRFeature * Layer) :=
  match calls with
  | O => None
  | S calls' =>
      match GetNextFeature l with
      | Returns (Some f) _ l' =>
          match readFeatures calls' l' with
          | Some (fs, l'') => Some (f :: fs, l'')
          | None => None
          end
      | Returns None _ l' => Some ([], l')
      | NullDereference | LoopBound => None
      end
  end.

End Layers.

(** [Layer(MvtDataset &ds, const vector_tile::Tile_Layer &layer)] *)
Definition Layer_new (shift0_default : double) (ds : MvtDataset)
    (layer : Tile_Layer.t) : Layer :=
  mkLayer (ds_srs_ ds) layer (Tile_Layer.features layer)
    (Trafo.new shift0_default (double_of_Z (Tile_Layer.extent layer)) (extents_ ds)).

(** ** The raster blender ([BlendingDataset::RasterBand::IReadBlock]) *)

(** [int] coordinates are kept as integers; the code does not leave the
    range of [int] on rasters GDAL can open. *)

Module cv.

(** [cv::Rect], with the operations of the image library that the block
    reader calls. *)
Record Rect := mkRect { x : Z; y : Z; width : Z; height : Z }.

Definition area (r : Rect) : Z := width r * height r.

(** [a & b]: the intersection, the empty [Rect()] when there is none. *)
Definition inter (a b : Rect) : Rect :=
  let x1 := Z.max (x a) (x b) in
  let y1 := Z.max (y a) (y b) in
  let w := Z.min (x a + width a) (x b + width b) - x1 in
  let h := Z.min (y a + height a) (y b + height b) - y1 in
  if (w <=? 0) || (h <=? 0) then mkRect 0 0 0 0 else mkRect x1 y1 w h.

(** [r - p]: the rectangle shifted by [-p]. *)
Definition shift_back (r : Rect) (px py : Z) : Rect :=
  mkRect (x r - px) (y r - py) (width r) (height r).

(** [cv::Rect2d] *)
Record Rect2d := mkRect2d { xd : double; yd : double; widthd : double; heightd : double }.

Definition dmax (a b : double) : double := if dltb a b then b else a.
Definition dmin (a b : double) : double := if dltb b a then b else a.

Definition aread (r : Rect2d) : double := dmul (widthd r) (heightd r).

Definition interd (a b : Rect2d) : Rect2d :=
  let x1 := dmax (xd a) (xd b) in
  let y1 := dmax (yd a) (yd b) in
  let w := dsub (dmin (dadd (xd a) (widthd a)) (dadd (xd b) (widthd b))) x1 in
  let h := dsub (dmin (dadd (yd a) (heightd a)) (dadd (yd b) (heightd b))) y1 in
  if dleb w dzero || dleb h dzero then mkRect2d dzero dzero dzero dzero
  else mkRect2d x1 y1 w h.

(** [r.contains(p)] for a point with [double] coordinates. *)
Definition containsd (r : Rect2d) (px py : double) : bool :=
  dleb (xd r) px && dltb px (dadd (xd r) (widthd r)) &&
  dleb (yd r) py && dltb py (dadd (yd r) (heightd r)).

(** [cv::Mat_<double>], by its elements: row, then column. *)
Definition Image : Type := Z -> Z -> double.

(** Is element (row [j], column [i]) inside the view [v] of a matrix? *)
Definition in_view (v : Rect) (j i : Z) : bool :=
  (x v <=? i) && (i <? x v + width v) && (y v <=? j) && (j <? y v + height v).

(** [Image(m, view) += a]: [a] is added onto the view, element by element. *)
Definition add_on_view (m : Image) (v : Rect) (a : Image) : Image :=
  fun j i => if in_view v j i then dadd (m j i) (a (j - y v) (i - x v)) else m j i.

(** [cv::multiply(a, b, a)] *)
Definition multiply (a b : Image) : Image := fun j i => dmul (a j i) (b j i).

(** [m.setTo(v, m == c)] *)
Definition setTo_where_eq (m : Image) (v c : double) : Image :=
  fun j i => if deqb (m j i) c then v else m j i.

(** [a /= b] *)
Definition divide (a b : Image) : Image := fun j i => ddiv (a j i) (b j i).

End cv.

(** [float], for [cv::Point2f]. *)
Definition fprec : Z := 24.
Definition femax : Z := 128.

(** Narrowing of a [double] to [float]. *)
Definition float_of_double (d : double) : spec_float :=
  match d with
  | S754_finite s m e => binary_round fprec femax s m e
  | _ => d
  end.

(** Widening of a [float] to [double] (exact). *)
Definition double_of_float (f : spec_float) : double :=
  match f with
  | S754_finite s m e => binary_round dprec demax s m e
  | _ => f
  end.

Definition fone : spec_float := binary_normalize fprec femax 1 0 false.

(** [++v] on a [float], repeated [n] times. *)
Fixpoint fincr (n : nat) (v : spec_float) : spec_float :=
  match n with
  | O => v
  | S n' => fincr n' (SFadd fprec femax v fone)
  end.

(** [++v] on a [double], repeated [n] times. *)
Fixpoint dincr (n : nat) (v : double) : double :=
  match n with
  | O => v
  | S n' => dincr n' (dadd v done)
  end.

Definition dhalf : double := binary_normalize dprec demax 1 (-1) false.

Inductive CPLErr : Type := CE_None | CE_Debug | CE_Warning | CE_Failure | CE_Fatal.

Inductive GDALDataType : Type :=
| GDT_Unknown | GDT_Byte | GDT_UInt16 | GDT_Int16 | GDT_UInt32 | GDT_Int32
| GDT_Float32 | GDT_Float64 | GDT_CInt16 | GDT_CInt32 | GDT_CFloat32
| GDT_CFloat64.

Inductive CvType : Type :=
| CV_8UC1 | CV_16UC1 | CV_16SC1 | CV_32SC1 | CV_32FC1 | CV_64FC1.

(** [int gdal2cv(GDALDataType type)]; [None] is the [std::logic_error]. *)
Definition gdal2cv (t : GDALDataType) : option CvType :=
  match t with
  | GDT_Byte => Some CV_8UC1
  | GDT_UInt16 => Some CV_16UC1
  | GDT_Int16 => Some CV_16SC1
  | GDT_UInt32 => Some CV_32SC1
  | GDT_Int32 => Some CV_32SC1
  | GDT_Float32 => Some CV_32FC1
  | GDT_Float64 => Some CV_64FC1
  | _ => None
  end.

(** A source band of the host: what [RasterIO] delivers for a window when
    asked for [GDT_Float64] (the error code and the buffer, element (row,
    column) of the window), whether its mask flags contain
    [GMF_ALL_VALID], the same reading of its mask band, and its data
    type. *)
Record GDALRasterBand := mkGDALRasterBand {
  RasterIO : cv.Rect -> CPLErr * cv.Image;
  MaskAllValid : bool;
  MaskRasterIO : cv.Rect -> CPLErr * cv.Image;
  GetRasterDataType : GDALDataType
}.

Record ImageReference := mkImageReference {
  extents : cv.Rect;
  valid : cv.Rect2d
}.

(** [struct Band { ::GDALRasterBand *band; ImageReference ref; }] *)
Record Band := mkBand {
  band : GDALRasterBand;
  ref : ImageReference
}.

Definition is_CE_None (e : CPLErr) : bool :=
  match e with CE_None => true | _ => false end.

Section Blender.

(** [math::empty] and [math::area] on a [math::Size2f], functions of the
    geometry library. *)
Variable math_empty : double * double -> bool.
Variable math_area : double * double -> double.

(** The element type of the output buffer and the saturating conversion
    [convertTo] of the image library. *)
Variable Sample : Type.
Variable convertTo : CvType -> double -> Sample.

(** [dset_->overlap_] *)
Variable overlap_ : double * double.

(** [nBlockXSize], [nBlockYSize], set to 256 by the constructor. *)
Definition nBlockXSize : Z := 256.
Definition nBlockYSize : Z := 256.

(** The weights read from the mask band: [if (px) { px = 1.0; }]. *)
Definition mask_weights (m : cv.Image) : cv.Image :=
  fun j i => if deqb (m j i) dzero then m j i else done.

(** No overlap: a pixel whose centre is outside the valid area gets weight 0. *)
Definition hard_weights (roi : cv.Rect) (v : cv.Rect2d) (weights : cv.Image)
  : cv.Image :=
  let px := float_of_double (dadd (double_of_Z (cv.x roi)) dhalf) in
  let py := float_of_double (dadd (double_of_Z (cv.y roi)) dhalf) in
  fun j i =>
    let ppx := fincr (Z.to_nat i) px in
    let ppy := fincr (Z.to_nat j) py in
    if negb (cv.containsd v (double_of_float ppx) (double_of_float ppy))
    then dzero else weights j i.

(** Overlap: the weight is scaled by the part of the kernel around the
    pixel that lies in the valid area. *)
Definition soft_weights (roi : cv.Rect) (v : cv.Rect2d) (weights : cv.Image)
  : cv.Image :=
  let kernelArea := dmul (double_of_Z 4) (math_area overlap_) in
  let kx := dadd (dsub (double_of_Z (cv.x roi)) (fst overlap_)) dhalf in
  let ky := dadd (dsub (double_of_Z (cv.y roi)) (snd overlap_)) dhalf in
  let kw := dmul (fst overlap_) (double_of_Z 2) in
  let kh := dmul (snd overlap_) (double_of_Z 2) in
  fun j i =>
    let kernel :=
      cv.mkRect2d (dincr (Z.to_nat i) kx) (dincr (Z.to_nat j) ky) kw kh in
    let area := cv.aread (cv.interd v kernel) in
    dmul (weights j i) (ddiv area kernelArea).

(** What one source brings: nothing when it does not meet the block;
    otherwise an error code, or the view into the block with the samples
    and the weights of that window. *)
Inductive Contribution : Type :=
| Skipped
| ReadError (err : CPLErr)
| Adds (view : cv.Rect) (image : cv.Image) (weights : cv.Image).

(** The body of the loop [for (auto &band : bands_)], up to the weights of
    the window. *)
Definition contribution (block : cv.Rect) (b : Band) : Contribution :=
  let roi := cv.inter block (extents (ref b)) in
  if cv.area roi =? 0 then Skipped
  else
    let local := cv.shift_back roi (cv.x (extents (ref b))) (cv.y (extents (ref b))) in
    let view :=
      cv.mkRect (cv.x roi - cv.x block) (cv.y roi - cv.y block)
                (cv.width local) (cv.height local) in
    let '(err, image) := RasterIO (band b) local in
    if negb (is_CE_None err) then ReadError err
    else
      let weights : cv.Image := fun _ _ => done in
      let masked :=
        if negb (MaskAllValid (band b)) then
          let '(err, m) := MaskRasterIO (band b) local in
          if negb (is_CE_None err) then inl err else inr (mask_weights m)
        else inr weights in
      match masked with
      | inl err => ReadError err
      | inr weights =>
          let weights :=
            if math_empty overlap_ then hard_weights roi (valid (ref b)) weights
            else soft_weights roi (valid (ref b)) weights in
          Adds view image weights
      end.

(** The loop over [bands_], on the accumulators [acc] and [wacc]. *)
Fixpoint accumulate (block : cv.Rect) (bands : list Band) (acc wacc : cv.Image)
  : CPLErr + (cv.Image * cv.Image) :=
  match bands with
  | [] => inr (acc, wacc)
  | b :: rest =>
      match contribution block b with
      | Skipped => accumulate block rest acc wacc
      | ReadError err => inl err
      | Adds view image weights =>
          (* cv::multiply(image, weights, image); Image(acc, view) += image;
             Image(wacc, view) += weights; *)
          let image := cv.multiply image weights in
          accumulate block rest
            (cv.add_on_view acc view image) (cv.add_on_view wacc view weights)
      end
  end.

(** The block of the raster that [IReadBlock] is asked for. *)
Definition block_rect (nBlockXOff nBlockYOff : Z) : cv.Rect :=
  cv.mkRect (nBlockXOff * nBlockXSize) (nBlockYOff * nBlockYSize)
            nBlockXSize nBlockYSize.

(** What [IReadBlock] does: it returns an error code, or [gdal2cv] throws
    its [std::logic_error], or the block is written and [CE_None]
    returned; [NoFrontBand] is [bands_.front()] on an empty vector, which
    the constructor never builds. *)
Inductive ReadBlock : Type :=
| BlockError (err : CPLErr)
| BlockThrows
| NoFrontBand
| BlockRead (out : Z -> Z -> Sample).

(** [CPLErr IReadBlock(int nBlockXOff, int nBlockYOff, void *rawImage)] *)
Definition IReadBlock (bands_ : list Band) (nBlockXOff nBlockYOff : Z)
  : ReadBlock :=
  let block := block_rect nBlockXOff nBlockYOff in
  let acc : cv.Image := fun _ _ => dzero in
  let wacc : cv.Image := fun _ _ => dzero in
  match accumulate block bands_ acc wacc with
  | inl err => BlockError err
  | inr (acc, wacc) =>
      let wacc := cv.setTo_where_eq wacc done dzero in
      let acc := cv.divide acc wacc in
      match bands_ with
      | [] => NoFrontBand
      | front :: _ =>
          match gdal2cv (GetRasterDataType (band front)) with
          | None => BlockThrows
          | Some ty => BlockRead (fun j i => convertTo ty (acc j i))
          end
      end
  end.

(** *** The blend of one pixel, in the words of the specification *)

(** Does the source [b] cover the pixel (row [j], column [i]) of the block? *)
Definition covers (block : cv.Rect) (b : Band) (j i : Z) : bool :=
  match contribution block b with
  | Adds view _ _ => cv.in_view view j i
  | _ => false
  end.

(** The sample of the source [b] for the pixel. *)
Definition sample (block : cv.Rect) (b : Band) (j i : Z) : double :=
  match contribution block b with
  | Adds view image _ => image (j - cv.y view) (i - cv.x view)
  | _ => dzero
  end.

(** The weight of the source [b] for the pixel. *)
Definition weight (block : cv.Rect) (b : Band) (j i : Z) : double :=
  match contribution block b with
  | Adds view _ weights => weights (j - cv.y view) (i - cv.x view)
  | _ => dzero
  end.

(** The sum of weight times sample over the sources that cover the pixel,
    taken in the order of the sources, on top of [s0]. *)
Definition sum_weighted_samples (block : cv.Rect) (bands : list Band)
    (j i : Z) (s0 : double) : double :=
  fold_left
    (fun s b =>
       if covers block b j i
       then dadd s (dmul (sample block b j i) (weight block b j i))
       else s)
    bands s0.

(** The sum of the weights over the sources that cover the pixel. *)
Definition sum_weights (block : cv.Rect) (bands : list Band)
    (j i : Z) (s0 : double) : double :=
  fold_left
    (fun s b => if covers block b j i then dadd s (weight block b j i) else s)
    bands s0.

(** A total weight of zero is replaced by 1. *)
Definition clamp_weight (w : double) : double :=
  if deqb w dzero then done else w.

Definition blended (block : cv.Rect) (bands : list Band) (j i : Z) : double :=
  ddiv (sum_weighted_samples block bands j i dzero)
       (clamp_weight (sum_weights block bands j i dzero)).

(** Reading the source [b] for the block gives no error code. *)
Definition reads (block : cv.Rect) (b : Band) : Prop :=
  match contribution block b with
  | ReadError _ => False
  | _ => True
  end.

End Blender.

(** Sources for the examples: a raster whose pixel at column [c], row [r]
    holds [v + c + 10 * r], all pixels valid, of type Float64; placed on
    the output grid with all of it valid. *)
Definition ramp_band (v : Z) : GDALRasterBand :=
  mkGDALRasterBand
    (fun r => (CE_None, fun j i => double_of_Z (v + (cv.x r + i) + 10 * (cv.y r + j))))
    true
    (fun r => (CE_Failure, fun _ _ => dzero))
    GDT_Float64.

Definition placed (v x0 y0 w h : Z) : Band :=
  mkBand (ramp_band v)
    (mkImageReference (cv.mkRect x0 y0 w h)
       (cv.mkRect2d (double_of_Z x0) (double_of_Z y0) (double_of_Z w) (double_of_Z h))).

(** [math::empty] and [math::area] of the geometry library on a size. *)
Definition size_empty (s : double * double) : bool :=
  dleb (fst s) dzero || dleb (snd s) dzero.

Definition size_area (s : double * double) : double := dmul (fst s) (snd s).

(** ** Vocabulary of the statements *)

(** The integers that follow a command: the delta pairs, flattened. *)
Definition params (deltas : list (Z * Z)) : list Z :=
  flat_map (fun d => [fst d; snd d]) deltas.

(** The cursor after one delta pair. *)
Definition advance (cur : Cursor.t) (d : Z * Z) : Cursor.t :=
  Cursor.mk (wrap32 (Cursor.x cur + fst d)) (wrap32 (Cursor.y cur + snd d)).

(** The cursor after each of the delta pairs, in order. *)
Fixpoint track (cur : Cursor.t) (deltas : list (Z * Z)) : list Cursor.t :=
  match deltas with
  | [] => []
  | d :: rest => advance cur d :: track (advance cur d) rest
  end.

Definition vertex_of (cur : Cursor.t) : Vertex := (Cursor.x cur, Cursor.y cur).

Definition point_of (cur : Cursor.t) : OGRGeometry :=
  Point (Cursor.x cur) (Cursor.y cur).

Definition sumZ (l : list Z) : Z := fold_right Z.add 0 l.

(** The sum of the first [i+1] delta pairs, in unsigned 32-bit arithmetic. *)
Definition running_sum (deltas : list (Z * Z)) (i : nat) : Cursor.t :=
  Cursor.mk (wrap32 (sumZ (map fst (firstn (S i) deltas))))
            (wrap32 (sumZ (map snd (firstn (S i) deltas)))).

(** The integer that encodes a command: opcode in the low three bits. *)
Definition raw_command (opcode count : Z) : Z := Z.lor (Z.shiftl count 3) opcode.

(** A stream that decodes as a sequence of line strings ([closed = false])
    or of closed rings ([closed = true]), one after the other with the
    cursor carried along, until no integer is left. *)
Inductive Decodes (closed : bool)
  : Cursor.t -> GeometryReader -> list (list Vertex) -> Prop :=
| Decodes_end cur gr :
    more gr = false -> Decodes closed cur gr []
| Decodes_next cur gr ls cur' gr' lss :
    more gr = true ->
    singleLineString cur closed gr = Ok ((ls, cur'), gr') ->
    Decodes closed cur' gr' lss ->
    Decodes closed cur gr (ls :: lss).

(** The result of [lineStrings] for the decoded line strings, in the words
    of the specification: none, the single one, or all of them in a
    MultiLineString in decode order. *)
Definition spec_lineStrings (lss : list OGRLineString) : option OGRGeometry :=
  match lss with
  | [] => None
  | [ls] => Some (LineString ls)
  | _ => Some (MultiLineString lss)
  end.

(** A transform to run the examples with: a layer of extent 4096, no
    target extents. *)
Definition tile_trafo : Trafo.t := Trafo.new dzero (double_of_Z 4096) None.

(** [consumes n m]: when [m] returns, the transform is the same and at
    least [n] integers have been read. *)
Definition consumes {A} (n : nat) (m : GR A) : Prop :=
  forall gr a gr',
    m gr = Ok (a, gr') ->
    trafo gr' = trafo gr /\
    (List.length (pos_ gr') + n <= List.length (pos_ gr))%nat.

(** [bounded m]: [m] never reaches the bound of a loop. *)
Definition bounded {A} (m : GR A) : Prop := forall gr, m gr <> OutOfFuel.

(** Two outcomes that differ at most in the transform the reader carries. *)
Definition same_result {A} (r r' : result (A * GeometryReader)) : Prop :=
  match r, r' with
  | Ok (a, gr), Ok (a', gr') => a = a' /\ pos_ gr = pos_ gr'
  | Throw e, Throw e' => e = e'
  | OutOfFuel, OutOfFuel => True
  | _, _ => False
  end.

(** [transform_blind m]: what [m] does depends on the integers to read
    only, not on the transform of the reader. *)
Definition transform_blind {A} (m : GR A) : Prop :=
  forall gr gr', pos_ gr = pos_ gr' -> same_result (m gr) (m gr').

(** The state of the loop of [lineStrings] after the line strings [lss]
    have been decoded: the pointers [single] and [multi]. *)
Definition lineStrings_state (lss : list OGRLineString)
  : option OGRLineString * option OGRMultiLineString :=
  match lss with
  | [] => (None, None)
  | [ls] => (Some ls, None)
  | _ => (None, Some lss)
  end.

Section RingGrouping.

Variable isClockwise : OGRLinearRing -> bool.

(** The ring grouping in the words of the specification: the polygon that
    is open, if any, and the MultiPolygon, if one was started. *)
Record Grouping := mkGrouping {
  open_polygon : option OGRPolygon;
  multi_polygon : option OGRMultiPolygon
}.

(** One decoded ring: when it is clockwise and a polygon is open, that
    polygon is first pushed into the MultiPolygon (created on first need);
    then the ring is appended to the open polygon, a new one being opened
    if none is. *)
Definition spec_add_ring (g : Grouping) (ring : OGRLinearRing) : Grouping :=
  let g :=
    if isClockwise ring then
      match open_polygon g with
      | Some p =>
          mkGrouping None
            (Some (match multi_polygon g with Some m => m | None => [] end ++ [p]))
      | None => g
      end
    else g in
  mkGrouping
    (Some (match open_polygon g with Some p => p | None => [] end ++ [ring]))
    (multi_polygon g).

(** At the end of the stream: with a MultiPolygon started, the open
    polygon is pushed into it and the MultiPolygon returned; otherwise the
    single polygon is. *)
Definition spec_finish (g : Grouping) : option OGRGeometry :=
  match multi_polygon g with
  | Some m =>
      Some (MultiPolygon
              (m ++ match open_polygon g with Some p => [p] | None => [] end))
  | None => option_map Polygon (open_polygon g)
  end.

Definition spec_polygons (rings : list OGRLinearRing) : option OGRGeometry :=
  spec_finish (fold_left spec_add_ring rings (mkGrouping None None)).

(** The polygons of the rings [rs] that follow the rings of the open
    polygon [p]: a clockwise ring starts a new polygon, any other ring
    joins the current one. *)
Fixpoint attach (p : OGRPolygon) (rs : list OGRLinearRing) : list OGRPolygon :=
  match rs with
  | [] => [p]
  | r :: rs' =>
      if isClockwise r then p :: attach [r] rs' else attach (p ++ [r]) rs'
  end.

Definition group_rings (rings : list OGRLinearRing) : list OGRPolygon :=
  match rings with
  | [] => []
  | r :: rs => attach [r] rs
  end.

Definition not_clockwise (ring : OGRLinearRing) : Prop := isClockwise ring = false.

End RingGrouping.

(** No polygon is no geometry, one polygon is a Polygon, more are a
    MultiPolygon. *)
Definition geometry_of_polygons (ps : list OGRPolygon) : option OGRGeometry :=
  match ps with
  | [] => None
  | [p] => Some (Polygon p)
  | _ => Some (MultiPolygon ps)
  end.

(** A ring is clockwise when its signed area, by the sum over the edges of
    [x1 * y2 - x2 * y1], is negative: the orientation test of the host
    library for the rings of the examples. *)
Fixpoint signed_area2 (ring : list Vertex) : Z :=
  match ring with
  | v1 :: (v2 :: _) as rest =>
      fst v1 * snd v2 - fst v2 * snd v1 + signed_area2 rest
  | _ => 0
  end.

Definition clockwise_by_area (ring : OGRLinearRing) : bool :=
  signed_area2 ring <? 0.

(** ** Vocabulary for the layer *)

(** The layer [l] with its iterator on the features [it]. *)
Definition positioned (l : Layer) (it : list Tile_Feature.t) : Layer :=
  mkLayer (srs_ l) (layer_ l) it (trafo_ l).

Definition is_known (f : Tile_Feature.t) : bool :=
  match Tile_Feature.type f with
  | Tile_GeomType_UNKNOWN => false
  | _ => true
  end.

Section LayerVocabulary.

Variable isClockwise : OGRLinearRing -> bool.

(** The feature handed to the host for the tile feature [f] whose geometry
    [g] was built. *)
Definition feature_with (l : Layer) (f : Tile_Feature.t) (g : option OGRGeometry)
  : OGRFeature :=
  mkOGRFeature (type (Tile_Feature.type f))
    (option_map GIntBig_of_uint64 (Tile_Feature.id f))
    g
    (match g with Some _ => srs_ l | None => None end).

(** [f] materializes in layer [l]: its geometry is built without an
    exception, and it is not a null geometry that would have a spatial
    reference assigned. *)
Definition materializes (l : Layer) (f : Tile_Feature.t) : Prop :=
  exists g,
    generateGeometry isClockwise f (trafo_ l) = Ok g /\
    (srs_ l = None \/ g <> None).

(** The geometry of [f], when it is built. *)
Definition geometry_of (l : Layer) (f : Tile_Feature.t) : option OGRGeometry :=
  match generateGeometry isClockwise f (trafo_ l) with
  | Ok g => g
  | _ => None
  end.

(** The features of known type among [fs], as handed to the host. *)
Definition known_features (l : Layer) (fs : list Tile_Feature.t) : list OGRFeature :=
  map (fun f => feature_with l f (geometry_of l f)) (filter is_known fs).

(** C6 as the specification words it: a failing feature is skipped, and
    the call that follows goes on with the feature after it. *)
Definition failure_skips_feature : Prop :=
  forall l f next e,
    skip_unknown (ifeatures_ l) = f :: next ->
    generateGeometry isClockwise f (trafo_ l) = Throw e ->
    exists l',
      GetNextFeature isClockwise l = Returns None (Some e) l' /\
      GetNextFeature isClockwise l' = GetNextFeature isClockwise (positioned l next).

(** C7 as the specification words it, for every layer: reading from the
    start returns as many features as the layer has of known type. *)
Definition iteration_yields_all_known : Prop :=
  forall l,
    exists fs l',
      readFeatures isClockwise (S (List.length (Tile_Layer.features (layer_ l))))
        (ResetReading l) = Some (fs, l') /\
      List.length fs
      = List.length (filter is_known (Tile_Layer.features (layer_ l))).

End LayerVocabulary.

(** A layer for the examples: a POINT feature with no geometry stream,
    then a POINT feature at (3, 5). *)
Definition broken_then_point : Tile_Layer.t :=
  Tile_Layer.mk "roads"%string 4096
    [Tile_Feature.mk (Some 1) Tile_GeomType_POINT [];
     Tile_Feature.mk (Some 2) Tile_GeomType_POINT [9; 3; 5]].

(** A layer for the examples: unknown, point, unknown, point. *)
Definition unknown_point_unknown_point : Tile_Layer.t :=
  Tile_Layer.mk "places"%string 4096
    [Tile_Feature.mk None Tile_GeomType_UNKNOWN [];
     Tile_Feature.mk (Some 7) Tile_GeomType_POINT [9; 3; 5];
     Tile_Feature.mk None Tile_GeomType_UNKNOWN [9; 1; 1];
     Tile_Feature.mk (Some 8) Tile_GeomType_POINT [17; 1; 2; 3; 4]].

(** A layer for the examples: a LINESTRING feature with no geometry
    stream. *)
Definition empty_line : Tile_Layer.t :=
  Tile_Layer.mk "rivers"%string 4096
    [Tile_Feature.mk (Some 4) Tile_GeomType_LINESTRING []].

(** Datasets for the examples: opened without and with [MVT_SRS]. *)
Definition plain_dataset (layers : list Tile_Layer.t) : MvtDataset :=
  mkMvtDataset layers None None.

Definition srs_dataset (layers : list Tile_Layer.t) : MvtDataset :=
  mkMvtDataset layers (Some "EPSG:3857"%string) None.

(** A source for the examples: the raster [ramp_band 100] placed at the
    origin of the output grid, 4 by 4 pixels, valid from column [x0] on. *)
Definition valid_from (x0 : double) : Band :=
  mkBand (ramp_band 100)
    (mkImageReference (cv.mkRect 0 0 4 4)
       (cv.mkRect2d x0 dzero (double_of_Z 4) (double_of_Z 4))).

(** ** Vocabulary for further properties of the decoder *)

(** The integers of a stream are [std::uint32_t] values. *)
Definition uint32_stream (s : list Z) : Prop :=
  Forall (fun v => 0 <= v < uint32_modulus) s.

Definition in_uint32 (v : Vertex) : Prop :=
  0 <= fst v < uint32_modulus /\ 0 <= snd v < uint32_modulus.

(** A vertex moved by the offset [o], in unsigned 32-bit arithmetic. *)
Definition translate (o : Cursor.t) (v : Vertex) : Vertex :=
  (wrap32 (Cursor.x o + fst v), wrap32 (Cursor.y o + snd v)).

Definition translate_cursor (o c : Cursor.t) : Cursor.t :=
  Cursor.mk (wrap32 (Cursor.x o + Cursor.x c)) (wrap32 (Cursor.y o + Cursor.y c)).

(** The outcome of decoding one line string, moved by the offset [o]. *)
Definition translate_result (o : Cursor.t)
    (r : result ((list Vertex * Cursor.t) * GeometryReader))
  : result ((list Vertex * Cursor.t) * GeometryReader) :=
  match r with
  | Ok ((ls, c), gr) => Ok ((map (translate o) ls, translate_cursor o c), gr)
  | Throw e => Throw e
  | OutOfFuel => OutOfFuel
  end.

(** Two cursors that differ by the offset [o], modulo [2^32]. *)
Definition offset_by (o c c0 : Cursor.t) : Prop :=
  wrap32 (Cursor.x c) = wrap32 (Cursor.x o + Cursor.x c0) /\
  wrap32 (Cursor.y c) = wrap32 (Cursor.y o + Cursor.y c0).

(** The vertices of a geometry. *)
Fixpoint vertices (g : OGRGeometry) : list Vertex :=
  match g with
  | Point px py => [(px, py)]
  | GeometryCollection members => flat_map vertices members
  | LineString ls => ls
  | MultiLineString mls => concat mls
  | Polygon pg => concat pg
  | MultiPolygon mpg => concat (map (@concat Vertex) mpg)
  end.

(** A line string as the builder makes it: at least two vertices. *)
Definition line_shaped (ls : list Vertex) : Prop := (2 <= List.length ls)%nat.

(** A ring as the builder makes it: at least three vertices, the last
    being the first. *)
Definition ring_shaped (ring : list Vertex) : Prop :=
  exists start mid, mid <> [] /\ ring = start :: mid ++ [start].

(** The shape of the geometries the builder returns. *)
Definition built_shape (g : OGRGeometry) : Prop :=
  match g with
  | Point _ _ => True
  | GeometryCollection members =>
      (2 <= List.length members)%nat /\
      Forall (fun m => exists px py, m = Point px py) members
  | LineString ls => line_shaped ls
  | MultiLineString mls => (2 <= List.length mls)%nat /\ Forall line_shaped mls
  | Polygon pg => pg <> [] /\ Forall ring_shaped pg
  | MultiPolygon mpg =>
      (2 <= List.length mpg)%nat /\
      Forall (fun pg => pg <> [] /\ Forall ring_shaped pg) mpg
  end.

(** The streams that [singleLineString] accepts: MoveTo with count 1 and
    its delta pair [d], LineTo with a nonzero count and as many delta
    pairs [deltas], and for a ring a ClosePath with a nonzero count. *)
Definition accepts_line (closed : bool) (s : list Z) (d : Z * Z)
    (deltas : list (Z * Z)) : Prop :=
  exists raw_move raw_line closing,
    s = raw_move :: fst d :: snd d :: raw_line :: params deltas ++ closing /\
    Command.of_raw raw_move = Command.mk Command.moveTo 1 /\
    Command.type (Command.of_raw raw_line) = Command.lineTo /\
    Command.count (Command.of_raw raw_line) <> 0 /\
    List.length deltas = Z.to_nat (Command.count (Command.of_raw raw_line)) /\
    (if closed
     then exists raw_close,
         closing = [raw_close] /\
         Command.type (Command.of_raw raw_close) = Command.closePath /\
         Command.count (Command.of_raw raw_close) <> 0
     else closing = []).

(** The line string (or ring) of an accepted stream read from the cursor
    [cur], and the cursor after it. *)
Definition line_of (closed : bool) (cur : Cursor.t) (d : Z * Z)
    (deltas : list (Z * Z)) : list Vertex * Cursor.t :=
  let start := advance cur d in
  ((vertex_of start :: map vertex_of (track start deltas))
     ++ (if closed then [vertex_of start] else []),
   last (track start deltas) start).

(** The streams that [points] accepts, up to what follows them: MoveTo
    with a nonzero count and as many delta pairs. *)
Definition accepts_points (s : list Z) (deltas : list (Z * Z)) : Prop :=
  exists raw_move,
    s = raw_move :: params deltas /\
    Command.type (Command.of_raw raw_move) = Command.moveTo /\
    Command.count (Command.of_raw raw_move) <> 0 /\
    List.length deltas = Z.to_nat (Command.count (Command.of_raw raw_move)) /\
    (Command.count (Command.of_raw raw_move) = 1 -> List.length deltas = 1%nat).

(** The geometry of an accepted POINT stream. *)
Definition points_of (deltas : list (Z * Z)) : OGRGeometry :=
  match deltas with
  | [d] => point_of (advance Cursor.init d)
  | _ => GeometryCollection (map point_of (track Cursor.init deltas))
  end.

(** Two outcomes on the same reader: the same exception, or values
    related by [R] and the same integers left. *)
Definition related {A B} (R : A -> B -> Prop)
    (r : result (A * GeometryReader)) (r0 : result (B * GeometryReader)) : Prop :=
  match r0 with
  | Ok (b, gr0) => exists a, r = Ok (a, gr0) /\ R a b
  | Throw e => r = Throw e
  | OutOfFuel => r = OutOfFuel
  end.

(** A line and a cursor moved by the offset [o]. *)
Definition moved_by (o : Cursor.t) (r r0 : list Vertex * Cursor.t) : Prop :=
  fst r = map (translate o) (fst r0) /\ snd r = translate_cursor o (snd r0).

(** ** The dataset and its layers *)

(** [class MvtDataset] with the layers it has created so far: [layers_]
    holds a null pointer for a layer that was never asked for.  A
    [Layer*] handed to the host is the index of its slot. *)
Record MvtDatasetState := mkMvtDatasetState {
  dataset : MvtDataset;
  layers_ : list (option Layer)
}.

(** [v[i] = x] on a vector. *)
Fixpoint set_slot {A} (v : list A) (i : nat) (x : A) : list A :=
  match v, i with
  | [], _ => []
  | _ :: rest, O => x :: rest
  | a :: rest, S i' => a :: set_slot rest i' x
  end.

Section Dataset.

(** See [Trafo.new]. *)
Variable shift0_default : double.

(** [MvtDataset::MvtDataset]: [layers_(tile_->layers_size())]. *)
Definition MvtDataset_new (ds : MvtDataset) : MvtDatasetState :=
  mkMvtDatasetState ds (repeat None (List.length (tile_ ds))).

(** The slot [i] is filled with a new [Layer] for the tile layer [tl] if
    it holds a null pointer: [if (!layer) { layer.reset(new Layer(...)); }]. *)
Definition create_layer (st : MvtDatasetState) (i : nat) (tl : Tile_Layer.t)
  : MvtDatasetState :=
  match nth_error (layers_ st) i with
  | Some None =>
      mkMvtDatasetState (dataset st)
        (set_slot (layers_ st) i (Some (Layer_new shift0_default (dataset st) tl)))
  | _ => st
  end.

(** [OGRLayer* MvtDataset::GetLayer(int l)] *)
Definition GetLayer (st : MvtDatasetState) (l : Z) : option nat * MvtDatasetState :=
  if (l <? 0) || (l >=? Z.of_nat (List.length (layers_ st))) then (None, st)
  else
    match nth_error (tile_ (dataset st)) (Z.to_nat l) with
    | Some tl => (Some (Z.to_nat l), create_layer st (Z.to_nat l) tl)
    | None => (Some (Z.to_nat l), st)      (* not reached: as many slots as layers *)
    end.

(** The loop of [GetLayerByName]: [ilayers] is at slot [i], the layers of
    the tile from there on are [tls]. *)
Fixpoint GetLayerByName_from (st : MvtDatasetState) (tls : list Tile_Layer.t)
    (i : nat) (name : string) : option nat * MvtDatasetState :=
  match tls with
  | [] => (None, st)
  | tl :: rest =>
      if String.eqb (Tile_Layer.name tl) name
      then (Some i, create_layer st i tl)
      else GetLayerByName_from st rest (S i) name
  end.

(** [OGRLayer* MvtDataset::GetLayerByName(const char *name)] *)
Definition GetLayerByName (st : MvtDatasetState) (name : string)
  : option nat * MvtDatasetState :=
  GetLayerByName_from st (tile_ (dataset st)) 0 name.

End Dataset.

(** The index of the first layer with the name [name] among [tls],
    counted from [i]. *)
Fixpoint first_named (tls : list Tile_Layer.t) (i : nat) (name : string)
  : option nat :=
  match tls with
  | [] => None
  | tl :: rest =>
      if String.eqb (Tile_Layer.name tl) name then Some i
      else first_named rest (S i) name
  end.

(** The dataset has one slot for each layer of the tile, and a created
    layer is the layer of its slot. *)
Definition slots_match (st : MvtDatasetState) : Prop :=
  List.length (layers_ st) = List.length (tile_ (dataset st)) /\
  forall i l,
    nth_error (layers_ st) i = Some (Some l) ->
    nth_error (tile_ (dataset st)) i = Some (layer_ l).

(** A dataset for the examples: two layers that both have the name
    places, and one named roads between them. *)
Definition three_layers : MvtDataset :=
  mkMvtDataset
    [unknown_point_unknown_point; broken_then_point; unknown_point_unknown_point]
    None None.

(** ** The tile address of an MBTiles path (mbtiles.cpp) *)

Module mbtiles.

Import Ascii.

(** A [const char *] is the list of the characters from the pointer on;
    the end of the list stands for the terminating NUL, and so does a NUL
    inside it: the code never moves a pointer past a NUL. *)
Definition NUL : ascii := zero.
Definition dash : ascii := "-"%char.
Definition plus : ascii := "+"%char.
Definition digit0 : ascii := "0"%char.
Definition slash : ascii := "/"%char.

(** [*p] *)
Definition peek (p : list ascii) : ascii :=
  match p with
  | [] => NUL
  | c :: _ => c
  end.

(** [bool isDigit(char c)]; a [char] above 127 is below ['0'] when [char]
    is signed and above ['9'] when it is not. *)
Definition isDigit (c : ascii) : bool :=
  (nat_of_ascii "0" <=? nat_of_ascii c)%nat &&
  (nat_of_ascii c <=? nat_of_ascii "9")%nat.

(** [char positive(char c)]; it is called on digits only. *)
Definition positive (c : ascii) : Z :=
  Z.of_nat (nat_of_ascii c) - Z.of_nat (nat_of_ascii "0").

(** The loop [while (isDigit(c)) { value *= 10; value += getter(c);
    c = *++e; }] on an [unsigned int] value; [dist] counts the steps of
    [e]. *)
Fixpoint digits (getter : ascii -> Z) (e : list ascii) (value dist : Z)
  : Z * list ascii * Z :=
  match e with
  | c :: e' =>
      if isDigit c
      then digits getter e' (wrap32 (wrap32 (value * 10) + getter c)) (dist + 1)
      else (value, e, dist)
  | [] => (value, e, dist)
  end.

(** [parsePartImpl<minWidth, getter>(p, value)] with [T = unsigned int]:
    the returned pointer ([None] is [nullptr]) and what [value] holds
    afterwards. *)
Definition parsePartImpl (minWidth : Z) (getter : ascii -> Z)
    (p : list ascii) (value : Z) : option (list ascii) * Z :=
  let c := peek p in
  if Ascii.eqb c dash || Ascii.eqb c plus then (None, value)
  else
    let prefix := Ascii.eqb c digit0 in
    let '(value, e, dist) := digits getter p 0 0 in
    if dist <? minWidth then (None, value)
    else if prefix && (dist >? minWidth) then (None, value)
    else (Some e, value).

Definition parsePart (minWidth : Z) (p : list ascii) (value : Z)
  : option (list ascii) * Z :=
  parsePartImpl minWidth positive p value.

(** [bool parse(const char *p, unsigned int &zoom, unsigned int &col,
    unsigned int &row)]: the result and what the three references hold
    afterwards. *)
Definition parse (p : list ascii) (zoom col row : Z) : bool * (Z * Z * Z) :=
  match parsePart 1 p zoom with
  | (None, zoom) => (false, (zoom, col, row))
  | (Some p, zoom) =>
      if negb (Ascii.eqb (peek p) dash) then (false, (zoom, col, row))
      else
        match parsePart 1 (tl p) col with
        | (None, col) => (false, (zoom, col, row))
        | (Some p, col) =>
            if negb (Ascii.eqb (peek p) dash) then (false, (zoom, col, row))
            else
              match parsePart 1 (tl p) row with
              | (None, row) => (false, (zoom, col, row))
              | (Some p, row) => (Ascii.eqb (peek p) NUL, (zoom, col, row))
              end
        end
  end.

(** [::strrchr(path, '/')]: the characters before the last slash, which
    [std::string mbtiles(path, p)] copies, and the characters from [p + 1]
    on; [None] is the null pointer. *)
Fixpoint strrchr_slash (path : list ascii) : option (list ascii * list ascii) :=
  match path with
  | [] => None
  | c :: rest =>
      if Ascii.eqb c NUL then None
      else
        match strrchr_slash rest with
        | Some (before, after) => Some (c :: before, after)
        | None => if Ascii.eqb c slash then Some ([], rest) else None
        end
  end.

(** The messages given to [CPLError]. *)
Inductive Error : Type :=
| CannotFindSlash
| UnableToMatch
| OutOfBound (max : Z)
| SqliteFailed (what : string)
| NoTileFound (zoom col row : Z)
| UnableToGetBlob
| EmptyBlob.

(** What [sqlite3_step] returns; with [SQLITE_ROW], the blob of column 0:
    [None] is the null pointer, and the length of the list is
    [sqlite3_column_bytes]. *)
Inductive Step : Type :=
| SQLITE_ROW (blob : option (list ascii))
| SQLITE_DONE
| SQLITE_other (res : Z).

(** The database library and the tile decoder, as the function uses them:
    the status codes of opening the archive, of preparing the [SELECT] and
    of binding a value to a parameter, the outcome of the step for the
    archive and the three bound values, and the results of
    [tile.ParseFromArray] and of [tile.ParseFromIstream] behind the gzip
    decompressor. *)
Record Library := mkLibrary {
  sqlite3_open_v2 : list ascii -> Z;
  sqlite3_prepare : list ascii -> Z;
  sqlite3_bind_int : Z -> Z -> Z;
  sqlite3_step : list ascii -> Z -> Z -> Z -> Step;
  ParseFromArray : list ascii -> bool;
  ParseFromIstream_gunzip : list ascii -> bool
}.

(** What a call does: it returns, having reported the errors in order; or
    its behaviour is not defined ([1 << zoom] on an [int] for a zoom of 31
    or more). *)
Inductive Load : Type :=
| Undefined
| Returns (ok : bool) (errors : list Error).

(** An [unsigned int] given to an [int] parameter. *)
Definition int_of_unsigned (v : Z) : Z :=
  if v <? 2 ^ 31 then v else v - 2 ^ 32.

(** The second half of [loadFromMbTilesArchive], from "open database" on:
    [errors] is what has been reported so far. *)
Definition load (lib : Library) (mbtiles : list ascii) (zoom col row : Z)
    (errors : list Error) : Load :=
  if negb (sqlite3_open_v2 lib mbtiles =? 0)
  then Returns false (errors ++ [SqliteFailed "sqlite3_open_v2"])
  else if negb (sqlite3_prepare lib mbtiles =? 0)
  then Returns false (errors ++ [SqliteFailed "sqlite3_prepare"])
  else if negb (sqlite3_bind_int lib 1 (int_of_unsigned zoom) =? 0)
  then Returns false (errors ++ [SqliteFailed "sqlite3_bind_int"])
  else if negb (sqlite3_bind_int lib 2 (int_of_unsigned col) =? 0)
  then Returns false (errors ++ [SqliteFailed "sqlite3_bind_int"])
  else if negb (sqlite3_bind_int lib 3 (int_of_unsigned row) =? 0)
  then Returns false (errors ++ [SqliteFailed "sqlite3_bind_int"])
  else
    match sqlite3_step lib mbtiles (int_of_unsigned zoom) (int_of_unsigned col)
                       (int_of_unsigned row) with
    | SQLITE_DONE => Returns false (errors ++ [NoTileFound zoom col row])
    | SQLITE_other res =>
        Returns false
          (errors ++ if res =? 0 then [] else [SqliteFailed "sqlite3_step"])
    | SQLITE_ROW None => Returns false (errors ++ [UnableToGetBlob])
    | SQLITE_ROW (Some blob) =>
        if (Z.of_nat (List.length blob) =? 0)
        then Returns false (errors ++ [EmptyBlob])
        else if negb (Ascii.eqb (peek blob) (ascii_of_nat 31))
        then Returns (ParseFromArray lib blob) errors
        else Returns (ParseFromIstream_gunzip lib blob) errors
    end.

(** [bool loadFromMbTilesArchive(vector_tile::Tile &tile, const char *path)] *)
Definition loadFromMbTilesArchive (lib : Library) (path : list ascii) : Load :=
  match strrchr_slash path with
  | None => Returns false [CannotFindSlash]
  | Some (mbtiles, last) =>
      let '(parsed, (zoom, col, row)) := parse last 0 0 0 in
      let errors := if negb parsed then [UnableToMatch] else [] in
      if 31 <=? zoom then Undefined
      else
        let max := wrap32 (2 ^ zoom - 1) in
        let errors :=
          errors ++ if (col >? max) || (row >? max) then [OutOfBound max] else [] in
        let row := wrap32 (max - row) in
        load lib mbtiles zoom col row errors
  end.

(** *** Vocabulary of the statements *)

(** The number a string of digits denotes, by the places of its digits. *)
Fixpoint value_of (s : list ascii) : Z :=
  match s with
  | [] => 0
  | c :: s' => positive c * 10 ^ Z.of_nat (List.length s') + value_of s'
  end.

(** A decimal numeral as the parser takes it: digits, at least one, and no
    zero in front of other digits. *)
Definition numeral (s : list ascii) : Prop :=
  s <> [] /\ Forall (fun c => isDigit c = true) s /\
  (peek s = digit0 -> List.length s = 1%nat).

(** Free of NUL characters: the string is a whole C string. *)
Definition c_string (s : list ascii) : Prop := Forall (fun c => c <> NUL) s.

(** An archive that holds one tile at one address and nothing else, for
    the examples. *)
Definition one_tile (zoom col row : Z) (blob : list ascii) : Library :=
  mkLibrary (fun _ => 0) (fun _ => 0) (fun _ _ => 0)
    (fun _ z c r =>
       if (z =? zoom) && (c =? col) && (r =? row)
       then SQLITE_ROW (Some blob) else SQLITE_DONE)
    (fun _ => true) (fun _ => true).

End mbtiles.

(** ** The solid dataset (solid.cpp) *)

Module solid.

(** [math::Size2] *)
Record Size2 := mkSize2 { width : Z; height : Z }.

(** [int(std::round(v / 2.0))] for an [int] [v]: the half is exact in a
    [double], and [std::round] takes a half away from zero. *)
Definition round_half (v : Z) : Z :=
  if 0 <=? v then (v + 1) / 2 else - ((1 - v) / 2).

(** The lambda [halve] of the constructor. *)
Definition halve (size : Size2) : Size2 :=
  mkSize2 (round_half (width size)) (round_half (height size)).

(** The loop [while ((size.width >= config_.tileSize.width) ||
    (size.height >= config_.tileSize.height)) { overviews.push_back(size);
    halve(); }]; [None] when [fuel] rounds were not enough to leave it. *)
Fixpoint overviews_loop (fuel : nat) (tileSize size : Size2)
  : option (list Size2) :=
  match fuel with
  | O => None
  | S fuel =>
      if (width size >=? width tileSize) || (height size >=? height tileSize)
      then
        match overviews_loop fuel tileSize (halve size) with
        | Some overviews => Some (size :: overviews)
        | None => None
        end
      else Some []
  end.

(** The block "prepare overviews" of [SolidDataset::SolidDataset]. *)
Definition overviews (fuel : nat) (size tileSize : Size2) : option (list Size2) :=
  overviews_loop fuel tileSize (halve size).

(** [geo::GeoTransform]: six coefficients. *)
Definition GeoTransform : Type := list double.

(** [Config::extentsOrGeoTransform], which [Config::extents()] and
    [Config::geoTransform()] read with [boost::get]. *)
Inductive ExtentsOrGeoTransform : Type :=
| HoldsExtents (e : Trafo.Extents2)
| HoldsGeoTransform (g : GeoTransform).

(** [Config::Band] *)
Record Band := mkBand {
  value : double;
  dataType : GDALDataType;
  colorInterpretation : Z
}.

Record Config := mkConfig {
  srs : SrsDefinition;
  size : Size2;
  tileSize : Size2;
  extentsOrGeoTransform : ExtentsOrGeoTransform;
  bands : list Band
}.

(** [const math::Extents2* Config::extents() const] *)
Definition extents (config : Config) : option Trafo.Extents2 :=
  match extentsOrGeoTransform config with
  | HoldsExtents e => Some e
  | HoldsGeoTransform _ => None
  end.

(** [const geo::GeoTransform* Config::geoTransform() const] *)
Definition geoTransform (config : Config) : option GeoTransform :=
  match extentsOrGeoTransform config with
  | HoldsExtents _ => None
  | HoldsGeoTransform g => Some g
  end.

(** What is put on the stream: the literals of the source as they are
    written there, and the values. *)
Inductive Item : Type :=
| Text (s : string)
| PutSrs (s : SrsDefinition)
| PutSize (s : Size2)
| PutExtents (e : Trafo.Extents2)
| PutGeoTransform (g : GeoTransform)
| PutValue (v : double)
| PutDataType (t : GDALDataType)
| PutColorInterpretation (c : Z).

(** What [writeConfig] does: the stream throws when the file cannot be
    opened; or the function throws its [std::runtime_error], having
    written [written]; or it closes the file. *)
Inductive Written : Type :=
| StreamFailure
| ThrowsRuntimeError (written : list Item)
| Closed (written : list Item).

Definition band_items (band : Band) : list Item :=
  [Text "\n[band]"; Text "\nvalue = "; PutValue (value band);
   Text "\ndataType = "; PutDataType (dataType band);
   Text "\ncolorInterpretation = ";
   PutColorInterpretation (colorInterpretation band); Text "\n"].

(** [void writeConfig(const boost::filesystem::path &file, const
    SolidDataset::Config &config)]; [opens] tells whether [f.open]
    succeeds. *)
Definition writeConfig (opens : bool) (config : Config) : Written :=
  if negb opens then StreamFailure
  else
    let f := [Text "[solid]"; Text "\nsrs = "; PutSrs (srs config);
              Text "\nsize = "; PutSize (size config);
              Text "\ntileSize = "; PutSize (tileSize config)] in
    let f :=
      match extents config with
      | Some e => f ++ [Text "\nextents = "; PutExtents e]
      | None => f
      end in
    match geoTransform config with
    | Some g =>
        let f := f ++ [Text "\ngeoTransform = "; PutGeoTransform g] in
        let f := f ++ [Text "\n\n"] in
        Closed (f ++ flat_map band_items (bands config))
    | None => ThrowsRuntimeError f
    end.

(** *** Vocabulary of the statements *)

(** [a / b] rounded up. *)
Definition div_up (a b : Z) : Z := (a + b - 1) / b.

(** The raster size at level [k]: both sides divided by [2^k], rounded
    up. *)
Definition level (size : Size2) (k : nat) : Size2 :=
  mkSize2 (div_up (width size) (2 ^ Z.of_nat k))
          (div_up (height size) (2 ^ Z.of_nat k)).

(** A raster of that size has a side of at least a tile's. *)
Definition fills_a_tile (tileSize size : Size2) : Prop :=
  width tileSize <= width size \/ height tileSize <= height size.

End solid.

(** ** The windows of the blender *)

(** Does the source meet the block? *)
Definition meets (block : cv.Rect) (b : Band) : bool :=
  negb (cv.area (cv.inter block (extents (ref b))) =? 0).

(** The window of the source raster that is read for the block, in the
    source's pixels: [roi - band.ref.extents.tl()]. *)
Definition window (block : cv.Rect) (b : Band) : cv.Rect :=
  cv.shift_back (cv.inter block (extents (ref b)))
    (cv.x (extents (ref b))) (cv.y (extents (ref b))).

(** [inner] lies inside a raster of [w] columns and [h] rows and has pixels. *)
Definition inside (inner : cv.Rect) (w h : Z) : Prop :=
  0 <= cv.x inner /\ 0 < cv.width inner /\ cv.x inner + cv.width inner <= w /\
  0 <= cv.y inner /\ 0 < cv.height inner /\ cv.y inner + cv.height inner <= h.

(** Two bands that give the same for one window. *)
Definition same_reading (w : cv.Rect) (b b' : Band) : Prop :=
  ref b' = ref b /\
  MaskAllValid (band b') = MaskAllValid (band b) /\
  RasterIO (band b') w = RasterIO (band b) w /\
  MaskRasterIO (band b') w = MaskRasterIO (band b) w.

(** A band whose reading fails outside the window [w], for the examples. *)
Definition only_window (w : cv.Rect) (v : Z) : GDALRasterBand :=
  mkGDALRasterBand
    (fun r =>
       if (cv.x r =? cv.x w) && (cv.y r =? cv.y w) &&
          (cv.width r =? cv.width w) && (cv.height r =? cv.height w)
       then (CE_None, fun _ _ => double_of_Z v)
       else (CE_Failure, fun _ _ => dzero))
    true
    (fun r => (CE_Failure, fun _ _ => dzero))
    GDT_Float64.

(** ** Decoding up to a place in the stream *)

(** The front of a stream decodes as the line strings (or closed rings)
    [lss], one after the other with the cursor carried along; [cur'] and
    [gr'] are the cursor and the reader behind the last of them. *)
Inductive DecodesUpTo (closed : bool)
  : Cursor.t -> GeometryReader -> list (list Vertex)
    -> Cursor.t -> GeometryReader -> Prop :=
| UpTo_here cur gr : DecodesUpTo closed cur gr [] cur gr
| UpTo_next cur gr ls cur1 gr1 lss cur' gr' :
    more gr = true ->
    singleLineString cur closed gr = Ok ((ls, cur1), gr1) ->
    DecodesUpTo closed cur1 gr1 lss cur' gr' ->
    DecodesUpTo closed cur gr (ls :: lss) cur' gr'.

(** * Properties *)

(** ** Commands and their encoding *)

Lemma land7_raw_command opcode count :
  0 <= opcode < 8 -> Z.land (raw_command opcode count) 7 = opcode.
Proof.
  intros Hop. unfold raw_command.
  rewrite Z.land_lor_distr_l.
  change 7 with (Z.ones 3).
  rewrite !Z.land_ones by lia.
  rewrite Z.shiftl_mul_pow2 by lia.
  rewrite Z.mod_mul by lia.
  rewrite Z.mod_small by (simpl; lia).
  reflexivity.
Qed.

Lemma shiftr3_raw_command opcode count :
  0 <= opcode < 8 -> Z.shiftr (raw_command opcode count) 3 = count.
Proof.
  intros Hop. unfold raw_command.
  rewrite Z.shiftr_lor, Z.shiftr_shiftl_l by lia.
  rewrite Z.sub_diag, Z.shiftl_0_r.
  rewrite (Z.shiftr_div_pow2 opcode) by lia.
  rewrite Z.div_small by (simpl; lia).
  apply Z.lor_0_r.
Qed.

Lemma of_raw_raw_command opcode count :
  0 <= opcode < 8 ->
  Command.of_raw (raw_command opcode count) = Command.mk opcode count.
Proof.
  intros Hop. unfold Command.of_raw.
  now rewrite land7_raw_command, shiftr3_raw_command.
Qed.

Lemma command_raw_command tr opcode count rest :
  0 <= opcode < 8 ->
  command opcode (mkGeometryReader tr (raw_command opcode count :: rest))
  = Ok (Command.mk opcode count, mkGeometryReader tr rest).
Proof.
  intros Hop. unfold command. cbn [pos_ trafo].
  rewrite of_raw_raw_command by assumption. cbn [Command.type].
  now rewrite Z.eqb_refl.
Qed.

Lemma shift_pair tr cur dx dy rest :
  shift cur (mkGeometryReader tr (dx :: dy :: rest))
  = Ok (advance cur (dx, dy), mkGeometryReader tr rest).
Proof. reflexivity. Qed.

Lemma vertex_at_ok cur gr : vertex_at cur gr = Ok (vertex_of cur, gr).
Proof. reflexivity. Qed.

(** C3. Reading one command takes one integer and decodes the opcode as
    [value & 0x7] and the count as [value >> 3]; with no integer left it
    fails with a stream underrun; with an opcode other than the expected
    one it fails with an unexpected-opcode error; shifting the cursor
    takes two integers, added (modulo [2^32]) to [x] and then to [y], and
    fails with a stream underrun when fewer than two integers are left. *)
Theorem C3_command_and_shift :
  (forall raw,
      Command.type (Command.of_raw raw) = Z.land raw 7 /\
      Command.count (Command.of_raw raw) = Z.shiftr raw 3) /\
  (forall tr ty,
      command ty (mkGeometryReader tr []) = Throw CommandPastEnd /\
      kind CommandPastEnd = StreamUnderrun) /\
  (forall tr ty raw rest,
      command ty (mkGeometryReader tr (raw :: rest))
      = if Z.land raw 7 =? ty
        then Ok (Command.mk (Z.land raw 7) (Z.shiftr raw 3),
                 mkGeometryReader tr rest)
        else Throw (UnexpectedType (Z.land raw 7) ty)) /\
  (forall got expected, kind (UnexpectedType got expected) = UnexpectedOpcode) /\
  (forall tr cur dx dy rest,
      shift cur (mkGeometryReader tr (dx :: dy :: rest))
      = Ok (Cursor.mk (wrap32 (Cursor.x cur + dx)) (wrap32 (Cursor.y cur + dy)),
            mkGeometryReader tr rest)) /\
  (forall tr cur,
      shift cur (mkGeometryReader tr []) = Throw ShiftPastEnd /\
      (forall dx, shift cur (mkGeometryReader tr [dx]) = Throw ShiftPastEnd) /\
      kind ShiftPastEnd = StreamUnderrun).
Proof.
  repeat split.
  intros tr ty raw rest. unfold command. cbn [pos_ trafo Command.of_raw Command.type].
  destruct (Z.land raw 7 =? ty); reflexivity.
Qed.

(** ** Runs of shifts *)


Lemma track_length cur deltas : List.length (track cur deltas) = List.length deltas.
Proof. revert cur; induction deltas as [|d deltas IH]; intros cur; simpl; auto. Qed.

Lemma points_loop_params tr rest deltas : forall cur g,
  points_loop (List.length deltas) cur g (mkGeometryReader tr (params deltas ++ rest))
  = Ok (g ++ map point_of (track cur deltas), mkGeometryReader tr rest).
Proof.
  induction deltas as [|[dx dy] deltas IH]; intros cur g.
  - simpl. now rewrite app_nil_r.
  - cbn [List.length points_loop params flat_map app fst snd].
    fold (params deltas).
    unfold bind at 1. rewrite shift_pair.
    unfold bind at 1. rewrite vertex_at_ok.
    rewrite IH. cbn [track map]. now rewrite <- app_assoc.
Qed.

Lemma last_cons {A} (l : list A) : forall a d, last (a :: l) d = last l a.
Proof.
  induction l as [|b l IH]; intros a d; [reflexivity|].
  change (last (a :: b :: l) d) with (last (b :: l) d).
  rewrite (IH b d), (IH b a). reflexivity.
Qed.

Lemma lineTo_loop_params tr rest deltas : forall cur ls,
  lineTo_loop (List.length deltas) cur ls (mkGeometryReader tr (params deltas ++ rest))
  = Ok ((ls ++ map vertex_of (track cur deltas), last (track cur deltas) cur),
        mkGeometryReader tr rest).
Proof.
  induction deltas as [|[dx dy] deltas IH]; intros cur ls.
  - simpl. now rewrite app_nil_r.
  - cbn [List.length lineTo_loop params flat_map app fst snd].
    fold (params deltas).
    unfold bind at 1. rewrite shift_pair.
    unfold bind at 1. rewrite vertex_at_ok.
    rewrite IH. cbn [track map]. rewrite <- app_assoc. cbn [app].
    now rewrite last_cons.
Qed.

(** Running sums in unsigned 32-bit arithmetic. *)

Lemma wrap32_add_l a b : wrap32 (wrap32 a + b) = wrap32 (a + b).
Proof. unfold wrap32. apply Zplus_mod_idemp_l. Qed.

Lemma track_from_sums deltas : forall a b,
  track (Cursor.mk (wrap32 a) (wrap32 b)) deltas
  = map (fun i =>
           Cursor.mk (wrap32 (a + sumZ (map fst (firstn (S i) deltas))))
                     (wrap32 (b + sumZ (map snd (firstn (S i) deltas)))))
        (seq 0 (List.length deltas)).
Proof.
  induction deltas as [|[dx dy] deltas IH]; intros a b; [reflexivity|].
  cbn [track List.length seq map]. unfold advance at 1 2. cbn [Cursor.x Cursor.y fst snd].
  rewrite !wrap32_add_l. f_equal.
  - cbn [firstn map sumZ fold_right fst snd]. f_equal; f_equal; lia.
  - rewrite IH. rewrite <- seq_shift, map_map.
    apply map_ext. intros i.
    cbn [firstn map sumZ fold_right fst snd].
    f_equal; f_equal; unfold sumZ; lia.
Qed.

Lemma track_running_sum deltas :
  track Cursor.init deltas = map (running_sum deltas) (seq 0 (List.length deltas)).
Proof.
  change Cursor.init with (Cursor.mk (wrap32 0) (wrap32 0)).
  rewrite track_from_sums. apply map_ext. intros i. reflexivity.
Qed.

(** ** Points *)

Lemma points_count_zero tr rest :
  points (mkGeometryReader tr (raw_command Command.moveTo 0 :: rest))
  = Throw (ExpectedNonzero 0).
Proof. reflexivity. Qed.

Lemma points_single tr dx dy rest :
  points (mkGeometryReader tr (raw_command Command.moveTo 1 :: dx :: dy :: rest))
  = Ok (Some (Point (wrap32 dx) (wrap32 dy)), mkGeometryReader tr rest).
Proof. reflexivity. Qed.

Lemma points_multi tr deltas rest :
  (1 < List.length deltas)%nat ->
  points (mkGeometryReader tr
            (raw_command Command.moveTo (Z.of_nat (List.length deltas))
               :: params deltas ++ rest))
  = Ok (Some (GeometryCollection (map point_of (track Cursor.init deltas))),
        mkGeometryReader tr rest).
Proof.
  intros Hn. unfold points.
  unfold bind at 1. unfold bind at 1.
  rewrite command_raw_command by (unfold Command.moveTo; lia).
  unfold checkNonzero. cbn [Command.count].
  destruct (Z.of_nat (List.length deltas) =? 0) eqn:E0; [lia|].
  unfold ret at 1. cbn iota beta.
  assert (E1 : (Z.of_nat (List.length deltas) =? 1) = false) by lia.
  cbn [Command.count]. rewrite E1.
  unfold bind. rewrite Nat2Z.id, points_loop_params. reflexivity.
Qed.

(** C5. A POINT feature reads one MoveTo command.  With count 0 it fails
    with an invalid-count error.  With count 1 it yields one point, the
    delta pair added to the cursor that starts at (0,0).  With count
    [N > 1] the [N] points are as the claim has them, the [i]-th being
    the sum of the first [i] delta pairs (in the cursor's unsigned 32-bit
    arithmetic), in the order of decoding; but what holds them is not a
    MultiPoint: under its comment "multi point" the code makes a plain
    [OGRGeometryCollection], where [lineStrings] and [polygons] make an
    [OGRMultiLineString] and an [OGRMultiPolygon].  The geometry of a
    POINT feature is built by this reading of its stream: the feature
    with the stream MoveTo(2), (1,2), (3,4) gets the collection of the
    points (1,2) and (4,6). *)
Theorem C5_points tr rest :
  (points (mkGeometryReader tr (raw_command Command.moveTo 0 :: rest))
   = Throw (ExpectedNonzero 0) /\
   kind (ExpectedNonzero 0) = InvalidCount) /\
  (forall dx dy,
      points (mkGeometryReader tr
                (raw_command Command.moveTo 1 :: dx :: dy :: rest))
      = Ok (Some (Point (wrap32 (0 + dx)) (wrap32 (0 + dy))),
            mkGeometryReader tr rest)) /\
  (forall d1 d2 more,
      let deltas := d1 :: d2 :: more in
      let N := List.length deltas in
      points (mkGeometryReader tr
                (raw_command Command.moveTo (Z.of_nat N) :: params deltas ++ rest))
      = Ok (Some (GeometryCollection
                    (map (fun i => point_of (running_sum deltas i)) (seq 0 N))),
            mkGeometryReader tr rest)) /\
  (forall isClockwise id source,
      generateGeometry isClockwise
        (Tile_Feature.mk id Tile_GeomType_POINT source) tr
      = run points (GeometryReader_new tr source)) /\
  (forall isClockwise id,
      generateGeometry isClockwise
        (Tile_Feature.mk id Tile_GeomType_POINT
           [raw_command Command.moveTo 2; 1; 2; 3; 4]) tr
      = Ok (Some (GeometryCollection [Point 1 2; Point 4 6]))).
Proof.
  split; [split; reflexivity|]. split; [|split; [|split]].
  - intros dx dy. apply points_single.
  - intros d1 d2 more deltas N.
    unfold N. rewrite points_multi by (unfold deltas; simpl; lia).
    rewrite track_running_sum, map_map. reflexivity.
  - reflexivity.
  - reflexivity.
Qed.

(** ** What a computation does to the reader *)


Lemma consumes_ret {A} (a : A) : consumes 0 (ret a).
Proof. intros gr a' gr' H. inversion H; subst. split; [reflexivity|lia]. Qed.

Lemma consumes_throw {A} n e : consumes n (@throw A e).
Proof. intros gr a gr' H. discriminate H. Qed.

Lemma consumes_bind {A B} n1 n2 (m : GR A) (k : A -> GR B) :
  consumes n1 m -> (forall a, consumes n2 (k a)) -> consumes (n1 + n2) (bind m k).
Proof.
  intros Hm Hk gr b gr'. unfold bind.
  destruct (m gr) as [[a gr1]|e|] eqn:E; try discriminate.
  intros H. destruct (Hm _ _ _ E) as [T1 L1]. destruct (Hk a _ _ _ H) as [T2 L2].
  split; [congruence|lia].
Qed.

Lemma consumes_weaken {A} n n' (m : GR A) :
  (n' <= n)%nat -> consumes n m -> consumes n' m.
Proof. intros Hle Hm gr a gr' H. destruct (Hm _ _ _ H). split; [assumption|lia]. Qed.

Lemma consumes_command ty : consumes 1 (command ty).
Proof.
  intros gr a gr'. unfold command.
  destruct (pos_ gr) as [|raw rest] eqn:E; [discriminate|].
  destruct (negb _); [discriminate|].
  intros H; inversion H; subst; cbn [trafo pos_]. split; [reflexivity|simpl; lia].
Qed.

Lemma consumes_shift cur : consumes 2 (shift cur).
Proof.
  intros gr a gr'. unfold shift.
  destruct (pos_ gr) as [|dx [|dy rest]] eqn:E; try discriminate.
  intros H; inversion H; subst; cbn [trafo pos_]. split; [reflexivity|simpl; lia].
Qed.

Lemma consumes_vertex_at cur : consumes 0 (vertex_at cur).
Proof. intros gr a gr' H. inversion H; subst. split; [reflexivity|lia]. Qed.

Lemma consumes_checkNonzero c : consumes 0 (checkNonzero c).
Proof.
  unfold checkNonzero. destruct (_ =? _); [apply consumes_throw|apply consumes_ret].
Qed.

Lemma consumes_checkSingle c : consumes 0 (checkSingle c).
Proof.
  unfold checkSingle. destruct (negb _); [apply consumes_throw|apply consumes_ret].
Qed.

Lemma consumes_lineTo_loop n : forall cur ls, consumes 0 (lineTo_loop n cur ls).
Proof.
  induction n as [|n IH]; intros cur ls; cbn [lineTo_loop].
  - apply consumes_ret.
  - apply (consumes_weaken (2 + (0 + 0))); [lia|].
    apply consumes_bind; [apply consumes_shift|intros c].
    apply consumes_bind; [apply consumes_vertex_at|intros v]. apply IH.
Qed.

Lemma consumes_singleLineString cur closed :
  consumes 1 (singleLineString cur closed).
Proof.
  unfold singleLineString.
  apply (consumes_weaken ((1 + 0) + 0)); [lia|].
  apply consumes_bind.
  - apply consumes_bind; [apply consumes_command|intros c; apply consumes_checkSingle].
  - intros moveTo.
    apply (consumes_weaken (0 + (0 + (0 + (0 + 0))))); [lia|].
    apply consumes_bind; [eapply consumes_weaken; [|apply consumes_shift]; lia|intros c].
    apply consumes_bind; [apply consumes_vertex_at|intros v].
    apply consumes_bind.
    { apply (consumes_weaken (1 + 0)); [lia|].
      apply consumes_bind; [apply consumes_command|intros c'; apply consumes_checkNonzero]. }
    intros lineTo.
    apply consumes_bind; [apply consumes_lineTo_loop|intros [ls c']].
    destruct (negb closed); [apply consumes_ret|].
    apply (consumes_weaken ((1 + 0) + (0 + 0))); [lia|].
    apply consumes_bind.
    { apply consumes_bind; [apply consumes_command|intros c''; apply consumes_checkNonzero]. }
    intros cp. apply consumes_bind; [apply consumes_vertex_at|intros v']. apply consumes_ret.
Qed.


Lemma bounded_ret {A} (a : A) : bounded (ret a).
Proof. intros gr H; discriminate H. Qed.

Lemma bounded_throw {A} e : bounded (@throw A e).
Proof. intros gr H; discriminate H. Qed.

Lemma bounded_bind {A B} (m : GR A) (k : A -> GR B) :
  bounded m -> (forall a, bounded (k a)) -> bounded (bind m k).
Proof.
  intros Hm Hk gr. unfold bind.
  destruct (m gr) as [[a gr1]|e|] eqn:E; [apply Hk|discriminate|].
  exfalso; exact (Hm _ E).
Qed.

Lemma bounded_command ty : bounded (command ty).
Proof.
  intros gr. unfold command.
  destruct (pos_ gr); [discriminate|]. destruct (negb _); discriminate.
Qed.

Lemma bounded_shift cur : bounded (shift cur).
Proof.
  intros gr. unfold shift. destruct (pos_ gr) as [|dx [|dy rest]]; discriminate.
Qed.

Lemma bounded_vertex_at cur : bounded (vertex_at cur).
Proof. intros gr H; discriminate H. Qed.

Lemma bounded_checkNonzero c : bounded (checkNonzero c).
Proof.
  unfold checkNonzero. destruct (_ =? _); [apply bounded_throw|apply bounded_ret].
Qed.

Lemma bounded_checkSingle c : bounded (checkSingle c).
Proof.
  unfold checkSingle. destruct (negb _); [apply bounded_throw|apply bounded_ret].
Qed.

Lemma bounded_lineTo_loop n : forall cur ls, bounded (lineTo_loop n cur ls).
Proof.
  induction n as [|n IH]; intros cur ls; cbn [lineTo_loop].
  - apply bounded_ret.
  - apply bounded_bind; [apply bounded_shift|intros c].
    apply bounded_bind; [apply bounded_vertex_at|intros v]. apply IH.
Qed.

Lemma bounded_points_loop n : forall cur g, bounded (points_loop n cur g).
Proof.
  induction n as [|n IH]; intros cur g; cbn [points_loop].
  - apply bounded_ret.
  - apply bounded_bind; [apply bounded_shift|intros c].
    apply bounded_bind; [apply bounded_vertex_at|intros v]. apply IH.
Qed.

Lemma bounded_points : bounded points.
Proof.
  unfold points.
  apply bounded_bind.
  - apply bounded_bind; [apply bounded_command|intros c; apply bounded_checkNonzero].
  - intros moveTo. destruct (_ =? _).
    + apply bounded_bind; [apply bounded_shift|intros c].
      apply bounded_bind; [apply bounded_vertex_at|intros v]. apply bounded_ret.
    + apply bounded_bind; [apply bounded_points_loop|intros g]. apply bounded_ret.
Qed.

Lemma bounded_singleLineString cur closed : bounded (singleLineString cur closed).
Proof.
  unfold singleLineString.
  apply bounded_bind.
  - apply bounded_bind; [apply bounded_command|intros c; apply bounded_checkSingle].
  - intros moveTo.
    apply bounded_bind; [apply bounded_shift|intros c].
    apply bounded_bind; [apply bounded_vertex_at|intros v].
    apply bounded_bind.
    { apply bounded_bind; [apply bounded_command|intros c'; apply bounded_checkNonzero]. }
    intros lineTo.
    apply bounded_bind; [apply bounded_lineTo_loop|intros [ls c']].
    destruct (negb closed); [apply bounded_ret|].
    apply bounded_bind.
    { apply bounded_bind; [apply bounded_command|intros c''; apply bounded_checkNonzero]. }
    intros cp. apply bounded_bind; [apply bounded_vertex_at|intros v']. apply bounded_ret.
Qed.

(** ** One line string, one ring *)

Lemma singleLineString_moveTo_count tr cur closed n rest :
  n <> 1 ->
  singleLineString cur closed
    (mkGeometryReader tr (raw_command Command.moveTo n :: rest))
  = Throw (ExpectedSingle n).
Proof.
  intros Hn. unfold singleLineString.
  unfold bind at 1. unfold bind at 1.
  rewrite command_raw_command by (unfold Command.moveTo; lia).
  unfold checkSingle. cbn [Command.count].
  assert (E : (n =? 1) = false) by lia. rewrite E. reflexivity.
Qed.

Lemma singleLineString_lineTo_zero tr cur closed dx dy rest :
  singleLineString cur closed
    (mkGeometryReader tr
       (raw_command Command.moveTo 1 :: dx :: dy
          :: raw_command Command.lineTo 0 :: rest))
  = Throw (ExpectedNonzero 0).
Proof. reflexivity. Qed.

(** The reader and the line after MoveTo(1) and LineTo(k) with its [k]
    delta pairs have been read. *)
Lemma singleLineString_body tr cur closed d deltas rest :
  deltas <> [] ->
  let start := advance cur d in
  singleLineString cur closed
    (mkGeometryReader tr
       (raw_command Command.moveTo 1 :: fst d :: snd d
          :: raw_command Command.lineTo (Z.of_nat (List.length deltas))
          :: params deltas ++ rest))
  = (if negb closed then ret (vertex_of start :: map vertex_of (track start deltas),
                              last (track start deltas) start)
     else
       closePath <- (c <- command Command.closePath ;; checkNonzero c) ;;
       v <- vertex_at start ;;
       ret ((vertex_of start :: map vertex_of (track start deltas)) ++ [v],
            last (track start deltas) start))
      (mkGeometryReader tr rest).
Proof.
  intros Hne start. unfold singleLineString.
  unfold bind at 1. unfold bind at 1.
  rewrite command_raw_command by (unfold Command.moveTo; lia).
  unfold checkSingle at 1. cbn [Command.count Z.eqb Pos.eqb negb]. unfold ret at 1.
  cbn iota beta.
  unfold bind at 1. destruct d as [dx dy]. cbn [fst snd]. rewrite shift_pair.
  fold start.
  unfold bind at 1. rewrite vertex_at_ok.
  unfold bind at 1. unfold bind at 1.
  rewrite command_raw_command by (unfold Command.lineTo; lia).
  unfold checkNonzero at 1. cbn [Command.count].
  assert (E : (Z.of_nat (List.length deltas) =? 0) = false).
  { destruct deltas; [congruence|simpl; lia]. }
  rewrite E. unfold ret at 1. cbn iota beta.
  unfold bind at 1. cbn [Command.count].
  rewrite Nat2Z.id, lineTo_loop_params. cbn [app].
  reflexivity.
Qed.

Lemma singleLineString_open tr cur d deltas rest :
  deltas <> [] ->
  let start := advance cur d in
  singleLineString cur false
    (mkGeometryReader tr
       (raw_command Command.moveTo 1 :: fst d :: snd d
          :: raw_command Command.lineTo (Z.of_nat (List.length deltas))
          :: params deltas ++ rest))
  = Ok ((vertex_of start :: map vertex_of (track start deltas),
         last (track start deltas) start),
        mkGeometryReader tr rest).
Proof.
  intros Hne start.
  rewrite (singleLineString_body tr cur false d deltas rest Hne). reflexivity.
Qed.

Lemma singleLineString_closed tr cur d deltas c rest :
  deltas <> [] -> c <> 0 ->
  let start := advance cur d in
  singleLineString cur true
    (mkGeometryReader tr
       (raw_command Command.moveTo 1 :: fst d :: snd d
          :: raw_command Command.lineTo (Z.of_nat (List.length deltas))
          :: params deltas ++ raw_command Command.closePath c :: rest))
  = Ok ((vertex_of start :: map vertex_of (track start deltas) ++ [vertex_of start],
         last (track start deltas) start),
        mkGeometryReader tr rest).
Proof.
  intros Hne Hc start.
  rewrite (singleLineString_body tr cur true d deltas _ Hne).
  cbn [negb]. unfold bind at 1. unfold bind at 1.
  rewrite command_raw_command by (unfold Command.closePath; lia).
  unfold checkNonzero. cbn [Command.count].
  assert (E : (c =? 0) = false) by lia. rewrite E. reflexivity.
Qed.

Lemma singleLineString_closePath_zero tr cur d deltas rest :
  deltas <> [] ->
  singleLineString cur true
    (mkGeometryReader tr
       (raw_command Command.moveTo 1 :: fst d :: snd d
          :: raw_command Command.lineTo (Z.of_nat (List.length deltas))
          :: params deltas ++ raw_command Command.closePath 0 :: rest))
  = Throw (ExpectedNonzero 0).
Proof.
  intros Hne.
  rewrite (singleLineString_body tr cur true d deltas _ Hne).
  reflexivity.
Qed.

(** C2. A ring MoveTo(1), LineTo(k) with [k >= 1] delta pairs,
    ClosePath(c) decodes for every nonzero count [c]; only [c = 0] fails,
    with an invalid-count error.  The ring starts at the point the MoveTo
    moved to, has the [k] points of the LineTo after it, and ends with
    the start point once more: its last vertex is its first. *)
Theorem C2_closed_ring tr cur d deltas c rest :
  deltas <> [] ->
  c <> 0 ->
  let k := Z.of_nat (List.length deltas) in
  let stream c :=
    raw_command Command.moveTo 1 :: fst d :: snd d
      :: raw_command Command.lineTo k
      :: params deltas ++ raw_command Command.closePath c :: rest in
  let start := vertex_of (advance cur d) in
  (exists ring cur',
      singleLineString cur true (mkGeometryReader tr (stream c))
      = Ok ((ring, cur'), mkGeometryReader tr rest) /\
      ring = start :: map vertex_of (track (advance cur d) deltas) ++ [start] /\
      hd_error ring = Some start /\
      last ring (0, 0) = start /\
      List.length ring = (List.length deltas + 2)%nat) /\
  (singleLineString cur true (mkGeometryReader tr (stream 0))
   = Throw (ExpectedNonzero 0) /\
   kind (ExpectedNonzero 0) = InvalidCount).
Proof.
  intros Hne Hc k stream start. split.
  - eexists. eexists. split; [apply singleLineString_closed; assumption|].
    split; [reflexivity|]. split; [reflexivity|]. split.
    + rewrite app_comm_cons. apply last_last.
    + cbn [List.length]. rewrite length_app, length_map, track_length.
      cbn [List.length]. lia.
  - split; [apply singleLineString_closePath_zero; assumption|reflexivity].
Qed.

Lemma C2_closed_ring_witness :
  [(4, 0); (0, 4); (4294967292, 0)] <> [] /\
  5 <> 0 /\
  (exists ring cur',
      singleLineString Cursor.init true
        (mkGeometryReader tile_trafo [9; 0; 0; 26; 4; 0; 0; 4; 4294967292; 0; 47])
      = Ok ((ring, cur'), mkGeometryReader tile_trafo []) /\
      ring = [(0, 0); (4, 0); (4, 4); (0, 4); (0, 0)]).
Proof.
  split; [discriminate|]. split; [discriminate|].
  destruct (C2_closed_ring tile_trafo Cursor.init (0, 0)
              [(4, 0); (0, 4); (4294967292, 0)] 5 []
              ltac:(discriminate) ltac:(discriminate))
    as [(ring & cur' & Hrun & Hring & _) _].
  exists ring, cur'. split; [exact Hrun|exact Hring].
Defined.

(** ** Line strings *)

Lemma more_false_end gr : more gr = false -> gr = mkGeometryReader (trafo gr) [].
Proof. destruct gr as [tr [|a s]]; [reflexivity|discriminate]. Qed.

Lemma lineStrings_state_snoc done_ ls :
  lineStrings_state (done_ ++ [ls])
  = match lineStrings_state done_ with
    | (Some s, _) => (None, Some [s; ls])
    | (None, Some m) => (None, Some (m ++ [ls]))
    | (None, None) => (Some ls, None)
    end.
Proof.
  destruct done_ as [|s1 [|s2 t]]; reflexivity.
Qed.

Lemma lineStrings_loop_decodes cur gr lss :
  Decodes false cur gr lss ->
  forall fuel done_,
    (List.length (pos_ gr) < fuel)%nat ->
    lineStrings_loop fuel cur (fst (lineStrings_state done_))
      (snd (lineStrings_state done_)) gr
    = Ok (lineStrings_state (done_ ++ lss), mkGeometryReader (trafo gr) []).
Proof.
  induction 1 as [cur gr Hend|cur gr ls cur' gr' lss Hmore Hone Hrest IH];
    intros fuel done_ Hfuel.
  - destruct fuel as [|fuel]; [lia|]. cbn [lineStrings_loop]. rewrite Hend.
    rewrite app_nil_r, <- surjective_pairing, <- more_false_end by assumption.
    reflexivity.
  - destruct fuel as [|fuel]; [lia|]. cbn [lineStrings_loop]. rewrite Hmore.
    destruct (consumes_singleLineString _ _ _ _ _ Hone) as [Htr Hlen].
    assert (Hfuel' : (List.length (pos_ gr') < fuel)%nat) by lia.
    specialize (IH fuel (done_ ++ [ls]) Hfuel').
    rewrite <- app_assoc in IH. cbn [app] in IH. rewrite Htr in IH.
    rewrite lineStrings_state_snoc in IH.
    destruct (lineStrings_state done_) as [[s|] [m|]] eqn:Est;
      cbn [fst snd] in *; unfold bind; rewrite Hone; cbn iota beta;
      exact IH.
Qed.

Lemma lineStrings_decodes gr lss :
  Decodes false Cursor.init gr lss ->
  lineStrings gr = Ok (spec_lineStrings lss, mkGeometryReader (trafo gr) []).
Proof.
  intros H. unfold lineStrings, bind.
  pose proof (lineStrings_loop_decodes _ _ _ H (S (List.length (pos_ gr))) []
                ltac:(lia)) as Hloop.
  cbn [lineStrings_state fst snd app] in Hloop. rewrite Hloop.
  destruct lss as [|s1 [|s2 t]]; reflexivity.
Qed.

Lemma bounded_lineStrings_loop fuel : forall cur single multi gr,
  (List.length (pos_ gr) < fuel)%nat ->
  lineStrings_loop fuel cur single multi gr <> OutOfFuel.
Proof.
  induction fuel as [|fuel IH]; intros cur single multi gr Hfuel; [lia|].
  cbn [lineStrings_loop]. destruct (more gr); [|discriminate].
  destruct single as [s|]; unfold bind;
    destruct (singleLineString cur false gr) as [[[ls c] gr']|e|] eqn:E;
    try discriminate;
    try (exfalso; exact (bounded_singleLineString _ _ _ E));
    destruct (consumes_singleLineString _ _ _ _ _ E) as [_ Hlen];
    cbn iota beta; try destruct multi; apply IH; lia.
Qed.

Lemma bounded_lineStrings : bounded lineStrings.
Proof.
  intros gr. unfold lineStrings, bind.
  destruct (lineStrings_loop _ _ _ _ gr) as [[[single multi] gr']|e|] eqn:E.
  - destruct single; discriminate.
  - discriminate.
  - exfalso. revert E. apply bounded_lineStrings_loop. lia.
Qed.

(** The error of a line string is the error of the loop, wherever in
    the stream the line string stands. *)
Lemma lineStrings_loop_throws cur gr lss cur' gr' e :
  DecodesUpTo false cur gr lss cur' gr' ->
  more gr' = true ->
  singleLineString cur' false gr' = Throw e ->
  forall fuel single multi,
    (List.length (pos_ gr) < fuel)%nat ->
    lineStrings_loop fuel cur single multi gr = Throw e.
Proof.
  induction 1 as [cur gr|cur gr ls cur1 gr1 lss cur' gr' Hmore Hone Hrest IH];
    intros Hmore' Hthrow fuel single multi Hfuel.
  - destruct fuel as [|fuel]; [lia|]. cbn [lineStrings_loop]. rewrite Hmore'.
    destruct single as [s|]; unfold bind; rewrite Hthrow; reflexivity.
  - destruct fuel as [|fuel]; [lia|]. cbn [lineStrings_loop]. rewrite Hmore.
    destruct (consumes_singleLineString _ _ _ _ _ Hone) as [_ Hlen].
    destruct single as [s|]; unfold bind; rewrite Hone; cbn iota beta;
      try destruct multi; apply IH; assumption || lia.
Qed.

Lemma lineStrings_throws gr lss cur' gr' e :
  DecodesUpTo false Cursor.init gr lss cur' gr' ->
  more gr' = true ->
  singleLineString cur' false gr' = Throw e ->
  lineStrings gr = Throw e /\
  forall isClockwise id,
    generateGeometry isClockwise
      (Tile_Feature.mk id Tile_GeomType_LINESTRING (pos_ gr)) (trafo gr)
    = Throw e.
Proof.
  intros Hup Hmore Hthrow.
  assert (Hls : lineStrings gr = Throw e).
  { unfold lineStrings, bind.
    rewrite (lineStrings_loop_throws _ _ _ _ _ _ Hup Hmore Hthrow) by lia.
    reflexivity. }
  split; [exact Hls|].
  intros isClockwise id. unfold generateGeometry, run, GeometryReader_new.
  cbn [Tile_Feature.type Tile_Feature.geometry].
  replace (mkGeometryReader (trafo gr) (pos_ gr)) with gr
    by (destruct gr; reflexivity).
  now rewrite Hls.
Qed.

(** C4. A LINESTRING feature is decoded line string after line string
    until no integer is left.  Each line string needs a MoveTo of count
    exactly 1 (any other count is an invalid-count error) and a LineTo of
    count [k >= 1] (count 0 is an invalid-count error) and has [k + 1]
    vertices, the first being the point the MoveTo moved to.  More than
    one line string is returned as a MultiLineString in decode order, a
    single one as itself.  An error of a line string, wherever in the
    stream it stands, is the error of the builder and of the geometry of
    the feature: a MoveTo of another count than 1 and a LineTo of count 0
    make [lineStrings] and [generateGeometry] throw their invalid-count
    error, and nothing of what was decoded before is returned. *)
Theorem C4_lineStrings :
  (forall tr cur n rest,
      n <> 1 ->
      singleLineString cur false
        (mkGeometryReader tr (raw_command Command.moveTo n :: rest))
      = Throw (ExpectedSingle n) /\
      kind (ExpectedSingle n) = InvalidCount) /\
  (forall tr cur dx dy rest,
      singleLineString cur false
        (mkGeometryReader tr
           (raw_command Command.moveTo 1 :: dx :: dy
              :: raw_command Command.lineTo 0 :: rest))
      = Throw (ExpectedNonzero 0) /\
      kind (ExpectedNonzero 0) = InvalidCount) /\
  (forall tr cur d deltas rest,
      deltas <> [] ->
      exists ls cur',
        singleLineString cur false
          (mkGeometryReader tr
             (raw_command Command.moveTo 1 :: fst d :: snd d
                :: raw_command Command.lineTo (Z.of_nat (List.length deltas))
                :: params deltas ++ rest))
        = Ok ((ls, cur'), mkGeometryReader tr rest) /\
        List.length ls = (List.length deltas + 1)%nat /\
        hd_error ls = Some (vertex_of (advance cur d)) /\
        ls = vertex_of (advance cur d)
               :: map vertex_of (track (advance cur d) deltas)) /\
  (forall gr lss,
      Decodes false Cursor.init gr lss ->
      lineStrings gr = Ok (spec_lineStrings lss, mkGeometryReader (trafo gr) []) /\
      spec_lineStrings lss
      = match lss with
        | [] => None
        | [ls] => Some (LineString ls)
        | _ :: _ :: _ => Some (MultiLineString lss)
        end /\
      (forall isClockwise id,
          generateGeometry isClockwise
            (Tile_Feature.mk id Tile_GeomType_LINESTRING (pos_ gr)) (trafo gr)
          = Ok (spec_lineStrings lss))) /\
  (forall gr, lineStrings gr <> OutOfFuel) /\
  (forall gr lss cur' gr' e,
      DecodesUpTo false Cursor.init gr lss cur' gr' ->
      more gr' = true ->
      singleLineString cur' false gr' = Throw e ->
      lineStrings gr = Throw e /\
      forall isClockwise id,
        generateGeometry isClockwise
          (Tile_Feature.mk id Tile_GeomType_LINESTRING (pos_ gr)) (trafo gr)
        = Throw e) /\
  (forall gr lss cur' tr' n rest,
      DecodesUpTo false Cursor.init gr lss cur'
        (mkGeometryReader tr' (raw_command Command.moveTo n :: rest)) ->
      n <> 1 ->
      lineStrings gr = Throw (ExpectedSingle n) /\
      (forall isClockwise id,
          generateGeometry isClockwise
            (Tile_Feature.mk id Tile_GeomType_LINESTRING (pos_ gr)) (trafo gr)
          = Throw (ExpectedSingle n)) /\
      kind (ExpectedSingle n) = InvalidCount) /\
  (forall gr lss cur' tr' dx dy rest,
      DecodesUpTo false Cursor.init gr lss cur'
        (mkGeometryReader tr'
           (raw_command Command.moveTo 1 :: dx :: dy
              :: raw_command Command.lineTo 0 :: rest)) ->
      lineStrings gr = Throw (ExpectedNonzero 0) /\
      (forall isClockwise id,
          generateGeometry isClockwise
            (Tile_Feature.mk id Tile_GeomType_LINESTRING (pos_ gr)) (trafo gr)
          = Throw (ExpectedNonzero 0)) /\
      kind (ExpectedNonzero 0) = InvalidCount).
Proof.
  split; [|split; [|split; [|split; [|split; [|split; [|split]]]]]];
    [| | | | |exact lineStrings_throws| |].
  - intros tr cur n rest Hn. split; [|reflexivity].
    now apply singleLineString_moveTo_count.
  - intros. split; reflexivity.
  - intros tr cur d deltas rest Hne.
    eexists. eexists. split; [apply singleLineString_open; assumption|].
    split; [|split; reflexivity].
    cbn [List.length]. rewrite length_map, track_length. lia.
  - intros gr lss H. split; [now apply lineStrings_decodes|]. split.
    + destruct lss as [|s1 [|s2 t]]; reflexivity.
    + intros isClockwise id. unfold generateGeometry, run, GeometryReader_new.
      cbn [Tile_Feature.type Tile_Feature.geometry].
      replace (mkGeometryReader (trafo gr) (pos_ gr)) with gr
        by (destruct gr; reflexivity).
      now rewrite (lineStrings_decodes gr lss H).
  - apply bounded_lineStrings.
  - intros gr lss cur' tr' n rest Hup Hn.
    destruct (lineStrings_throws gr lss cur' _ (ExpectedSingle n) Hup eq_refl
                (singleLineString_moveTo_count tr' cur' false n rest Hn))
      as [Hls Hgen].
    split; [exact Hls|]. split; [exact Hgen|reflexivity].
  - intros gr lss cur' tr' dx dy rest Hup.
    destruct (lineStrings_throws gr lss cur' _ (ExpectedNonzero 0) Hup eq_refl
                (singleLineString_lineTo_zero tr' cur' false dx dy rest))
      as [Hls Hgen].
    split; [exact Hls|]. split; [exact Hgen|reflexivity].
Qed.

Lemma C4_lineStrings_witness :
  let gr := mkGeometryReader tile_trafo
              [9; 1; 2; 18; 3; 4; 5; 6; 9; 1; 1; 10; 1; 1] in
  let lss := [[(1, 2); (4, 6); (9, 12)]; [(10, 13); (11, 14)]] in
  let two_moves := [9; 1; 2; 10; 3; 4; 17; 1; 2; 3; 4] in
  let no_line := [9; 1; 2; 10; 3; 4; 9; 1; 1; 2] in
  2 <> 1 /\ [(3, 4); (5, 6)] <> [] /\ Decodes false Cursor.init gr lss /\
  singleLineString Cursor.init false (mkGeometryReader tile_trafo [17; 1; 2])
  = Throw (ExpectedSingle 2) /\
  (exists ls cur',
      singleLineString Cursor.init false
        (mkGeometryReader tile_trafo [9; 1; 2; 18; 3; 4; 5; 6])
      = Ok ((ls, cur'), mkGeometryReader tile_trafo []) /\
      List.length ls = 3%nat) /\
  lineStrings gr = Ok (Some (MultiLineString lss), mkGeometryReader tile_trafo []) /\
  DecodesUpTo false Cursor.init (mkGeometryReader tile_trafo two_moves)
    [[(1, 2); (4, 6)]] (Cursor.mk 4 6)
    (mkGeometryReader tile_trafo [17; 1; 2; 3; 4]) /\
  lineStrings (mkGeometryReader tile_trafo two_moves) = Throw (ExpectedSingle 2) /\
  generateGeometry clockwise_by_area
    (Tile_Feature.mk (Some 5) Tile_GeomType_LINESTRING two_moves) tile_trafo
  = Throw (ExpectedSingle 2) /\
  DecodesUpTo false Cursor.init (mkGeometryReader tile_trafo no_line)
    [[(1, 2); (4, 6)]] (Cursor.mk 4 6)
    (mkGeometryReader tile_trafo [9; 1; 1; 2]) /\
  generateGeometry clockwise_by_area
    (Tile_Feature.mk (Some 6) Tile_GeomType_LINESTRING no_line) tile_trafo
  = Throw (ExpectedNonzero 0).
Proof.
  intros gr lss two_moves no_line.
  assert (Hdec : Decodes false Cursor.init gr lss).
  { apply (Decodes_next false _ _ _ (Cursor.mk 9 12)
             (mkGeometryReader tile_trafo [9; 1; 1; 10; 1; 1]));
      [reflexivity|reflexivity|].
    apply (Decodes_next false _ _ _ (Cursor.mk 11 14)
             (mkGeometryReader tile_trafo []));
      [reflexivity|reflexivity|].
    apply Decodes_end. reflexivity. }
  assert (Hup2 : DecodesUpTo false Cursor.init (mkGeometryReader tile_trafo two_moves)
                   [[(1, 2); (4, 6)]] (Cursor.mk 4 6)
                   (mkGeometryReader tile_trafo [17; 1; 2; 3; 4])).
  { apply (UpTo_next false _ _ _ (Cursor.mk 4 6)
             (mkGeometryReader tile_trafo [17; 1; 2; 3; 4]));
      [reflexivity|reflexivity|apply UpTo_here]. }
  assert (Hup0 : DecodesUpTo false Cursor.init (mkGeometryReader tile_trafo no_line)
                   [[(1, 2); (4, 6)]] (Cursor.mk 4 6)
                   (mkGeometryReader tile_trafo [9; 1; 1; 2])).
  { apply (UpTo_next false _ _ _ (Cursor.mk 4 6)
             (mkGeometryReader tile_trafo [9; 1; 1; 2]));
      [reflexivity|reflexivity|apply UpTo_here]. }
  destruct C4_lineStrings as (Hmove & _ & Hline & Hall & _ & _ & Hcount & Hzero).
  split; [discriminate|]. split; [discriminate|]. split; [exact Hdec|].
  split; [|split; [|split; [|split; [|split; [|split; [|split]]]]]].
  - exact (proj1 (Hmove tile_trafo Cursor.init 2 [1; 2] ltac:(discriminate))).
  - destruct (Hline tile_trafo Cursor.init (1, 2) [(3, 4); (5, 6)] []
                ltac:(discriminate)) as (ls & cur' & Hrun & Hlen & _).
    exists ls, cur'. split; [exact Hrun|exact Hlen].
  - exact (proj1 (Hall gr lss Hdec)).
  - exact Hup2.
  - exact (proj1 (Hcount _ _ _ tile_trafo 2 [1; 2; 3; 4] Hup2 ltac:(discriminate))).
  - exact (proj1 (proj2 (Hcount _ _ _ tile_trafo 2 [1; 2; 3; 4] Hup2
                           ltac:(discriminate))) clockwise_by_area (Some 5)).
  - exact Hup0.
  - exact (proj1 (proj2 (Hzero _ _ _ tile_trafo 1 1 [] Hup0))
             clockwise_by_area (Some 6)).
Defined.

(** ** Polygons *)

Section PolygonProperties.

Variable isClockwise : OGRLinearRing -> bool.

Lemma polygons_loop_decodes cur gr rings :
  Decodes true cur gr rings ->
  forall fuel single multi,
    (List.length (pos_ gr) < fuel)%nat ->
    polygons_loop isClockwise fuel cur single multi gr
    = Ok ((open_polygon (fold_left (spec_add_ring isClockwise) rings (mkGrouping single multi)),
           multi_polygon (fold_left (spec_add_ring isClockwise) rings (mkGrouping single multi))),
          mkGeometryReader (trafo gr) []).
Proof.
  induction 1 as [cur gr Hend|cur gr ls cur' gr' lss Hmore Hone Hrest IH];
    intros fuel single multi Hfuel.
  - destruct fuel as [|fuel]; [lia|]. cbn [polygons_loop fold_left].
    rewrite Hend. cbn [open_polygon multi_polygon].
    now rewrite <- more_false_end.
  - destruct fuel as [|fuel]; [lia|]. cbn [polygons_loop fold_left].
    rewrite Hmore.
    destruct (consumes_singleLineString _ _ _ _ _ Hone) as [Htr Hlen].
    unfold bind. rewrite Hone. cbn iota beta. rewrite <- Htr.
    remember ((spec_add_ring isClockwise) (mkGrouping single multi) ls) as g1 eqn:Eg1.
    unfold spec_add_ring in Eg1. cbn [open_polygon multi_polygon] in Eg1.
    destruct (isClockwise ls), single as [s|], multi as [m|];
      cbn [open_polygon multi_polygon] in Eg1; subst g1;
      rewrite IH by lia; reflexivity.
Qed.

Lemma polygons_decodes gr rings :
  Decodes true Cursor.init gr rings ->
  polygons isClockwise gr
  = Ok (spec_polygons isClockwise rings, mkGeometryReader (trafo gr) []).
Proof.
  intros H. unfold polygons, bind.
  rewrite (polygons_loop_decodes _ _ _ H) by lia.
  unfold spec_polygons, spec_finish.
  destruct (fold_left (spec_add_ring isClockwise) rings (mkGrouping None None)) as [[s|] [m|]];
    cbn [open_polygon multi_polygon option_map]; unfold ret;
    rewrite ?app_nil_r; reflexivity.
Qed.

Lemma bounded_polygons_loop fuel : forall cur single multi gr,
  (List.length (pos_ gr) < fuel)%nat ->
  polygons_loop isClockwise fuel cur single multi gr <> OutOfFuel.
Proof.
  induction fuel as [|fuel IH]; intros cur single multi gr Hfuel; [lia|].
  cbn [polygons_loop]. destruct (more gr); [|discriminate].
  unfold bind.
  destruct (singleLineString cur true gr) as [[[ls c] gr']|e|] eqn:E;
    [|discriminate|exfalso; exact (bounded_singleLineString _ _ _ E)].
  destruct (consumes_singleLineString _ _ _ _ _ E) as [_ Hlen].
  cbn iota beta.
  destruct (isClockwise ls), single, multi; apply IH; lia.
Qed.

Lemma bounded_polygons : bounded (polygons isClockwise).
Proof.
  intros gr. unfold polygons, bind.
  destruct (polygons_loop _ _ _ _ _ gr) as [[[single multi] gr']|e|] eqn:E.
  - destruct multi, single; discriminate.
  - discriminate.
  - exfalso. revert E. apply bounded_polygons_loop. lia.
Qed.

(** The grouping machine computes the split at the clockwise rings. *)

Lemma geometry_of_polygons_multi m ps :
  m <> [] -> ps <> [] ->
  geometry_of_polygons (m ++ ps) = Some (MultiPolygon (m ++ ps)).
Proof.
  intros Hm Hps. destruct m as [|a [|b m]]; [congruence| |reflexivity].
  destruct ps; [congruence|reflexivity].
Qed.

Lemma attach_nonempty p rs : attach isClockwise p rs <> [].
Proof.
  revert p; induction rs as [|r rs IH]; intros p; cbn [attach]; [discriminate|].
  destruct (isClockwise r); [discriminate|apply IH].
Qed.

Lemma spec_finish_attach rs : forall p mo,
  (mo <> Some []) ->
  spec_finish (fold_left (spec_add_ring isClockwise) rs (mkGrouping (Some p) mo))
  = geometry_of_polygons
      (match mo with Some m => m | None => [] end ++ attach isClockwise p rs).
Proof.
  induction rs as [|r rs IH]; intros p mo Hmo.
  - cbn [fold_left attach]. unfold spec_finish. cbn [open_polygon multi_polygon].
    destruct mo as [m|]; [|reflexivity].
    rewrite geometry_of_polygons_multi; [reflexivity|congruence|discriminate].
  - cbn [fold_left attach]. unfold spec_add_ring at 2.
    cbn [open_polygon multi_polygon].
    destruct (isClockwise r); cbn [open_polygon multi_polygon app].
    + rewrite IH.
      * now rewrite <- app_assoc.
      * intros E. inversion E as [E']. destruct mo as [[|]|]; discriminate E'.
    + now rewrite IH.
Qed.

Lemma spec_polygons_group_rings rings :
  spec_polygons isClockwise rings
  = geometry_of_polygons (group_rings isClockwise rings).
Proof.
  destruct rings as [|r rs]; [reflexivity|].
  unfold spec_polygons. cbn [fold_left group_rings].
 
  replace ((spec_add_ring isClockwise) (mkGrouping None None) r) with (mkGrouping (Some [r]) None).
  - now rewrite spec_finish_attach.
  - unfold spec_add_ring. cbn [open_polygon multi_polygon app].
    destruct (isClockwise r); reflexivity.
Qed.

Lemma concat_attach rs : forall p, concat (attach isClockwise p rs) = p ++ rs.
Proof.
  induction rs as [|r rs IH]; intros p; cbn [attach].
  - reflexivity.
  - destruct (isClockwise r).
    + cbn [concat]. rewrite IH. reflexivity.
    + rewrite IH, <- app_assoc. reflexivity.
Qed.

Lemma concat_group_rings rings : concat (group_rings isClockwise rings) = rings.
Proof. destruct rings as [|r rs]; [reflexivity|]. apply (concat_attach rs [r]). Qed.

(** The polygons of [attach p rs]: the first is [p] with holes appended,
    each later one a clockwise ring with its holes. *)
Lemma attach_shape rs : forall p,
  exists holes later,
    attach isClockwise p rs = (p ++ holes) :: later /\
    Forall (not_clockwise isClockwise) holes /\
    Forall (fun pg => exists r hs,
                pg = r :: hs /\ isClockwise r = true /\ Forall (not_clockwise isClockwise) hs)
           later.
Proof.
  induction rs as [|r rs IH]; intros p; cbn [attach].
  - exists [], []. rewrite app_nil_r. repeat split; constructor.
  - destruct (isClockwise r) eqn:Ecw.
    + destruct (IH [r]) as (holes & later & E & Hh & Hl).
      exists [], (attach isClockwise [r] rs). rewrite app_nil_r.
      split; [reflexivity|]. split; [constructor|].
      rewrite E. constructor; [|exact Hl].
      exists r, holes. repeat split; assumption.
    + destruct (IH (p ++ [r])) as (holes & later & E & Hh & Hl).
      exists (r :: holes), later. rewrite E, <- app_assoc.
      split; [reflexivity|]. split; [|exact Hl].
      constructor; assumption.
Qed.

Lemma group_rings_shape rings :
  Forall (fun pg => Forall (not_clockwise isClockwise) (tl pg)) (group_rings isClockwise rings) /\
  Forall (fun pg => exists r hs, pg = r :: hs /\ isClockwise r = true)
         (tl (group_rings isClockwise rings)).
Proof.
  destruct rings as [|r rs]; [split; constructor|].
  cbn [group_rings].
  destruct (attach_shape rs [r]) as (holes & later & E & Hh & Hl).
  rewrite E. cbn [tl app]. split.
  - constructor; [exact Hh|].
    eapply Forall_impl; [|exact Hl].
    intros pg (r' & hs & -> & _ & Hhs). exact Hhs.
  - eapply Forall_impl; [|exact Hl].
    intros pg (r' & hs & -> & Hcw & _). exists r', hs. split; [reflexivity|assumption].
Qed.

(** C1. For a POLYGON feature whose stream decodes as the closed rings
    [rings], the builder returns what the grouping of the specification
    gives: each ring is appended to the open polygon (one is opened if
    none is); a clockwise ring that finds a polygon open first has that
    polygon pushed into the MultiPolygon, created on first need; at the
    end the MultiPolygon, with the last polygon pushed into it, is
    returned if one was started, the single polygon otherwise.  Hence the
    polygons are the rings in decode order, split in front of every
    clockwise ring but the first: every ring that is not clockwise is a
    hole of the polygon that was open. *)
Theorem C1_polygons gr rings :
  Decodes true Cursor.init gr rings ->
  polygons isClockwise gr
  = Ok (spec_polygons isClockwise rings, mkGeometryReader (trafo gr) []) /\
  (forall id,
      generateGeometry isClockwise
        (Tile_Feature.mk id Tile_GeomType_POLYGON (pos_ gr)) (trafo gr)
      = Ok (spec_polygons isClockwise rings)) /\
  spec_polygons isClockwise rings
  = geometry_of_polygons (group_rings isClockwise rings) /\
  concat (group_rings isClockwise rings) = rings /\
  Forall (fun pg => Forall (fun h => isClockwise h = false) (tl pg))
         (group_rings isClockwise rings) /\
  Forall (fun pg => exists r hs, pg = r :: hs /\ isClockwise r = true)
         (tl (group_rings isClockwise rings)).
Proof.
  intros H.
  split; [now apply polygons_decodes|].
  split.
  { intros id. unfold generateGeometry, run, GeometryReader_new.
    cbn [Tile_Feature.type Tile_Feature.geometry].
    replace (mkGeometryReader (trafo gr) (pos_ gr)) with gr
      by (destruct gr; reflexivity).
    now rewrite (polygons_decodes gr rings H). }
  split; [apply spec_polygons_group_rings|].
  split; [apply concat_group_rings|].
  apply group_rings_shape.
Qed.

End PolygonProperties.

Lemma C1_polygons_witness :
  let outer := [(0, 0); (0, 4); (4, 4); (4, 0); (0, 0)] in
  let hole := [(5, 1); (7, 1); (7, 3); (5, 3); (5, 1)] in
  let second := [(15, 13); (15, 17); (19, 17); (19, 13); (15, 13)] in
  let gr := mkGeometryReader tile_trafo
              [9; 0; 0; 26; 0; 4; 4; 0; 0; 4294967292; 15;
               9; 1; 1; 26; 2; 0; 0; 2; 4294967294; 0; 15;
               9; 10; 10; 26; 0; 4; 4; 0; 0; 4294967292; 15] in
  Decodes true Cursor.init gr [outer; hole; second] /\
  polygons clockwise_by_area gr
  = Ok (Some (MultiPolygon [[outer; hole]; [second]]),
        mkGeometryReader tile_trafo []).
Proof.
  intros outer hole second gr.
  assert (Hdec : Decodes true Cursor.init gr [outer; hole; second]).
  { apply (Decodes_next true _ _ _ (Cursor.mk 4 0)
             (mkGeometryReader tile_trafo
                [9; 1; 1; 26; 2; 0; 0; 2; 4294967294; 0; 15;
                 9; 10; 10; 26; 0; 4; 4; 0; 0; 4294967292; 15]));
      [reflexivity|reflexivity|].
    apply (Decodes_next true _ _ _ (Cursor.mk 5 3)
             (mkGeometryReader tile_trafo
                [9; 10; 10; 26; 0; 4; 4; 0; 0; 4294967292; 15]));
      [reflexivity|reflexivity|].
    apply (Decodes_next true _ _ _ (Cursor.mk 19 13)
             (mkGeometryReader tile_trafo []));
      [reflexivity|reflexivity|].
    apply Decodes_end. reflexivity. }
  split; [exact Hdec|].
  exact (proj1 (C1_polygons clockwise_by_area gr [outer; hole; second] Hdec)).
Defined.

(** ** Layer iteration *)

Section LayerProperties.

Variable isClockwise : OGRLinearRing -> bool.

Lemma run_bounded {A} (m : GR A) gr : bounded m -> run m gr <> OutOfFuel.
Proof.
  intros Hm. unfold run. destruct (m gr) as [[a gr']|e|] eqn:E; try discriminate.
  exfalso; exact (Hm _ E).
Qed.

Lemma generateGeometry_bounded f tr : generateGeometry isClockwise f tr <> OutOfFuel.
Proof.
  unfold generateGeometry. destruct (Tile_Feature.type f).
  - discriminate.
  - apply run_bounded, bounded_points.
  - apply run_bounded, bounded_lineStrings.
  - apply run_bounded, bounded_polygons.
Qed.

Lemma skip_unknown_known f it :
  is_known f = true -> skip_unknown (f :: it) = f :: it.
Proof. unfold is_known. cbn [skip_unknown]. destruct (Tile_Feature.type f); congruence. Qed.

Lemma skip_unknown_unknown f it :
  is_known f = false -> skip_unknown (f :: it) = skip_unknown it.
Proof. unfold is_known. cbn [skip_unknown]. destruct (Tile_Feature.type f); congruence. Qed.

Lemma skip_unknown_idem it : skip_unknown (skip_unknown it) = skip_unknown it.
Proof.
  induction it as [|f it IH]; [reflexivity|].
  destruct (is_known f) eqn:E.
  - now rewrite !skip_unknown_known.
  - now rewrite skip_unknown_unknown.
Qed.

(** A call only looks at the layer from the first feature of known type on. *)
Lemma GetNextFeature_skip l :
  GetNextFeature isClockwise l
  = GetNextFeature isClockwise (positioned l (skip_unknown (ifeatures_ l))).
Proof.
  unfold GetNextFeature, positioned. cbn [ifeatures_ srs_ layer_ trafo_].
  now rewrite skip_unknown_idem.
Qed.

Lemma GetNextFeature_throw l f next e :
  skip_unknown (ifeatures_ l) = f :: next ->
  generateGeometry isClockwise f (trafo_ l) = Throw e ->
  GetNextFeature isClockwise l = Returns None (Some e) (positioned l (f :: next)).
Proof.
  intros Hskip Hthrow. unfold GetNextFeature. rewrite Hskip, Hthrow. reflexivity.
Qed.

Lemma GetNextFeature_end l :
  skip_unknown (ifeatures_ l) = [] ->
  GetNextFeature isClockwise l = Returns None None (positioned l []).
Proof. intros Hskip. unfold GetNextFeature. rewrite Hskip. reflexivity. Qed.

Lemma GetNextFeature_ok l f next g :
  skip_unknown (ifeatures_ l) = f :: next ->
  generateGeometry isClockwise f (trafo_ l) = Ok g ->
  (srs_ l = None \/ g <> None) ->
  GetNextFeature isClockwise l
  = Returns (Some (feature_with l f g)) None (positioned l next).
Proof.
  intros Hskip Hok Hsrs. unfold GetNextFeature. rewrite Hskip, Hok.
  unfold feature_with, positioned.
  destruct (srs_ l) as [s|] eqn:Es, g as [g|]; try reflexivity.
  destruct Hsrs as [H|H]; [discriminate H|now elim H].
Qed.

Lemma GetNextFeature_null_geometry l f next s :
  skip_unknown (ifeatures_ l) = f :: next ->
  generateGeometry isClockwise f (trafo_ l) = Ok None ->
  srs_ l = Some s ->
  GetNextFeature isClockwise l = NullDereference.
Proof.
  intros Hskip Hok Hsrs. unfold GetNextFeature. rewrite Hskip, Hok, Hsrs.
  reflexivity.
Qed.

(** C6, amended. When the geometry of the feature the layer is positioned
    on cannot be built, the exception is caught in the call: it is
    reported through [CPLError], and the call returns no feature; no
    exception leaves the call.  The feature is not skipped: the layer
    stays positioned on it, so the call that follows reports the same
    failure and returns no feature again, and reading on from there
    yields nothing. *)
Theorem C6_failure_returns_no_feature l f next e :
  skip_unknown (ifeatures_ l) = f :: next ->
  generateGeometry isClockwise f (trafo_ l) = Throw e ->
  let l' := positioned l (f :: next) in
  GetNextFeature isClockwise l = Returns None (Some e) l' /\
  GetNextFeature isClockwise l' = Returns None (Some e) l' /\
  (forall calls, readFeatures isClockwise (S calls) l = Some ([], l')).
Proof.
  intros Hskip Hthrow l'.
  assert (H1 : GetNextFeature isClockwise l = Returns None (Some e) l')
    by (now apply GetNextFeature_throw).
  split; [exact H1|]. split.
  - assert (Hskip' : skip_unknown (ifeatures_ l') = f :: next).
    { cbn [l' positioned ifeatures_]. rewrite <- Hskip. apply skip_unknown_idem. }
    exact (GetNextFeature_throw l' f next e Hskip' Hthrow).
  - intros calls. cbn [readFeatures]. now rewrite H1.
Qed.

(** Reading a run of features that all materialize. *)
Lemma readFeatures_all l it : forall calls,
  (List.length it < calls)%nat ->
  Forall (fun f => is_known f = true -> materializes isClockwise l f) it ->
  readFeatures isClockwise calls (positioned l it)
  = Some (known_features isClockwise l it, positioned l []).
Proof.
  induction it as [|f it IH]; intros calls Hcalls Hall.
  - destruct calls as [|calls]; [simpl in Hcalls; lia|]. reflexivity.
  - destruct calls as [|calls]; [simpl in Hcalls; lia|].
    inversion Hall as [|? ? Hf Hit]; subst.
    cbn [List.length] in Hcalls.
    destruct (is_known f) eqn:Ek.
    + destruct (Hf eq_refl) as (g & Hg & Hsrs).
      cbn [readFeatures].
      rewrite (GetNextFeature_ok (positioned l (f :: it)) f it g);
        [|now apply skip_unknown_known|exact Hg|exact Hsrs].
      change (positioned (positioned l (f :: it)) it) with (positioned l it).
      rewrite IH by (assumption || lia).
      unfold known_features. cbn [filter]. rewrite Ek. cbn [map].
      assert (Eg : geometry_of isClockwise l f = g)
        by (unfold geometry_of; now rewrite Hg).
      rewrite Eg. reflexivity.
    + assert (Hsame : readFeatures isClockwise (S calls) (positioned l (f :: it))
                      = readFeatures isClockwise (S calls) (positioned l it)).
      { cbn [readFeatures].
        rewrite (GetNextFeature_skip (positioned l (f :: it))).
        rewrite (GetNextFeature_skip (positioned l it)).
        cbn [positioned ifeatures_ srs_ layer_ trafo_].
        now rewrite skip_unknown_unknown. }
      rewrite Hsame, IH by (assumption || lia).
      unfold known_features. cbn [filter]. now rewrite Ek.
Qed.

(** C7, amended. In a layer whose features of known type all materialize,
    reading from the start returns exactly the features whose type is not
    Unknown, in declaration order, and then [nullptr]; after a reset the
    same sequence is read again; the feature count is the number of all
    declared features, those of unknown type included. *)
Theorem C7_iteration l :
  Forall (fun f => is_known f = true -> materializes isClockwise l f)
         (Tile_Layer.features (layer_ l)) ->
  let fs := Tile_Layer.features (layer_ l) in
  let calls := S (List.length fs) in
  let l_end := positioned l [] in
  readFeatures isClockwise calls (ResetReading l)
  = Some (known_features isClockwise l fs, l_end) /\
  map GeomType (known_features isClockwise l fs)
  = map (fun f => type (Tile_Feature.type f)) (filter is_known fs) /\
  map FID (known_features isClockwise l fs)
  = map (fun f => option_map GIntBig_of_uint64 (Tile_Feature.id f))
        (filter is_known fs) /\
  GetNextFeature isClockwise l_end = Returns None None l_end /\
  readFeatures isClockwise calls (ResetReading l_end)
  = Some (known_features isClockwise l fs, l_end) /\
  GetFeatureCount l = Z.of_nat (List.length fs) /\
  GetFeatureCount l_end = Z.of_nat (List.length fs).
Proof.
  intros Hall fs calls l_end.
  assert (Hread : readFeatures isClockwise calls (positioned l fs)
                  = Some (known_features isClockwise l fs, l_end))
    by (apply readFeatures_all; [unfold calls; lia|exact Hall]).
  split; [exact Hread|].
  split; [unfold known_features; rewrite map_map; reflexivity|].
  split; [unfold known_features; rewrite map_map; reflexivity|].
  split; [reflexivity|].
  split; [exact Hread|].
  split; reflexivity.
Qed.

End LayerProperties.

(** ** The layer on examples *)

Lemma C6_failure_returns_no_feature_witness :
  let l := Layer_new dzero (plain_dataset [broken_then_point]) broken_then_point in
  let f := Tile_Feature.mk (Some 1) Tile_GeomType_POINT [] in
  let next := [Tile_Feature.mk (Some 2) Tile_GeomType_POINT [9; 3; 5]] in
  skip_unknown (ifeatures_ l) = f :: next /\
  generateGeometry clockwise_by_area f (trafo_ l) = Throw CommandPastEnd /\
  GetNextFeature clockwise_by_area l
  = Returns None (Some CommandPastEnd) (positioned l (f :: next)) /\
  GetNextFeature clockwise_by_area (positioned l (f :: next))
  = Returns None (Some CommandPastEnd) (positioned l (f :: next)).
Proof.
  intros l f next.
  split; [reflexivity|]. split; [reflexivity|].
  destruct (C6_failure_returns_no_feature clockwise_by_area l f next CommandPastEnd
              eq_refl eq_refl) as (H1 & H2 & _).
  split; [exact H1|exact H2].
Defined.

(** C6 as worded fails: after the failure on the first feature of
    [broken_then_point] the following call does not go on with the second
    feature, it fails on the first one again. *)
Lemma C6_counterexample : ~ failure_skips_feature clockwise_by_area.
Proof.
  intros Hskip.
  pose (l := Layer_new dzero (plain_dataset [broken_then_point]) broken_then_point).
  destruct (Hskip l (Tile_Feature.mk (Some 1) Tile_GeomType_POINT [])
              [Tile_Feature.mk (Some 2) Tile_GeomType_POINT [9; 3; 5]]
              CommandPastEnd eq_refl eq_refl) as (l' & Hcall & Hnext).
  vm_compute in Hcall. inversion Hcall; subst l'.
  vm_compute in Hnext. discriminate Hnext.
Qed.

Lemma C7_iteration_witness :
  let l := Layer_new dzero (plain_dataset [unknown_point_unknown_point])
             unknown_point_unknown_point in
  Forall (fun f => is_known f = true -> materializes clockwise_by_area l f)
         (Tile_Layer.features (layer_ l)) /\
  readFeatures clockwise_by_area 5 (ResetReading l)
  = Some ([mkOGRFeature wkbPoint (Some 7) (Some (Point 3 5)) None;
           mkOGRFeature wkbPoint (Some 8)
             (Some (GeometryCollection [Point 1 2; Point 4 6])) None],
          positioned l []) /\
  GetFeatureCount l = 4.
Proof.
  intros l.
  assert (Hall : Forall (fun f => is_known f = true ->
                                  materializes clockwise_by_area l f)
                        (Tile_Layer.features (layer_ l))).
  { repeat constructor; intros Hk; try discriminate Hk;
      eexists; (split; [reflexivity|left; reflexivity]). }
  split; [exact Hall|].
  destruct (C7_iteration clockwise_by_area l Hall) as (Hread & _ & _ & _ & _ & Hcount & _).
  split; [exact Hread|exact Hcount].
Defined.

(** C7 as worded fails for the layer [broken_then_point]: both features
    have a known type, and reading from the start returns none. *)
Lemma C7_counterexample : ~ iteration_yields_all_known clockwise_by_area.
Proof.
  intros Hall.
  destruct (Hall (Layer_new dzero (plain_dataset [broken_then_point])
                    broken_then_point)) as (fs & l' & Hread & Hlen).
  vm_compute in Hread. inversion Hread; subst fs.
  vm_compute in Hlen. discriminate Hlen.
Qed.

(** ** Empty geometry streams *)

Lemma empty_stream_builders isClockwise tr :
  run lineStrings (GeometryReader_new tr []) = Ok None /\
  run (polygons isClockwise) (GeometryReader_new tr []) = Ok None /\
  run points (GeometryReader_new tr []) = Throw CommandPastEnd /\
  kind CommandPastEnd = StreamUnderrun.
Proof. repeat split. Qed.

Lemma empty_stream_feature isClockwise l f next :
  skip_unknown (ifeatures_ l) = f :: next ->
  Tile_Feature.type f = Tile_GeomType_LINESTRING
  \/ Tile_Feature.type f = Tile_GeomType_POLYGON ->
  Tile_Feature.geometry f = [] ->
  (srs_ l = None ->
   GetNextFeature isClockwise l
   = Returns (Some (feature_with l f None)) None (positioned l next)) /\
  (forall s, srs_ l = Some s -> GetNextFeature isClockwise l = NullDereference).
Proof.
  intros Hskip Hty Hgeo.
  assert (Hg : generateGeometry isClockwise f (trafo_ l) = Ok None).
  { unfold generateGeometry. rewrite Hgeo. destruct Hty as [-> | ->]; reflexivity. }
  split.
  - intros Hsrs. apply GetNextFeature_ok; [assumption|assumption|now left].
  - intros s Hsrs. eapply GetNextFeature_null_geometry; eassumption.
Qed.

(** C10. The builders of LINESTRING and POLYGON features return no
    geometry and raise no error on an empty stream; only the POINT
    builder fails on it, with a stream underrun.  In a dataset opened
    without a spatial reference the feature is returned with no geometry.
    In a dataset opened with one, [GetNextFeature] assigns the spatial
    reference through the null geometry pointer: the feature is not
    returned. *)
Theorem C10_empty_stream :
  let f := Tile_Feature.mk (Some 4) Tile_GeomType_LINESTRING [] in
  let plain := Layer_new dzero (plain_dataset [empty_line]) empty_line in
  let with_srs := Layer_new dzero (srs_dataset [empty_line]) empty_line in
  (forall isClockwise tr,
      run lineStrings (GeometryReader_new tr []) = Ok None /\
      run (polygons isClockwise) (GeometryReader_new tr []) = Ok None /\
      run points (GeometryReader_new tr []) = Throw CommandPastEnd /\
      kind CommandPastEnd = StreamUnderrun) /\
  GetNextFeature clockwise_by_area plain
  = Returns (Some (mkOGRFeature wkbLineString (Some 4) None None)) None
            (positioned plain []) /\
  generateGeometry clockwise_by_area f (trafo_ with_srs) = Ok None /\
  GetNextFeature clockwise_by_area with_srs = NullDereference.
Proof.
  intros f plain with_srs.
  split; [apply empty_stream_builders|].
  repeat split.
Qed.

(** ** The blender *)

Section BlenderProperties.

Variable math_empty : double * double -> bool.
Variable math_area : double * double -> double.
Variable Sample : Type.
Variable convertTo : CvType -> double -> Sample.
Variable overlap_ : double * double.

(** The accumulators after the loop, pixel by pixel. *)
Lemma accumulate_pixels block bands : forall acc wacc,
  Forall (reads math_empty math_area overlap_ block) bands ->
  exists acc' wacc',
    accumulate math_empty math_area overlap_ block bands acc wacc
    = inr (acc', wacc') /\
    forall j i,
      acc' j i
      = sum_weighted_samples math_empty math_area overlap_ block bands j i (acc j i) /\
      wacc' j i
      = sum_weights math_empty math_area overlap_ block bands j i (wacc j i).
Proof.
  induction bands as [|b bands IH]; intros acc wacc Hreads.
  - exists acc, wacc. split; [reflexivity|]. intros j i. split; reflexivity.
  - inversion Hreads as [|? ? Hb Hrest]; subst.
    cbn [accumulate].
    unfold sum_weighted_samples, sum_weights. cbn [fold_left].
    unfold covers at 2 4, sample at 2, weight at 2 4.
    unfold reads in Hb.
    destruct (contribution math_empty math_area overlap_ block b)
      as [|err|view image weights].
    + apply IH, Hrest.
    + contradiction.
    + destruct (IH (cv.add_on_view acc view (cv.multiply image weights))
                   (cv.add_on_view wacc view weights) Hrest)
        as (acc' & wacc' & Hacc & Hpix).
      exists acc', wacc'. split; [exact Hacc|].
      intros j i. destruct (Hpix j i) as [Ha Hw].
      rewrite Ha, Hw. unfold cv.add_on_view, cv.multiply.
      destruct (cv.in_view view j i); split; reflexivity.
Qed.

Lemma sum_weighted_samples_uncovered block bands j i : forall s0,
  (forall b, In b bands -> covers math_empty math_area overlap_ block b j i = false) ->
  sum_weighted_samples math_empty math_area overlap_ block bands j i s0 = s0.
Proof.
  unfold sum_weighted_samples.
  induction bands as [|b bands IH]; intros s0 Hun; [reflexivity|].
  cbn [fold_left]. rewrite (Hun b) by (left; reflexivity).
  apply IH. intros b' Hb'. apply Hun. right; exact Hb'.
Qed.

Lemma sum_weights_uncovered block bands j i : forall s0,
  (forall b, In b bands -> covers math_empty math_area overlap_ block b j i = false) ->
  sum_weights math_empty math_area overlap_ block bands j i s0 = s0.
Proof.
  unfold sum_weights.
  induction bands as [|b bands IH]; intros s0 Hun; [reflexivity|].
  cbn [fold_left]. rewrite (Hun b) by (left; reflexivity).
  apply IH. intros b' Hb'. apply Hun. right; exact Hb'.
Qed.

Lemma blended_uncovered block bands j i :
  (forall b, In b bands -> covers math_empty math_area overlap_ block b j i = false) ->
  blended math_empty math_area overlap_ block bands j i = dzero.
Proof.
  intros Hun. unfold blended.
  rewrite sum_weighted_samples_uncovered, sum_weights_uncovered by assumption.
  reflexivity.
Qed.

(** C9. When the sources are read without an error code, every pixel of
    the block that [IReadBlock] writes is, converted to the data type of
    the first source, the sum of weight times sample over the sources that
    cover the pixel, divided by the sum of their weights, a sum of weights
    equal to zero being replaced by 1.  A pixel that no source covers is
    0 divided by 1: the converted zero, neither a division by zero nor a
    NaN. *)
Theorem C9_blend front rest ty nBlockXOff nBlockYOff :
  let bands_ := front :: rest in
  let block := block_rect nBlockXOff nBlockYOff in
  gdal2cv (GetRasterDataType (band front)) = Some ty ->
  Forall (reads math_empty math_area overlap_ block) bands_ ->
  exists out,
    IReadBlock math_empty math_area Sample convertTo overlap_
      bands_ nBlockXOff nBlockYOff = BlockRead Sample out /\
    (forall j i,
        let sum_ws :=
          sum_weighted_samples math_empty math_area overlap_ block bands_ j i dzero in
        let sum_w :=
          sum_weights math_empty math_area overlap_ block bands_ j i dzero in
        out j i
        = convertTo ty (ddiv sum_ws (if deqb sum_w dzero then done else sum_w))) /\
    (forall j i,
        (forall b, In b bands_ ->
                   covers math_empty math_area overlap_ block b j i = false) ->
        out j i = convertTo ty dzero /\
        ddiv dzero done = dzero).
Proof.
  intros bands_ block Hty Hreads.
  destruct (accumulate_pixels block bands_ (fun _ _ => dzero) (fun _ _ => dzero)
              Hreads) as (acc' & wacc' & Hacc & Hpix).
  unfold IReadBlock. fold block. fold bands_.
  rewrite Hacc. unfold bands_ at 1. rewrite Hty.
  eexists. split; [reflexivity|].
  assert (Hout : forall j i,
             cv.divide acc' (cv.setTo_where_eq wacc' done dzero) j i
             = blended math_empty math_area overlap_ block bands_ j i).
  { intros j i. unfold cv.divide, cv.setTo_where_eq, blended, clamp_weight.
    destruct (Hpix j i) as [-> ->]. reflexivity. }
  split.
  - intros j i. cbv beta zeta. rewrite Hout. reflexivity.
  - intros j i Hun. cbv beta. rewrite Hout, blended_uncovered by assumption.
    split; reflexivity.
Qed.

End BlenderProperties.

Lemma C9_blend_witness :
  let front := placed 100 0 0 4 4 in
  let rest := [placed 200 2 0 4 4] in
  gdal2cv (GetRasterDataType (band front)) = Some CV_64FC1 /\
  Forall (reads size_empty size_area (dzero, dzero) (block_rect 0 0)) (front :: rest) /\
  exists out,
    IReadBlock size_empty size_area double (fun _ d => d) (dzero, dzero)
      (front :: rest) 0 0 = BlockRead double out /\
    out 0 0 = double_of_Z 100 /\
    out 1 3 = double_of_Z 162 /\
    out 1 5 = double_of_Z 213 /\
    out 7 7 = dzero.
Proof.
  intros front rest.
  assert (Hreads : Forall (reads size_empty size_area (dzero, dzero) (block_rect 0 0))
                          (front :: rest)).
  { repeat constructor. }
  split; [reflexivity|]. split; [exact Hreads|].
  destruct (C9_blend size_empty size_area double (fun _ d => d) (dzero, dzero)
              front rest CV_64FC1 0 0 eq_refl Hreads) as (out & Hrun & Hval & _).
  exists out. split; [exact Hrun|].
  rewrite !Hval. repeat split; vm_compute; reflexivity.
Defined.

(** ** Coordinate transform *)

Lemma blind_ret {A} (a : A) : transform_blind (ret a).
Proof. intros gr gr' H. split; [reflexivity|exact H]. Qed.

Lemma blind_throw {A} e : transform_blind (@throw A e).
Proof. intros gr gr' H. reflexivity. Qed.

Lemma blind_bind {A B} (m : GR A) (k : A -> GR B) :
  transform_blind m -> (forall a, transform_blind (k a)) ->
  transform_blind (bind m k).
Proof.
  intros Hm Hk gr gr' H. unfold bind. specialize (Hm gr gr' H).
  destruct (m gr) as [[a g]|e|], (m gr') as [[a' g']|e'|];
    cbn [same_result] in Hm; try contradiction; try exact Hm.
  destruct Hm as [-> Hpos]. apply Hk, Hpos.
Qed.

Lemma blind_command ty : transform_blind (command ty).
Proof.
  intros gr gr' H. unfold command. rewrite <- H.
  destruct (pos_ gr) as [|raw rest]; [reflexivity|].
  destruct (negb _); [reflexivity|]. split; reflexivity.
Qed.

Lemma blind_shift cur : transform_blind (shift cur).
Proof.
  intros gr gr' H. unfold shift. rewrite <- H.
  destruct (pos_ gr) as [|dx [|dy rest]]; try reflexivity. split; reflexivity.
Qed.

(** Here the transform is applied, and returns its argument. *)
Lemma blind_vertex_at cur : transform_blind (vertex_at cur).
Proof. intros gr gr' H. split; [reflexivity|exact H]. Qed.

Lemma blind_checkNonzero c : transform_blind (checkNonzero c).
Proof.
  unfold checkNonzero. destruct (_ =? _); [apply blind_throw|apply blind_ret].
Qed.

Lemma blind_checkSingle c : transform_blind (checkSingle c).
Proof.
  unfold checkSingle. destruct (negb _); [apply blind_throw|apply blind_ret].
Qed.

Lemma blind_points_loop n : forall cur g, transform_blind (points_loop n cur g).
Proof.
  induction n as [|n IH]; intros cur g; cbn [points_loop].
  - apply blind_ret.
  - apply blind_bind; [apply blind_shift|intros c].
    apply blind_bind; [apply blind_vertex_at|intros v]. apply IH.
Qed.

Lemma blind_lineTo_loop n : forall cur ls, transform_blind (lineTo_loop n cur ls).
Proof.
  induction n as [|n IH]; intros cur ls; cbn [lineTo_loop].
  - apply blind_ret.
  - apply blind_bind; [apply blind_shift|intros c].
    apply blind_bind; [apply blind_vertex_at|intros v]. apply IH.
Qed.

Lemma blind_points : transform_blind points.
Proof.
  unfold points.
  apply blind_bind.
  - apply blind_bind; [apply blind_command|intros c; apply blind_checkNonzero].
  - intros moveTo. destruct (_ =? _).
    + apply blind_bind; [apply blind_shift|intros c].
      apply blind_bind; [apply blind_vertex_at|intros v]. apply blind_ret.
    + apply blind_bind; [apply blind_points_loop|intros g]. apply blind_ret.
Qed.

Lemma blind_singleLineString cur closed :
  transform_blind (singleLineString cur closed).
Proof.
  unfold singleLineString.
  apply blind_bind.
  - apply blind_bind; [apply blind_command|intros c; apply blind_checkSingle].
  - intros moveTo.
    apply blind_bind; [apply blind_shift|intros c].
    apply blind_bind; [apply blind_vertex_at|intros v].
    apply blind_bind.
    { apply blind_bind; [apply blind_command|intros c'; apply blind_checkNonzero]. }
    intros lineTo.
    apply blind_bind; [apply blind_lineTo_loop|intros [ls c']].
    destruct (negb closed); [apply blind_ret|].
    apply blind_bind.
    { apply blind_bind; [apply blind_command|intros c''; apply blind_checkNonzero]. }
    intros cp. apply blind_bind; [apply blind_vertex_at|intros v']. apply blind_ret.
Qed.

Lemma more_same gr gr' : pos_ gr = pos_ gr' -> more gr = more gr'.
Proof. intros H. unfold more. now rewrite H. Qed.

Lemma blind_lineStrings_loop fuel : forall cur single multi,
  transform_blind (lineStrings_loop fuel cur single multi).
Proof.
  induction fuel as [|fuel IH]; intros cur single multi gr gr' H;
    cbn [lineStrings_loop]; [exact I|].
  rewrite <- (more_same gr gr' H).
  destruct (more gr); [|split; [reflexivity|exact H]].
  destruct single as [s|];
    (apply blind_bind; [apply blind_singleLineString|intros [ls c]|exact H]);
    try destruct multi; apply IH.
Qed.

Lemma blind_lineStrings : transform_blind lineStrings.
Proof.
  intros gr gr' H. unfold lineStrings. rewrite <- H.
  apply blind_bind; [apply blind_lineStrings_loop| |exact H].
  intros [single multi]. destruct single; apply blind_ret.
Qed.

Section TransformBlind.

Variable isClockwise : OGRLinearRing -> bool.

Lemma blind_polygons_loop fuel : forall cur single multi,
  transform_blind (polygons_loop isClockwise fuel cur single multi).
Proof.
  induction fuel as [|fuel IH]; intros cur single multi gr gr' H;
    cbn [polygons_loop]; [exact I|].
  rewrite <- (more_same gr gr' H).
  destruct (more gr); [|split; [reflexivity|exact H]].
  apply blind_bind; [apply blind_singleLineString|intros [ls c]|exact H].
  destruct (isClockwise ls), single, multi; apply IH.
Qed.

Lemma blind_polygons : transform_blind (polygons isClockwise).
Proof.
  intros gr gr' H. unfold polygons. rewrite <- H.
  apply blind_bind; [apply blind_polygons_loop| |exact H].
  intros [single multi]. destruct multi, single; apply blind_ret.
Qed.

Lemma run_blind {A} (m : GR A) tr tr' source :
  transform_blind m ->
  run m (GeometryReader_new tr source) = run m (GeometryReader_new tr' source).
Proof.
  intros Hm. unfold run.
  specialize (Hm (GeometryReader_new tr source) (GeometryReader_new tr' source)
                 eq_refl).
  destruct (m (GeometryReader_new tr source)) as [[a g]|e|],
           (m (GeometryReader_new tr' source)) as [[a' g']|e'|];
    cbn [same_result] in Hm; try contradiction; try reflexivity.
  - destruct Hm as [-> _]. reflexivity.
  - now rewrite Hm.
Qed.

Lemma generateGeometry_any_trafo f tr tr' :
  generateGeometry isClockwise f tr = generateGeometry isClockwise f tr'.
Proof.
  unfold generateGeometry.
  destruct (Tile_Feature.type f);
    [reflexivity
    |apply run_blind, blind_points
    |apply run_blind, blind_lineStrings
    |apply run_blind, blind_polygons].
Qed.

(** C8. Whatever the configuration of the transform, built with or without
    target extents, applying it returns the grid coordinate unchanged; the
    shift and scale that the constructor computes and stores do not enter.
    So the geometry built for a feature is the same for every
    configuration. *)
Theorem C8_trafo_identity :
  (forall (tr : Trafo.t) (v : Z), Trafo.x tr v = v /\ Trafo.y tr v = v) /\
  (forall shift0 extent extents v,
      Trafo.x (Trafo.new shift0 extent extents) v = v /\
      Trafo.y (Trafo.new shift0 extent extents) v = v) /\
  (forall shift0 extent e,
      Trafo.shift_ (Trafo.new shift0 extent (Some e)) = Trafo.ul e /\
      Trafo.scale_ (Trafo.new shift0 extent (Some e))
      = (ddiv (fst (Trafo.size e)) extent,
         ddiv (snd (Trafo.size e)) (dopp extent))) /\
  (forall f tr tr',
      generateGeometry isClockwise f tr = generateGeometry isClockwise f tr').
Proof.
  split; [|split; [|split]]; try (repeat split; fail).
  apply generateGeometry_any_trafo.
Qed.

End TransformBlind.

(** The affine application that the source disables would not be the
    identity: with the target extents (0,0)-(8192,8192) and a layer of
    extent 4096 it maps the grid coordinate 1024 to 2048 in [x]. *)
Example disabled_affine_is_not_identity :
  let e := Trafo.mkExtents2 (dzero, dzero) (double_of_Z 8192, double_of_Z 8192) in
  let tr := Trafo.new dzero (double_of_Z 4096) (Some e) in
  Trafo.x_disabled tr 1024 = double_of_Z 2048 /\
  Trafo.y_disabled tr 1024 = double_of_Z 6144 /\
  Trafo.x tr 1024 = 1024 /\ Trafo.y tr 1024 = 1024.
Proof. vm_compute. repeat split. Qed.

(** ** The weights on examples *)

(** Without overlap a pixel whose centre is outside the valid area has
    weight 0, a pixel inside keeps weight 1. *)
Example hard_weight_outside_valid :
  weight size_empty size_area (dzero, dzero) (block_rect 0 0)
    (valid_from (double_of_Z 1)) 2 0 = dzero /\
  weight size_empty size_area (dzero, dzero) (block_rect 0 0)
    (valid_from (double_of_Z 1)) 2 1 = done.
Proof. vm_compute. split; reflexivity. Qed.

(** With an overlap of one pixel, a pixel whose kernel lies half in the
    valid area has weight one half. *)
Example soft_weight_half :
  weight size_empty size_area (done, done) (block_rect 0 0)
    (valid_from dhalf) 2 0 = dhalf /\
  weight size_empty size_area (done, done) (block_rect 0 0)
    (valid_from dhalf) 2 1 = done.
Proof. vm_compute. split; reflexivity. Qed.

(** A single source without overlap is reproduced where it is valid and
    gives 0 where it is not. *)
Example single_source_reproduced :
  exists out,
    IReadBlock size_empty size_area double (fun _ d => d) (dzero, dzero)
      [valid_from (double_of_Z 1)] 0 0 = BlockRead double out /\
    out 2 1 = double_of_Z 121 /\
    out 2 0 = dzero /\
    out 200 200 = dzero.
Proof. eexists. split; [reflexivity|]. vm_compute. repeat split. Qed.

(** * Further properties of the decoder *)

(** ** The streams a builder step accepts *)

Lemma command_inv ty gr c gr' :
  command ty gr = Ok (c, gr') ->
  exists raw,
    pos_ gr = raw :: pos_ gr' /\ trafo gr' = trafo gr /\
    c = Command.of_raw raw /\ Command.type (Command.of_raw raw) = ty.
Proof.
  unfold command. destruct (pos_ gr) as [|raw rest]; [discriminate|].
  destruct (Command.type (Command.of_raw raw) =? ty) eqn:E; cbn [negb];
    [|discriminate].
  intros H; inversion H; subst. exists raw. cbn [pos_ trafo].
  repeat split. now apply Z.eqb_eq.
Qed.

Lemma command_intro ty tr raw rest :
  Command.type (Command.of_raw raw) = ty ->
  command ty (mkGeometryReader tr (raw :: rest))
  = Ok (Command.of_raw raw, mkGeometryReader tr rest).
Proof.
  intros H. unfold command. cbn [pos_ trafo].
  rewrite H, Z.eqb_refl. reflexivity.
Qed.

Lemma shift_inv cur gr c gr' :
  shift cur gr = Ok (c, gr') ->
  exists dx dy,
    pos_ gr = dx :: dy :: pos_ gr' /\ trafo gr' = trafo gr /\
    c = advance cur (dx, dy).
Proof.
  unfold shift. destruct (pos_ gr) as [|dx [|dy rest]]; try discriminate.
  intros H; inversion H; subst. exists dx, dy. repeat split.
Qed.

Lemma checkNonzero_inv c gr c' gr' :
  checkNonzero c gr = Ok (c', gr') -> c' = c /\ gr' = gr /\ Command.count c <> 0.
Proof.
  unfold checkNonzero. destruct (Command.count c =? 0) eqn:E; [discriminate|].
  intros H; inversion H; subst. repeat split. lia.
Qed.

Lemma checkSingle_inv c gr c' gr' :
  checkSingle c gr = Ok (c', gr') -> c' = c /\ gr' = gr /\ Command.count c = 1.
Proof.
  unfold checkSingle. destruct (Command.count c =? 1) eqn:E; cbn [negb];
    [|discriminate].
  intros H; inversion H; subst. repeat split. lia.
Qed.

Lemma bind_inv {A B} (m : GR A) (k : A -> GR B) gr b gr2 :
  bind m k gr = Ok (b, gr2) ->
  exists a gr1, m gr = Ok (a, gr1) /\ k a gr1 = Ok (b, gr2).
Proof.
  unfold bind. destruct (m gr) as [[a gr1]|e|]; try discriminate.
  intros H. exists a, gr1. split; [reflexivity|exact H].
Qed.

Lemma lineTo_loop_inv n : forall cur ls gr r gr',
  lineTo_loop n cur ls gr = Ok (r, gr') ->
  exists deltas,
    List.length deltas = n /\
    pos_ gr = params deltas ++ pos_ gr' /\ trafo gr' = trafo gr /\
    r = (ls ++ map vertex_of (track cur deltas), last (track cur deltas) cur).
Proof.
  induction n as [|n IH]; intros cur ls gr r gr' H; cbn [lineTo_loop] in H.
  - inversion H; subst. exists []. cbn. rewrite app_nil_r. repeat split.
  - apply bind_inv in H. destruct H as (c & gr1 & Hs & H).
    apply bind_inv in H. destruct H as (v & gr1' & Hv & H).
    rewrite vertex_at_ok in Hv. inversion Hv; subst v gr1'.
    apply shift_inv in Hs. destruct Hs as (dx & dy & Hpos & Htr & ->).
    apply IH in H. destruct H as (deltas & Hlen & Hpos' & Htr' & ->).
    exists ((dx, dy) :: deltas). cbn [List.length params flat_map app fst snd track map].
    fold (params deltas).
    split; [now rewrite Hlen|]. split; [now rewrite Hpos, Hpos'|].
    split; [congruence|].
    rewrite <- app_assoc. cbn [app]. now rewrite last_cons.
Qed.

Lemma points_loop_inv n : forall cur g gr r gr',
  points_loop n cur g gr = Ok (r, gr') ->
  exists deltas,
    List.length deltas = n /\
    pos_ gr = params deltas ++ pos_ gr' /\ trafo gr' = trafo gr /\
    r = g ++ map point_of (track cur deltas).
Proof.
  induction n as [|n IH]; intros cur g gr r gr' H; cbn [points_loop] in H.
  - inversion H; subst. exists []. cbn. rewrite app_nil_r. repeat split.
  - apply bind_inv in H. destruct H as (c & gr1 & Hs & H).
    apply bind_inv in H. destruct H as (v & gr1' & Hv & H).
    rewrite vertex_at_ok in Hv. inversion Hv; subst v gr1'.
    apply shift_inv in Hs. destruct Hs as (dx & dy & Hpos & Htr & ->).
    apply IH in H. destruct H as (deltas & Hlen & Hpos' & Htr' & ->).
    exists ((dx, dy) :: deltas). cbn [List.length params flat_map app fst snd track map].
    fold (params deltas).
    split; [now rewrite Hlen|]. split; [now rewrite Hpos, Hpos'|].
    split; [congruence|].
    rewrite <- app_assoc. reflexivity.
Qed.

Lemma singleLineString_accepts cur closed gr ls c gr' :
  singleLineString cur closed gr = Ok ((ls, c), gr') ->
  exists s d deltas,
    pos_ gr = s ++ pos_ gr' /\ trafo gr' = trafo gr /\
    accepts_line closed s d deltas /\
    (ls, c) = line_of closed cur d deltas.
Proof.
  unfold singleLineString. intros H.
  apply bind_inv in H. destruct H as (moveTo & g1 & Hm & H).
  apply bind_inv in Hm. destruct Hm as (cm & g0 & Hcm & Hchk).
  apply checkSingle_inv in Hchk. destruct Hchk as (-> & -> & Hone).
  apply command_inv in Hcm. destruct Hcm as (raw_move & P0 & T0 & -> & Hty0).
  apply bind_inv in H. destruct H as (start & g2 & Hs & H).
  apply shift_inv in Hs. destruct Hs as (dx & dy & P1 & T1 & ->).
  apply bind_inv in H. destruct H as (v & g2' & Hv & H).
  rewrite vertex_at_ok in Hv. inversion Hv; subst v g2'.
  apply bind_inv in H. destruct H as (lineTo & g4 & Hl & H).
  apply bind_inv in Hl. destruct Hl as (cl & g3 & Hcl & Hchk).
  apply checkNonzero_inv in Hchk. destruct Hchk as (-> & -> & Hnz).
  apply command_inv in Hcl. destruct Hcl as (raw_line & P2 & T2 & -> & Hty2).
  apply bind_inv in H. destruct H as ([ls1 c1] & g5 & Hloop & H).
  apply lineTo_loop_inv in Hloop.
  destruct Hloop as (deltas & Hlen & P3 & T3 & Hr). inversion Hr; subst ls1 c1.
  assert (Hmove : Command.of_raw raw_move = Command.mk Command.moveTo 1).
  { destruct (Command.of_raw raw_move) as [t n]. cbn in Hty0, Hone. congruence. }
  destruct closed; cbn [negb] in H.
  - apply bind_inv in H. destruct H as (closePath & g7 & Hc & H).
    apply bind_inv in Hc. destruct Hc as (cc & g6 & Hcc & Hchk).
    apply checkNonzero_inv in Hchk. destruct Hchk as (-> & -> & Hnz').
    apply command_inv in Hcc. destruct Hcc as (raw_close & P4 & T4 & -> & Hty4).
    apply bind_inv in H. destruct H as (v & g8 & Hv' & H).
    rewrite vertex_at_ok in Hv'. inversion Hv'; subst v g8.
    inversion H; subst ls c gr'.
    exists (raw_move :: dx :: dy :: raw_line :: params deltas ++ [raw_close]),
           (dx, dy), deltas.
    split.
    { rewrite P0, P1, P2, P3, P4. cbn [app]. rewrite <- app_assoc. reflexivity. }
    split; [congruence|]. split.
    + exists raw_move, raw_line, [raw_close]. cbn [fst snd].
      repeat split; try assumption.
      exists raw_close. repeat split; assumption.
    + reflexivity.
  - inversion H; subst ls c gr'.
    exists (raw_move :: dx :: dy :: raw_line :: params deltas), (dx, dy), deltas.
    split.
    { rewrite P0, P1, P2, P3. reflexivity. }
    split; [congruence|]. split.
    + exists raw_move, raw_line, []. cbn [fst snd]. rewrite app_nil_r.
      repeat split; assumption.
    + unfold line_of. cbn [app]. now rewrite app_nil_r.
Qed.

Lemma singleLineString_accepted tr cur closed s d deltas rest :
  accepts_line closed s d deltas ->
  singleLineString cur closed (mkGeometryReader tr (s ++ rest))
  = Ok (line_of closed cur d deltas, mkGeometryReader tr rest).
Proof.
  intros (raw_move & raw_line & closing & -> & Hmove & Hty & Hnz & Hlen & Hclose).
  unfold singleLineString. cbn [app].
  unfold bind at 1. unfold bind at 1.
  rewrite command_intro by (now rewrite Hmove).
  unfold checkSingle at 1. rewrite Hmove. cbn [Command.count Z.eqb Pos.eqb negb].
  unfold ret at 1. cbn iota beta.
  unfold bind at 1. destruct d as [dx dy]. cbn [fst snd]. rewrite shift_pair.
  unfold bind at 1. rewrite vertex_at_ok.
  unfold bind at 1. unfold bind at 1.
  rewrite command_intro by assumption.
  unfold checkNonzero at 1.
  assert (E : (Command.count (Command.of_raw raw_line) =? 0) = false) by lia.
  rewrite E. unfold ret at 1. cbn iota beta.
  unfold bind at 1. rewrite <- Hlen, <- app_assoc, lineTo_loop_params. cbn [app].
  unfold line_of.
  destruct closed; cbn [negb].
  - destruct Hclose as (raw_close & -> & Hty' & Hnz').
    cbn [app]. unfold bind at 1. unfold bind at 1.
    rewrite command_intro by assumption.
    unfold checkNonzero.
    assert (E' : (Command.count (Command.of_raw raw_close) =? 0) = false) by lia.
    rewrite E'. reflexivity.
  - subst closing. cbn [app]. rewrite app_nil_r. reflexivity.
Qed.

(** X1. [singleLineString] returns exactly on the streams that begin
    with MoveTo of count 1 and a delta pair, LineTo of a nonzero count
    with that many delta pairs and, for a ring, ClosePath of a nonzero
    count; it reads these integers and no more, whatever follows them,
    and returns the start point, the points of the LineTo and, for a ring,
    the start point again. *)
Theorem X1_singleLineString_grammar cur closed gr ls c gr' :
  singleLineString cur closed gr = Ok ((ls, c), gr') <->
  exists s d deltas,
    pos_ gr = s ++ pos_ gr' /\ trafo gr' = trafo gr /\
    accepts_line closed s d deltas /\
    (ls, c) = line_of closed cur d deltas.
Proof.
  split; [apply singleLineString_accepts|].
  intros (s & d & deltas & Hpos & Htr & Hacc & Hres).
  destruct gr as [tr st], gr' as [tr' st']. cbn [pos_ trafo] in *. subst.
  rewrite Hres. now apply singleLineString_accepted.
Qed.

Lemma X1_singleLineString_grammar_witness :
  singleLineString Cursor.init true
    (mkGeometryReader tile_trafo [9; 2; 3; 18; 1; 0; 0; 1; 15; 9; 1; 1])
  = Ok (([(2, 3); (3, 3); (3, 4); (2, 3)], Cursor.mk 3 4),
        mkGeometryReader tile_trafo [9; 1; 1]).
Proof.
  apply (proj2 (X1_singleLineString_grammar Cursor.init true
                  (mkGeometryReader tile_trafo [9; 2; 3; 18; 1; 0; 0; 1; 15; 9; 1; 1])
                  [(2, 3); (3, 3); (3, 4); (2, 3)] (Cursor.mk 3 4)
                  (mkGeometryReader tile_trafo [9; 1; 1]))).
  exists [9; 2; 3; 18; 1; 0; 0; 1; 15], (2, 3), [(1, 0); (0, 1)].
  split; [reflexivity|]. split; [reflexivity|]. split; [|reflexivity].
  exists 9, 18, [15]. repeat split; try discriminate.
  exists 15. repeat split. discriminate.
Defined.

(** ** The streams [points] accepts *)

Lemma points_accepts gr g gr' :
  points gr = Ok (g, gr') ->
  exists s deltas,
    pos_ gr = s ++ pos_ gr' /\ trafo gr' = trafo gr /\
    accepts_points s deltas /\ g = Some (points_of deltas).
Proof.
  unfold points. intros H.
  apply bind_inv in H. destruct H as (moveTo & g1 & Hm & H).
  apply bind_inv in Hm. destruct Hm as (cm & g0 & Hcm & Hchk).
  apply checkNonzero_inv in Hchk. destruct Hchk as (-> & -> & Hnz).
  apply command_inv in Hcm. destruct Hcm as (raw_move & P0 & T0 & -> & Hty0).
  destruct (Command.count (Command.of_raw raw_move) =? 1) eqn:E1.
  - apply bind_inv in H. destruct H as (c & g2 & Hs & H).
    apply shift_inv in Hs. destruct Hs as (dx & dy & P1 & T1 & ->).
    apply bind_inv in H. destruct H as (v & g2' & Hv & H).
    rewrite vertex_at_ok in Hv. inversion Hv; subst v g2'.
    inversion H; subst g gr'.
    exists (raw_move :: params [(dx, dy)]), [(dx, dy)].
    split; [rewrite P0, P1; reflexivity|]. split; [congruence|]. split.
    + exists raw_move. repeat split; try assumption.
      apply Z.eqb_eq in E1. rewrite E1. reflexivity.
    + reflexivity.
  - apply bind_inv in H. destruct H as (ms & g2 & Hloop & H).
    apply points_loop_inv in Hloop. destruct Hloop as (deltas & Hlen & P1 & T1 & ->).
    inversion H; subst g gr'.
    exists (raw_move :: params deltas), deltas.
    split; [rewrite P0, P1; reflexivity|]. split; [congruence|]. split.
    + exists raw_move. repeat split; try assumption. lia.
    + unfold points_of. destruct deltas as [|d [|d' deltas]]; try reflexivity.
      exfalso. cbn [List.length] in Hlen.
      assert (Command.count (Command.of_raw raw_move) = 1) by lia. lia.
Qed.

Lemma points_accepted tr s deltas rest :
  accepts_points s deltas ->
  points (mkGeometryReader tr (s ++ rest))
  = Ok (Some (points_of deltas), mkGeometryReader tr rest).
Proof.
  intros (raw_move & -> & Hty & Hnz & Hlen & Hone).
  unfold points. cbn [app].
  unfold bind at 1. unfold bind at 1.
  rewrite command_intro by assumption.
  unfold checkNonzero at 1.
  assert (E : (Command.count (Command.of_raw raw_move) =? 0) = false) by lia.
  rewrite E. unfold ret at 1. cbn iota beta.
  destruct (Command.count (Command.of_raw raw_move) =? 1) eqn:E1.
  - apply Z.eqb_eq in E1. specialize (Hone E1).
    destruct deltas as [|[dx dy] [|d' deltas]]; try discriminate Hone.
    reflexivity.
  - unfold bind. rewrite <- Hlen, points_loop_params. cbn [app].
    unfold points_of. destruct deltas as [|d [|d' deltas]]; try reflexivity.
    exfalso. cbn [List.length] in Hlen. change (Z.to_nat 1) with 1%nat in *.
    assert (Command.count (Command.of_raw raw_move) = 1) by lia. lia.
Qed.

(** X2. [points] returns exactly on the streams that begin with MoveTo
    of a nonzero count and that many delta pairs; it reads these integers
    and no more, whatever follows them (integers after the last point are
    not looked at), and returns the single point or the collection of the
    points. *)
Theorem X2_points_grammar gr g gr' :
  points gr = Ok (g, gr') <->
  exists s deltas,
    pos_ gr = s ++ pos_ gr' /\ trafo gr' = trafo gr /\
    accepts_points s deltas /\ g = Some (points_of deltas).
Proof.
  split; [apply points_accepts|].
  intros (s & deltas & Hpos & Htr & Hacc & ->).
  destruct gr as [tr st], gr' as [tr' st']. cbn [pos_ trafo] in *. subst.
  now apply points_accepted.
Qed.

(** ** Truncated streams *)









(** ** Deltas are relative: decoding commutes with moving the cursor *)

Lemma related_bind {A A0 B B0} (R : A -> A0 -> Prop) (S : B -> B0 -> Prop)
    (m : GR A) (m0 : GR A0) (k : A -> GR B) (k0 : A0 -> GR B0) gr :
  related R (m gr) (m0 gr) ->
  (forall a a0 gr1, R a a0 -> related S (k a gr1) (k0 a0 gr1)) ->
  related S (bind m k gr) (bind m0 k0 gr).
Proof.
  intros Hm Hk. unfold bind, related in *.
  destruct (m0 gr) as [[a0 g0]|e|].
  - destruct Hm as (a & -> & HR). apply Hk, HR.
  - now rewrite Hm.
  - now rewrite Hm.
Qed.

Lemma related_refl {A} (m : GR A) gr : related eq (m gr) (m gr).
Proof.
  unfold related. destruct (m gr) as [[a g]|e|]; try reflexivity.
  exists a. split; reflexivity.
Qed.

Lemma wrap32_idem z : wrap32 (wrap32 z) = wrap32 z.
Proof. unfold wrap32. apply Zmod_mod. Qed.

Lemma wrap32_add_r a b : wrap32 (a + wrap32 b) = wrap32 (a + b).
Proof. unfold wrap32. apply Zplus_mod_idemp_r. Qed.

Lemma offset_by_translate o c0 : offset_by o (translate_cursor o c0) c0.
Proof. split; cbn; apply wrap32_idem. Qed.

Lemma advance_offset o c c0 d :
  offset_by o c c0 -> advance c d = translate_cursor o (advance c0 d).
Proof.
  intros [Hx Hy]. unfold advance, translate_cursor. cbn [Cursor.x Cursor.y].
  f_equal.
  - rewrite wrap32_add_r, <- (wrap32_add_l (Cursor.x c)), Hx, wrap32_add_l.
    f_equal. lia.
  - rewrite wrap32_add_r, <- (wrap32_add_l (Cursor.y c)), Hy, wrap32_add_l.
    f_equal. lia.
Qed.

Lemma shift_offset o c c0 gr :
  offset_by o c c0 ->
  related (fun a a0 => a = translate_cursor o a0) (shift c gr) (shift c0 gr).
Proof.
  intros Hoff. unfold shift, related.
  destruct (pos_ gr) as [|dx [|dy rest]]; try reflexivity.
  eexists. split; [reflexivity|].
  apply (advance_offset o c c0 (dx, dy) Hoff).
Qed.

Lemma vertex_of_translate o c0 :
  vertex_of (translate_cursor o c0) = translate o (vertex_of c0).
Proof. reflexivity. Qed.

Lemma vertex_at_offset o c0 gr :
  related (fun v v0 => v = translate o v0)
    (vertex_at (translate_cursor o c0) gr) (vertex_at c0 gr).
Proof.
  rewrite !vertex_at_ok. eexists. split; [reflexivity|apply vertex_of_translate].
Qed.

Lemma lineTo_loop_offset o n : forall c0 ls0 gr,
  related (moved_by o)
    (lineTo_loop n (translate_cursor o c0) (map (translate o) ls0) gr)
    (lineTo_loop n c0 ls0 gr).
Proof.
  induction n as [|n IH]; intros c0 ls0 gr; cbn [lineTo_loop].
  - eexists. split; [reflexivity|]. split; reflexivity.
  - eapply related_bind; [apply shift_offset, offset_by_translate|].
    intros a a0 gr1 ->.
    eapply related_bind; [apply vertex_at_offset|]. intros v v0 gr2 ->.
    change (map (translate o) ls0 ++ [translate o v0])
      with (map (translate o) ls0 ++ map (translate o) [v0]).
    rewrite <- map_app. apply IH.
Qed.

Lemma singleLineString_offset o cur cur0 closed gr :
  offset_by o cur cur0 ->
  related (moved_by o)
    (singleLineString cur closed gr) (singleLineString cur0 closed gr).
Proof.
  intros Hoff. unfold singleLineString.
  eapply related_bind; [apply related_refl|]. intros moveTo ? gr1 <-.
  eapply related_bind; [apply shift_offset, Hoff|]. intros c c0 gr2 ->.
  eapply related_bind; [apply vertex_at_offset|]. intros v v0 gr2' ->.
  eapply related_bind; [apply related_refl|]. intros lineTo ? gr3 <-.
  eapply related_bind.
  { change ([] ++ [translate o v0]) with (map (translate o) ([] ++ [v0])).
    apply lineTo_loop_offset. }
  intros [ls c1] [ls0 c10] gr4 [Hls Hc]. cbn [fst snd] in Hls, Hc. subst ls c1.
  destruct (negb closed).
  - eexists. split; [reflexivity|]. split; reflexivity.
  - eapply related_bind; [apply related_refl|]. intros closePath ? gr5 <-.
    eapply related_bind; [apply vertex_at_offset|]. intros w w0 gr6 ->.
    eexists. split; [reflexivity|]. split; [|reflexivity].
    cbn [fst]. now rewrite map_app.
Qed.

(** X4. The deltas are relative to the cursor: decoding a line string or
    a ring from any cursor gives the vertices decoded from the cursor
    (0,0), each moved by that cursor in unsigned 32-bit arithmetic, reads
    the same integers, and fails with the same error when it fails. *)
Theorem X4_decoding_is_relative cur closed gr :
  singleLineString cur closed gr
  = translate_result cur (singleLineString Cursor.init closed gr).
Proof.
  assert (Hoff : offset_by cur cur Cursor.init).
  { split; cbn; f_equal; lia. }
  pose proof (singleLineString_offset cur cur Cursor.init closed gr Hoff) as H.
  unfold related in H. unfold translate_result.
  destruct (singleLineString Cursor.init closed gr) as [[[ls0 c0] g0]|e|].
  - destruct H as ([ls c] & -> & Hls & Hc). cbn [fst snd] in Hls, Hc.
    now subst.
  - exact H.
  - exact H.
Qed.

(** ** When the builders of lines and polygons return *)

Lemma lineStrings_loop_ok_inv fuel : forall cur done_ gr r gr',
  lineStrings_loop fuel cur (fst (lineStrings_state done_))
    (snd (lineStrings_state done_)) gr = Ok (r, gr') ->
  exists lss,
    Decodes false cur gr lss /\
    r = lineStrings_state (done_ ++ lss) /\
    gr' = mkGeometryReader (trafo gr) [].
Proof.
  induction fuel as [|fuel IH]; intros cur done_ gr r gr' H;
    cbn [lineStrings_loop] in H; [discriminate|].
  destruct (more gr) eqn:Hmore.
  - assert (Hstep : exists ls c gr1,
               singleLineString cur false gr = Ok ((ls, c), gr1) /\
               lineStrings_loop fuel c (fst (lineStrings_state (done_ ++ [ls])))
                 (snd (lineStrings_state (done_ ++ [ls]))) gr1 = Ok (r, gr')).
    { destruct (lineStrings_state done_) as [[s|] [m|]] eqn:Est;
        cbn [fst snd] in H; apply bind_inv in H;
        destruct H as ([ls c] & gr1 & Hone & H);
        exists ls, c, gr1; (split; [exact Hone|]);
        rewrite lineStrings_state_snoc, Est; exact H. }
    destruct Hstep as (ls & c & gr1 & Hone & Hloop).
    apply IH in Hloop. destruct Hloop as (lss & Hdec & -> & ->).
    destruct (consumes_singleLineString _ _ _ _ _ Hone) as [Htr _].
    exists (ls :: lss). split; [|split].
    + eapply Decodes_next; eassumption.
    + now rewrite <- app_assoc.
    + now rewrite Htr.
  - inversion H; subst. exists []. split; [|split].
    + now apply Decodes_end.
    + rewrite app_nil_r. now rewrite <- surjective_pairing.
    + now apply more_false_end.
Qed.

Lemma lineStrings_returns_inv gr g gr' :
  lineStrings gr = Ok (g, gr') ->
  exists lss,
    Decodes false Cursor.init gr lss /\
    g = spec_lineStrings lss /\
    gr' = mkGeometryReader (trafo gr) [].
Proof.
  unfold lineStrings. intros H. apply bind_inv in H.
  destruct H as ([single multi] & gr1 & Hloop & H).
  apply (lineStrings_loop_ok_inv _ Cursor.init []) in Hloop.
  destruct Hloop as (lss & Hdec & Hst & ->). cbn [app] in Hst.
  exists lss. split; [exact Hdec|].
  destruct lss as [|s1 [|s2 t]]; inversion Hst; subst;
    inversion H; subst; split; reflexivity.
Qed.

(** X5. [lineStrings] returns exactly when the whole stream decodes as a
    sequence of line strings, one after the other up to the last integer;
    it then returns none, the single one or all of them, and has read
    every integer. *)
Theorem X5_lineStrings_returns_iff_decodes gr g gr' :
  lineStrings gr = Ok (g, gr') <->
  exists lss,
    Decodes false Cursor.init gr lss /\
    g = spec_lineStrings lss /\
    gr' = mkGeometryReader (trafo gr) [].
Proof.
  split; [apply lineStrings_returns_inv|].
  intros (lss & Hdec & -> & ->). now apply lineStrings_decodes.
Qed.

Section PolygonReturns.

Variable isClockwise : OGRLinearRing -> bool.

Lemma polygons_loop_ok_inv fuel : forall cur single multi gr r gr',
  polygons_loop isClockwise fuel cur single multi gr = Ok (r, gr') ->
  exists rings,
    Decodes true cur gr rings /\
    r = (open_polygon (fold_left (spec_add_ring isClockwise) rings
                         (mkGrouping single multi)),
         multi_polygon (fold_left (spec_add_ring isClockwise) rings
                          (mkGrouping single multi))) /\
    gr' = mkGeometryReader (trafo gr) [].
Proof.
  induction fuel as [|fuel IH]; intros cur single multi gr r gr' H;
    cbn [polygons_loop] in H; [discriminate|].
  destruct (more gr) eqn:Hmore.
  - apply bind_inv in H. destruct H as ([ls c] & gr1 & Hone & H).
    destruct (consumes_singleLineString _ _ _ _ _ Hone) as [Htr _].
    assert (Hstep : exists g1,
               g1 = spec_add_ring isClockwise (mkGrouping single multi) ls /\
               polygons_loop isClockwise fuel c (open_polygon g1)
                 (multi_polygon g1) gr1 = Ok (r, gr')).
    { eexists. split; [reflexivity|].
      unfold spec_add_ring. cbn [open_polygon multi_polygon].
      destruct (isClockwise ls), single as [s|], multi as [m|];
        cbn [open_polygon multi_polygon]; exact H. }
    destruct Hstep as (g1 & Hg1 & Hloop).
    apply IH in Hloop. destruct Hloop as (rings & Hdec & -> & ->).
    exists (ls :: rings). split; [|split].
    + eapply Decodes_next; eassumption.
    + cbn [fold_left]. rewrite <- Hg1. destruct g1; reflexivity.
    + now rewrite Htr.
  - inversion H; subst. exists []. split; [|split].
    + now apply Decodes_end.
    + reflexivity.
    + now apply more_false_end.
Qed.

Lemma polygons_returns_inv gr g gr' :
  polygons isClockwise gr = Ok (g, gr') ->
  exists rings,
    Decodes true Cursor.init gr rings /\
    g = geometry_of_polygons (group_rings isClockwise rings) /\
    gr' = mkGeometryReader (trafo gr) [].
Proof.
  intros H.
  assert (Hex : exists rings, Decodes true Cursor.init gr rings).
  { unfold polygons in H. apply bind_inv in H.
    destruct H as ([single multi] & gr1 & Hloop & _).
    apply polygons_loop_ok_inv in Hloop.
    destruct Hloop as (rings & Hdec & _). now exists rings. }
  destruct Hex as (rings & Hdec). exists rings. split; [exact Hdec|].
  rewrite (polygons_decodes isClockwise gr rings Hdec) in H.
  inversion H; subst. split; [apply spec_polygons_group_rings|reflexivity].
Qed.

(** X6. [polygons] returns exactly when the whole stream decodes as a
    sequence of closed rings up to the last integer; it then returns the
    rings grouped into polygons, and has read every integer. *)
Theorem X6_polygons_returns_iff_decodes gr g gr' :
  polygons isClockwise gr = Ok (g, gr') <->
  exists rings,
    Decodes true Cursor.init gr rings /\
    g = geometry_of_polygons (group_rings isClockwise rings) /\
    gr' = mkGeometryReader (trafo gr) [].
Proof.
  split; [apply polygons_returns_inv|].
  intros (rings & Hdec & -> & ->).
  rewrite <- spec_polygons_group_rings. now apply polygons_decodes.
Qed.

End PolygonReturns.

(** ** What the built geometries look like *)

Lemma Decodes_Forall closed (I : GeometryReader -> Prop) (P : list Vertex -> Prop) :
  (forall cur gr ls c gr',
      I gr -> singleLineString cur closed gr = Ok ((ls, c), gr') -> P ls /\ I gr') ->
  forall cur gr lss, Decodes closed cur gr lss -> I gr -> Forall P lss.
Proof.
  intros Hstep cur gr lss Hdec.
  induction Hdec as [cur gr Hend|cur gr ls cur' gr' lss Hmore Hone Hrest IH];
    intros HI; [constructor|].
  destruct (Hstep _ _ _ _ _ HI Hone) as [HP HI'].
  constructor; [exact HP|apply IH, HI'].
Qed.

Lemma wrap32_range z : 0 <= wrap32 z < uint32_modulus.
Proof. unfold wrap32. apply Z.mod_pos_bound. reflexivity. Qed.

Lemma advance_in_uint32 cur d : in_uint32 (vertex_of (advance cur d)).
Proof. split; apply wrap32_range. Qed.

Lemma track_in_uint32 deltas : forall cur,
  Forall in_uint32 (map vertex_of (track cur deltas)).
Proof.
  induction deltas as [|d deltas IH]; intros cur; cbn [track map]; constructor.
  - apply advance_in_uint32.
  - apply IH.
Qed.

Lemma line_of_in_uint32 closed cur d deltas :
  Forall in_uint32 (fst (line_of closed cur d deltas)).
Proof.
  unfold line_of. cbn [fst]. apply Forall_app. split.
  - constructor; [apply advance_in_uint32|apply track_in_uint32].
  - destruct closed; constructor; [apply advance_in_uint32|constructor].
Qed.

Lemma vertices_points_of deltas :
  vertices (points_of deltas) = map vertex_of (track Cursor.init deltas)
  \/ deltas = [].
Proof.
  destruct deltas as [|d [|d' deltas]]; [right; reflexivity|left; reflexivity|].
  left. unfold points_of. cbn [vertices].
  generalize (track Cursor.init (d :: d' :: deltas)). intros l.
  induction l as [|c l IH]; [reflexivity|]. cbn [map flat_map vertices point_of app].
  f_equal. exact IH.
Qed.

Lemma vertices_spec_lineStrings lss g :
  spec_lineStrings lss = Some g -> vertices g = concat lss.
Proof.
  destruct lss as [|s1 [|s2 t]]; intros H; inversion H; subst; cbn [vertices concat].
  - now rewrite app_nil_r.
  - reflexivity.
Qed.

Section BuiltGeometries.

Variable isClockwise : OGRLinearRing -> bool.

Lemma group_rings_members rings :
  Forall (fun pg => pg <> []) (group_rings isClockwise rings).
Proof.
  destruct rings as [|r rs]; [constructor|]. cbn [group_rings].
  destruct (attach_shape isClockwise rs [r]) as (holes & later & E & _ & Hl).
  rewrite E. constructor; [discriminate|].
  eapply Forall_impl; [|exact Hl].
  intros pg (r' & hs & -> & _). discriminate.
Qed.

Lemma vertices_geometry_of_polygons rings g :
  geometry_of_polygons (group_rings isClockwise rings) = Some g ->
  vertices g = concat rings.
Proof.
  intros H. rewrite <- (concat_group_rings isClockwise rings) at 1.
  destruct (group_rings isClockwise rings) as [|p1 [|p2 t]];
    inversion H; subst; cbn [vertices].
  - cbn [concat]. now rewrite app_nil_r.
  - clear H. generalize (p1 :: p2 :: t). intros l.
    induction l as [|p l IH]; [reflexivity|].
    cbn [map concat]. now rewrite concat_app, IH.
Qed.

(** What a returned geometry is made of, for each kind of feature. *)
Lemma generateGeometry_inv f tr g :
  generateGeometry isClockwise f tr = Ok (Some g) ->
  (Tile_Feature.type f = Tile_GeomType_POINT /\
   exists s deltas rest,
     Tile_Feature.geometry f = s ++ rest /\ accepts_points s deltas /\
     g = points_of deltas) \/
  (Tile_Feature.type f = Tile_GeomType_LINESTRING /\
   exists lss,
     Decodes false Cursor.init (GeometryReader_new tr (Tile_Feature.geometry f)) lss /\
     spec_lineStrings lss = Some g) \/
  (Tile_Feature.type f = Tile_GeomType_POLYGON /\
   exists rings,
     Decodes true Cursor.init (GeometryReader_new tr (Tile_Feature.geometry f)) rings /\
     geometry_of_polygons (group_rings isClockwise rings) = Some g).
Proof.
  unfold generateGeometry, run.
  destruct (Tile_Feature.type f); [discriminate| | |].
  - destruct (points _) as [[a gr']|e|] eqn:E; try discriminate.
    intros H; inversion H; subst a. left. split; [reflexivity|].
    apply points_accepts in E. destruct E as (s & deltas & Hpos & _ & Hacc & Hg).
    inversion Hg; subst g. exists s, deltas, (pos_ gr'). repeat split; assumption.
  - destruct (lineStrings _) as [[a gr']|e|] eqn:E; try discriminate.
    intros H; inversion H; subst a. right; left. split; [reflexivity|].
    apply lineStrings_returns_inv in E.
    destruct E as (lss & Hdec & Hg & _). exists lss. split; [exact Hdec|now symmetry].
  - destruct (polygons _ _) as [[a gr']|e|] eqn:E; try discriminate.
    intros H; inversion H; subst a. right; right. split; [reflexivity|].
    apply polygons_returns_inv in E.
    destruct E as (rings & Hdec & Hg & _). exists rings. split; [exact Hdec|now symmetry].
Qed.

End BuiltGeometries.

Lemma geometry_of_polygons_none ps : geometry_of_polygons ps = None -> ps = [].
Proof. destruct ps as [|p1 [|p2 t]]; [reflexivity|discriminate|discriminate]. Qed.

Section GeometryInvariants.

Variable isClockwise : OGRLinearRing -> bool.

Lemma Decodes_in_uint32 closed cur gr lss :
  Decodes closed cur gr lss -> Forall (Forall in_uint32) lss.
Proof.
  intros Hdec.
  refine (Decodes_Forall closed (fun _ => True) (Forall in_uint32) _
            cur gr lss Hdec I).
  intros c g ls c' g' _ Hone. split; [|exact I].
  apply singleLineString_accepts in Hone.
  destruct Hone as (s & d & deltas & _ & _ & _ & Hres).
  replace ls with (fst (line_of closed c d deltas)) by (now rewrite <- Hres).
  apply line_of_in_uint32.
Qed.

(** X7. Every coordinate of every geometry that [generateGeometry]
    returns is a value of the 32-bit cursor: it lies in [0, 2^32),
    whatever the integers of the stream are. *)
Theorem X7_coordinates_in_uint32 f tr g :
  generateGeometry isClockwise f tr = Ok (Some g) ->
  Forall in_uint32 (vertices g).
Proof.
  intros H. apply generateGeometry_inv in H.
  destruct H as [(_ & s & deltas & rest & _ & _ & ->)
                |[(_ & lss & Hdec & Hg)|(_ & rings & Hdec & Hg)]].
  - destruct (vertices_points_of deltas) as [-> | ->];
      [apply track_in_uint32|constructor].
  - rewrite (vertices_spec_lineStrings lss g Hg).
    apply Forall_concat. eapply Decodes_in_uint32; eassumption.
  - rewrite (vertices_geometry_of_polygons isClockwise rings g Hg).
    apply Forall_concat. eapply Decodes_in_uint32; eassumption.
Qed.

Lemma count_positive raw :
  0 <= raw -> Command.count (Command.of_raw raw) <> 0 ->
  (0 < Z.to_nat (Command.count (Command.of_raw raw)))%nat.
Proof.
  intros Hraw Hnz. cbn [Command.of_raw Command.count] in *.
  assert (0 <= Z.shiftr raw 3) by (now apply Z.shiftr_nonneg). lia.
Qed.

Lemma accepts_line_deltas closed s d deltas :
  uint32_stream s -> accepts_line closed s d deltas -> deltas <> [].
Proof.
  intros Hs (raw_move & raw_line & closing & -> & _ & _ & Hnz & Hlen & _).
  unfold uint32_stream in Hs.
  inversion Hs as [|? ? _ Hs1]; subst. inversion Hs1 as [|? ? _ Hs2]; subst.
  inversion Hs2 as [|? ? _ Hs3]; subst. inversion Hs3 as [|? ? Hraw _]; subst.
  pose proof (count_positive raw_line (proj1 Hraw) Hnz) as Hpos.
  intros ->. rewrite <- Hlen in Hpos. cbn [List.length] in Hpos. lia.
Qed.

Lemma Decodes_shaped closed cur gr lss :
  Decodes closed cur gr lss -> uint32_stream (pos_ gr) ->
  Forall (if closed then ring_shaped else line_shaped) lss.
Proof.
  intros Hdec.
  refine (Decodes_Forall closed (fun g => uint32_stream (pos_ g))
            (if closed then ring_shaped else line_shaped) _ cur gr lss Hdec).
  intros c g ls c' g' Hu Hone.
  apply singleLineString_accepts in Hone.
  destruct Hone as (s & d & deltas & Hpos & _ & Hacc & Hres).
  unfold uint32_stream in Hu. rewrite Hpos in Hu. apply Forall_app in Hu.
  destruct Hu as [Hs Hrest]. split; [|exact Hrest].
  pose proof (accepts_line_deltas closed s d deltas Hs Hacc) as Hne.
  replace ls with (fst (line_of closed c d deltas)) by (now rewrite <- Hres).
  unfold line_of. cbn [fst]. destruct closed.
  - exists (vertex_of (advance c d)), (map vertex_of (track (advance c d) deltas)).
    split; [|reflexivity].
    destruct deltas; [congruence|discriminate].
  - rewrite app_nil_r. unfold line_shaped. cbn [List.length].
    rewrite length_map, track_length. destruct deltas; [congruence|cbn; lia].
Qed.

(** X8. From a stream of 32-bit values the builder returns only
    geometries of these shapes: a point; a collection of at least two
    points; a line string of at least two vertices; a MultiLineString of
    at least two such line strings; a polygon of at least one ring; a
    MultiPolygon of at least two such polygons; every ring having at least
    three vertices and ending where it starts. *)
Theorem X8_built_shape f tr g :
  uint32_stream (Tile_Feature.geometry f) ->
  generateGeometry isClockwise f tr = Ok (Some g) ->
  built_shape g.
Proof.
  intros Hu H. apply generateGeometry_inv in H.
  destruct H as [(_ & s & deltas & rest & Hgeo & Hacc & ->)
                |[(_ & lss & Hdec & Hg)|(_ & rings & Hdec & Hg)]].
  - destruct Hacc as (raw_move & -> & _ & Hnz & Hlen & _).
    unfold uint32_stream in Hu. rewrite Hgeo in Hu. cbn [app] in Hu.
    inversion Hu as [|? ? Hraw _]; subst.
    pose proof (count_positive raw_move (proj1 Hraw) Hnz) as Hpos.
    rewrite <- Hlen in Hpos.
    destruct deltas as [|d [|d' deltas]]; [cbn [List.length] in Hpos; lia|exact I|].
    unfold points_of. cbn [built_shape]. split.
    + rewrite length_map, track_length. cbn; lia.
    + apply Forall_map. apply Forall_forall. intros c _.
      exists (Cursor.x c), (Cursor.y c). reflexivity.
  - pose proof (Decodes_shaped false _ _ _ Hdec Hu) as Hsh. cbn iota in Hsh.
    destruct lss as [|s1 [|s2 t]]; inversion Hg; subst; cbn [built_shape].
    + now inversion Hsh.
    + split; [cbn; lia|exact Hsh].
  - pose proof (Decodes_shaped true _ _ _ Hdec Hu) as Hsh. cbn iota in Hsh.
    rewrite <- (concat_group_rings isClockwise rings) in Hsh.
    apply Forall_concat in Hsh.
    pose proof (group_rings_members isClockwise rings) as Hne.
    assert (Hall : Forall (fun pg => pg <> [] /\ Forall ring_shaped pg)
                          (group_rings isClockwise rings)).
    { apply Forall_forall. intros pg Hin. split.
      - exact (proj1 (Forall_forall _ _) Hne pg Hin).
      - exact (proj1 (Forall_forall _ _) Hsh pg Hin). }
    destruct (group_rings isClockwise rings) as [|p1 [|p2 t]];
      inversion Hg; subst; cbn [built_shape].
    + now inversion Hall.
    + split; [cbn; lia|exact Hall].
Qed.

(** X9. [generateGeometry] returns no geometry without an error in these
    cases only: a feature of unknown type, and a LINESTRING or POLYGON
    feature with an empty stream. *)
Theorem X9_null_geometry_iff f tr :
  generateGeometry isClockwise f tr = Ok None <->
  Tile_Feature.type f = Tile_GeomType_UNKNOWN \/
  ((Tile_Feature.type f = Tile_GeomType_LINESTRING \/
    Tile_Feature.type f = Tile_GeomType_POLYGON) /\
   Tile_Feature.geometry f = []).
Proof.
  split.
  - unfold generateGeometry, run.
    destruct (Tile_Feature.type f) eqn:Ety; [now left| | |]; intros H.
    + exfalso. destruct (points _) as [[a gr']|e|] eqn:E; try discriminate.
      inversion H; subst a. apply points_accepts in E.
      destruct E as (s & deltas & _ & _ & _ & Hg). discriminate Hg.
    + right. split; [now left|].
      destruct (lineStrings _) as [[a gr']|e|] eqn:E; try discriminate.
      inversion H; subst a. apply lineStrings_returns_inv in E.
      destruct E as (lss & Hdec & Hg & _).
      destruct lss as [|s1 [|s2 t]]; try discriminate Hg.
      inversion Hdec as [? ? Hend|]; subst.
      unfold more, GeometryReader_new in Hend. cbn [pos_] in Hend.
      destruct (Tile_Feature.geometry f); [reflexivity|discriminate].
    + right. split; [now right|].
      destruct (polygons _ _) as [[a gr']|e|] eqn:E; try discriminate.
      inversion H; subst a. apply polygons_returns_inv in E.
      destruct E as (rings & Hdec & Hg & _).
      destruct rings as [|r rs].
      * inversion Hdec as [? ? Hend|]; subst.
        unfold more, GeometryReader_new in Hend. cbn [pos_] in Hend.
        destruct (Tile_Feature.geometry f); [reflexivity|discriminate].
      * exfalso. cbn [group_rings] in Hg.
        apply (attach_nonempty isClockwise [r] rs).
        apply geometry_of_polygons_none. now symmetry.
  - unfold generateGeometry.
    intros [-> | [[-> | ->] ->]]; reflexivity.
Qed.

End GeometryInvariants.

Lemma X7_coordinates_in_uint32_witness :
  let f := Tile_Feature.mk None Tile_GeomType_LINESTRING
             [9; 4294967295; 4294967295; 10; 3; 4294967294] in
  generateGeometry clockwise_by_area f tile_trafo
  = Ok (Some (LineString [(4294967295, 4294967295); (2, 4294967293)])) /\
  Forall in_uint32 [(4294967295, 4294967295); (2, 4294967293)].
Proof.
  intros f. split; [reflexivity|].
  exact (X7_coordinates_in_uint32 clockwise_by_area f tile_trafo _ eq_refl).
Defined.

Lemma X8_built_shape_witness :
  let f := Tile_Feature.mk None Tile_GeomType_POLYGON
             [9; 0; 0; 26; 0; 4; 4; 0; 0; 4294967292; 15] in
  uint32_stream (Tile_Feature.geometry f) /\
  generateGeometry clockwise_by_area f tile_trafo
  = Ok (Some (Polygon [[(0, 0); (0, 4); (4, 4); (4, 0); (0, 0)]])) /\
  built_shape (Polygon [[(0, 0); (0, 4); (4, 4); (4, 0); (0, 0)]]).
Proof.
  intros f.
  assert (Hu : uint32_stream (Tile_Feature.geometry f)).
  { repeat constructor; discriminate. }
  split; [exact Hu|]. split; [reflexivity|].
  exact (X8_built_shape clockwise_by_area f tile_trafo _ Hu eq_refl).
Defined.

(** * Further properties of the layer and the dataset *)

Section LayerInvariants.

Variable isClockwise : OGRLinearRing -> bool.

Lemma skip_unknown_suffix it :
  exists skipped,
    it = skipped ++ skip_unknown it /\
    Forall (fun f => is_known f = false) skipped.
Proof.
  induction it as [|f it (skipped & IH & Hall)].
  - exists []. split; [reflexivity|constructor].
  - destruct (is_known f) eqn:Ek.
    + exists []. rewrite skip_unknown_known by assumption.
      split; [reflexivity|constructor].
    + exists (f :: skipped). rewrite skip_unknown_unknown by assumption.
      split; [cbn [app]; now f_equal|now constructor].
Qed.

Lemma skip_unknown_head f rest it :
  skip_unknown it = f :: rest -> is_known f = true.
Proof.
  induction it as [|f' it IH]; [discriminate|].
  destruct (is_known f') eqn:Ek.
  - rewrite skip_unknown_known by assumption. intros H; inversion H; now subst.
  - rewrite skip_unknown_unknown by assumption. exact IH.
Qed.

Lemma type_known f : is_known f = true -> type (Tile_Feature.type f) <> wkbUnknown.
Proof. unfold is_known. destruct (Tile_Feature.type f); discriminate. Qed.

(** What a call that returns can have done. *)
Lemma GetNextFeature_returns_inv l fo err l' :
  GetNextFeature isClockwise l = Returns fo err l' ->
  (fo = None /\ err = None /\ skip_unknown (ifeatures_ l) = [] /\
   l' = positioned l []) \/
  (exists f next e,
      skip_unknown (ifeatures_ l) = f :: next /\
      generateGeometry isClockwise f (trafo_ l) = Throw e /\
      fo = None /\ err = Some e /\ l' = positioned l (f :: next)) \/
  (exists f next g,
      skip_unknown (ifeatures_ l) = f :: next /\
      generateGeometry isClockwise f (trafo_ l) = Ok g /\
      fo = Some (feature_with l f g) /\ err = None /\ l' = positioned l next).
Proof.
  unfold GetNextFeature.
  destruct (skip_unknown (ifeatures_ l)) as [|f next] eqn:Hskip.
  - intros H; inversion H; subst. left. repeat split.
  - destruct (generateGeometry isClockwise f (trafo_ l)) as [g|e|] eqn:Hg;
      [|intros H; inversion H; subst; right; left; exists f, next, e;
        split; [reflexivity|]; split; [exact Hg|]; split; [reflexivity|];
        split; reflexivity
       |discriminate].
    assert (Hsrs : forall fo' err' l1,
               match srs_ l, g with
               | Some _, None => NullDereference
               | srs, _ =>
                   Returns
                     (Some (mkOGRFeature (type (Tile_Feature.type f))
                              (option_map GIntBig_of_uint64 (Tile_Feature.id f)) g
                              (match g with Some _ => srs | None => None end)))
                     None (mkLayer (srs_ l) (layer_ l) next (trafo_ l))
               end = Returns fo' err' l1 ->
               fo' = Some (feature_with l f g) /\ err' = None /\
               l1 = positioned l next).
    { intros fo' err' l1. unfold feature_with, positioned.
      destruct (srs_ l) as [s|], g as [g0|]; try discriminate;
        intros H; inversion H; subst; repeat split. }
    intros H. apply Hsrs in H. destruct H as (-> & -> & ->).
    right; right. exists f, next, g.
    split; [reflexivity|]. split; [exact Hg|]. repeat split.
Qed.

(** X10. A call of [GetNextFeature] that returns never hands out a
    feature of unknown type and never both a feature and a diagnostic; it
    moves the iterator forward only, over features of unknown type and at
    most one feature of known type, and leaves the layer otherwise as it
    was. *)
Theorem X10_GetNextFeature_moves_forward l fo err l' :
  GetNextFeature isClockwise l = Returns fo err l' ->
  (forall feature, fo = Some feature ->
                   GeomType feature <> wkbUnknown /\ err = None) /\
  layer_ l' = layer_ l /\ srs_ l' = srs_ l /\ trafo_ l' = trafo_ l /\
  exists skipped taken,
    ifeatures_ l = skipped ++ taken ++ ifeatures_ l' /\
    Forall (fun f => is_known f = false) skipped /\
    Forall (fun f => is_known f = true) taken /\
    (List.length taken <= 1)%nat /\
    (taken <> [] <-> fo <> None).
Proof.
  intros H. destruct (skip_unknown_suffix (ifeatures_ l)) as (skipped & Hit & Hsk).
  apply GetNextFeature_returns_inv in H.
  destruct H as [(-> & -> & Hskip & ->)
                |[(f & next & e & Hskip & _ & -> & -> & ->)
                 |(f & next & g & Hskip & _ & -> & -> & ->)]];
    rewrite Hskip in Hit.
  - split; [discriminate|]. repeat split.
    exists skipped, []. cbn [positioned ifeatures_ app].
    repeat split; try assumption; try constructor; try (cbn; lia); congruence.
  - split; [discriminate|]. repeat split.
    exists skipped, []. cbn [positioned ifeatures_ app].
    repeat split; try assumption; try constructor; try (cbn; lia); congruence.
  - pose proof (skip_unknown_head _ _ _ Hskip) as Hk. split.
    + intros feature Hf. inversion Hf; subst. split; [|reflexivity].
      cbn [feature_with GeomType]. now apply type_known.
    + repeat split. exists skipped, [f]. cbn [positioned ifeatures_ app].
      repeat split; try assumption; try (cbn; lia); try discriminate.
      now constructor.
Qed.

(** X11. A call of [GetNextFeature] that returns [nullptr] leaves the
    layer in a state where the next call does the same: it returns
    [nullptr] again, with the same diagnostic or with none, and does not
    move.  So the host's loop cannot get past the end of the layer or past
    a feature that fails. *)
Theorem X11_nullptr_is_final l err l' :
  GetNextFeature isClockwise l = Returns None err l' ->
  GetNextFeature isClockwise l' = Returns None err l'.
Proof.
  intros H. apply GetNextFeature_returns_inv in H.
  destruct H as [(_ & -> & Hskip & ->)
                |[(f & next & e & Hskip & Hthrow & _ & -> & ->)
                 |(f & next & g & _ & _ & Hfo & _)]]; [| |discriminate Hfo].
  - reflexivity.
  - assert (Hskip' : skip_unknown (ifeatures_ (positioned l (f :: next))) = f :: next).
    { cbn [positioned ifeatures_]. rewrite <- Hskip. apply skip_unknown_idem. }
    exact (GetNextFeature_throw isClockwise (positioned l (f :: next)) f next e
             Hskip' Hthrow).
Qed.

Lemma known_features_skip l it :
  known_features isClockwise l (skip_unknown it) = known_features isClockwise l it.
Proof.
  unfold known_features. induction it as [|f it IH]; [reflexivity|].
  destruct (is_known f) eqn:Ek.
  - now rewrite skip_unknown_known.
  - rewrite skip_unknown_unknown by assumption. cbn [filter]. now rewrite Ek.
Qed.

(** What the reading loop has collected when it ends. *)
Lemma readFeatures_prefix calls : forall l fs l',
  readFeatures isClockwise calls l = Some (fs, l') ->
  exists rest, known_features isClockwise l (ifeatures_ l) = fs ++ rest.
Proof.
  induction calls as [|calls IH]; intros l fs l' H; [discriminate|].
  cbn [readFeatures] in H.
  destruct (GetNextFeature isClockwise l) as [fo err l1| |] eqn:Hcall;
    try discriminate.
  pose proof (GetNextFeature_returns_inv _ _ _ _ Hcall) as Hinv.
  destruct fo as [feature|].
  - destruct (readFeatures isClockwise calls l1) as [[fs1 l2]|] eqn:Hrec;
      [|discriminate].
    inversion H; subst fs l'. clear H.
    destruct Hinv as [(Hfo & _)|[(f & next & e & _ & _ & Hfo & _)
                                |(f & next & g & Hskip & Hg & Hfo & _ & ->)]];
      try discriminate Hfo.
    inversion Hfo; subst feature.
    destruct (IH _ _ _ Hrec) as (rest & Hrest).
    exists rest.
    rewrite <- known_features_skip, Hskip.
    pose proof (skip_unknown_head _ _ _ Hskip) as Hk.
    unfold known_features in *. cbn [filter]. rewrite Hk. cbn [map app].
    cbn [positioned ifeatures_] in Hrest.
    assert (Eg : geometry_of isClockwise l f = g)
      by (unfold geometry_of; now rewrite Hg).
    rewrite Eg. f_equal. exact Hrest.
  - inversion H; subst fs l'. eexists. reflexivity.
Qed.

(** The reading loop ends within one call more than there are features
    left, unless a call runs into the null geometry that gets a spatial
    reference assigned. *)
Lemma readFeatures_returns l it : forall calls,
  (List.length it < calls)%nat ->
  (forall f, In f it ->
             is_known f = true ->
             generateGeometry isClockwise f (trafo_ l) = Ok None ->
             srs_ l = None) ->
  exists fs l', readFeatures isClockwise calls (positioned l it) = Some (fs, l').
Proof.
  induction it as [|f it IH]; intros calls Hcalls Hnull.
  - destruct calls as [|calls]; [simpl in Hcalls; lia|].
    eexists. eexists. reflexivity.
  - destruct calls as [|calls]; [simpl in Hcalls; lia|].
    cbn [List.length] in Hcalls.
    assert (Hnull' : forall f', In f' it -> is_known f' = true ->
                       generateGeometry isClockwise f' (trafo_ l) = Ok None ->
                       srs_ l = None)
      by (intros f' Hin; apply Hnull; right; exact Hin).
    destruct (is_known f) eqn:Ek.
    + pose proof (skip_unknown_known f it Ek) as Hskip.
      destruct (generateGeometry isClockwise f (trafo_ l)) as [g|e|] eqn:Hg.
      * assert (Hsrs : srs_ l = None \/ g <> None).
        { destruct g as [g|]; [right; discriminate|left].
          apply (Hnull f); [left; reflexivity|exact Ek|exact Hg]. }
        cbn [readFeatures].
        rewrite (GetNextFeature_ok isClockwise (positioned l (f :: it)) f it g
                   Hskip Hg Hsrs).
        change (positioned (positioned l (f :: it)) it) with (positioned l it).
        destruct (IH calls ltac:(lia) Hnull') as (fs & l' & Hrec).
        rewrite Hrec. eexists. eexists. reflexivity.
      * cbn [readFeatures].
        rewrite (GetNextFeature_throw isClockwise (positioned l (f :: it)) f it e
                   Hskip Hg).
        eexists. eexists. reflexivity.
      * exfalso. exact (generateGeometry_bounded isClockwise f (trafo_ l) Hg).
    + assert (Hsame : readFeatures isClockwise (S calls) (positioned l (f :: it))
                      = readFeatures isClockwise (S calls) (positioned l it)).
      { cbn [readFeatures].
        rewrite (GetNextFeature_skip isClockwise (positioned l (f :: it))).
        rewrite (GetNextFeature_skip isClockwise (positioned l it)).
        cbn [positioned ifeatures_ srs_ layer_ trafo_].
        now rewrite skip_unknown_unknown. }
      rewrite Hsame. apply IH; [lia|exact Hnull'].
Qed.

Lemma known_features_length l it :
  (List.length (known_features isClockwise l it) <= List.length it)%nat.
Proof.
  unfold known_features. rewrite length_map. apply filter_length_le.
Qed.

(** X12. Whatever the layer holds, what the host's reading loop has
    collected when it ends is a prefix of the features of known type, in
    declaration order: no feature of known type is passed over for a
    later one, none is returned twice.  And the loop does end: unless the
    layer has a spatial reference and a feature of known type with a null
    geometry (the call then goes through the null pointer), one call more
    than there are features left is enough, so no feature is returned
    again and again. *)
Theorem X12_reading_yields_a_prefix l :
  (forall calls fs l',
      readFeatures isClockwise calls l = Some (fs, l') ->
      exists rest, known_features isClockwise l (ifeatures_ l) = fs ++ rest) /\
  ((forall f, In f (ifeatures_ l) ->
              is_known f = true ->
              generateGeometry isClockwise f (trafo_ l) = Ok None ->
              srs_ l = None) ->
   forall calls,
     (List.length (ifeatures_ l) < calls)%nat ->
     exists fs l' rest,
       readFeatures isClockwise calls l = Some (fs, l') /\
       known_features isClockwise l (ifeatures_ l) = fs ++ rest /\
       (List.length fs <= List.length (ifeatures_ l))%nat).
Proof.
  split.
  - intros calls fs l'. apply readFeatures_prefix.
  - intros Hnull calls Hcalls.
    destruct (readFeatures_returns l (ifeatures_ l) calls Hcalls Hnull)
      as (fs & l' & Hread).
    replace (positioned l (ifeatures_ l)) with l in Hread
      by (destruct l; reflexivity).
    destruct (readFeatures_prefix _ _ _ _ Hread) as (rest & Hrest).
    exists fs, l', rest. split; [exact Hread|]. split; [exact Hrest|].
    pose proof (known_features_length l (ifeatures_ l)) as Hlen.
    rewrite Hrest, length_app in Hlen. lia.
Qed.

End LayerInvariants.

Lemma X10_GetNextFeature_moves_forward_witness :
  let l := Layer_new dzero (plain_dataset [unknown_point_unknown_point])
             unknown_point_unknown_point in
  let l' := positioned l
              [Tile_Feature.mk None Tile_GeomType_UNKNOWN [9; 1; 1];
               Tile_Feature.mk (Some 8) Tile_GeomType_POINT [17; 1; 2; 3; 4]] in
  GetNextFeature clockwise_by_area l
  = Returns (Some (mkOGRFeature wkbPoint (Some 7) (Some (Point 3 5)) None)) None l' /\
  layer_ l' = layer_ l /\
  exists skipped taken,
    ifeatures_ l = skipped ++ taken ++ ifeatures_ l' /\
    Forall (fun f => is_known f = false) skipped /\
    Forall (fun f => is_known f = true) taken /\
    (List.length taken <= 1)%nat.
Proof.
  intros l l'.
  assert (Hcall : GetNextFeature clockwise_by_area l
                  = Returns (Some (mkOGRFeature wkbPoint (Some 7) (Some (Point 3 5)) None))
                            None l') by reflexivity.
  split; [exact Hcall|].
  destruct (X10_GetNextFeature_moves_forward clockwise_by_area l _ _ l' Hcall)
    as (_ & Hlayer & _ & _ & skipped & taken & Hit & Hskipped & Htaken & Hlen & _).
  split; [exact Hlayer|].
  exists skipped, taken. repeat split; assumption.
Defined.

Lemma X11_nullptr_is_final_witness :
  let tl := Tile_Layer.mk "roads"%string 4096
              [Tile_Feature.mk None Tile_GeomType_UNKNOWN [];
               Tile_Feature.mk (Some 1) Tile_GeomType_POINT [];
               Tile_Feature.mk (Some 2) Tile_GeomType_POINT [9; 3; 5]] in
  let l := Layer_new dzero (plain_dataset [tl]) tl in
  let l' := positioned l
              [Tile_Feature.mk (Some 1) Tile_GeomType_POINT [];
               Tile_Feature.mk (Some 2) Tile_GeomType_POINT [9; 3; 5]] in
  GetNextFeature clockwise_by_area l = Returns None (Some CommandPastEnd) l' /\
  GetNextFeature clockwise_by_area l' = Returns None (Some CommandPastEnd) l'.
Proof.
  intros tl l l'.
  assert (Hcall : GetNextFeature clockwise_by_area l
                  = Returns None (Some CommandPastEnd) l') by reflexivity.
  split; [exact Hcall|].
  exact (X11_nullptr_is_final clockwise_by_area l _ l' Hcall).
Defined.

Lemma X12_reading_yields_a_prefix_witness :
  let l := Layer_new dzero (plain_dataset [unknown_point_unknown_point])
             unknown_point_unknown_point in
  (List.length (ifeatures_ l) < 5)%nat /\
  readFeatures clockwise_by_area 3 l
  = Some ([mkOGRFeature wkbPoint (Some 7) (Some (Point 3 5)) None;
           mkOGRFeature wkbPoint (Some 8)
             (Some (GeometryCollection [Point 1 2; Point 4 6])) None],
          positioned l []) /\
  (exists rest,
      known_features clockwise_by_area l (ifeatures_ l)
      = [mkOGRFeature wkbPoint (Some 7) (Some (Point 3 5)) None;
         mkOGRFeature wkbPoint (Some 8)
           (Some (GeometryCollection [Point 1 2; Point 4 6])) None] ++ rest) /\
  (exists fs l' rest,
      readFeatures clockwise_by_area 5 l = Some (fs, l') /\
      known_features clockwise_by_area l (ifeatures_ l) = fs ++ rest /\
      (List.length fs <= List.length (ifeatures_ l))%nat).
Proof.
  intros l.
  assert (Hread : readFeatures clockwise_by_area 3 l
                  = Some ([mkOGRFeature wkbPoint (Some 7) (Some (Point 3 5)) None;
                           mkOGRFeature wkbPoint (Some 8)
                             (Some (GeometryCollection [Point 1 2; Point 4 6])) None],
                          positioned l [])) by reflexivity.
  destruct (X12_reading_yields_a_prefix clockwise_by_area l) as [Hprefix Hends].
  split; [cbn; lia|]. split; [exact Hread|]. split.
  - exact (Hprefix 3%nat _ _ Hread).
  - apply Hends; [intros f _ _ _; reflexivity|cbn; lia].
Defined.

(** ** The layers of the dataset *)

Lemma set_slot_length {A} (v : list A) : forall i x,
  List.length (set_slot v i x) = List.length v.
Proof.
  induction v as [|a v IH]; intros [|i] x; cbn [set_slot List.length]; auto.
Qed.

Lemma nth_error_set_slot_same {A} (v : list A) : forall i x,
  (i < List.length v)%nat -> nth_error (set_slot v i x) i = Some x.
Proof.
  induction v as [|a v IH]; intros [|i] x Hi; cbn [List.length] in Hi; try lia.
  - reflexivity.
  - cbn [set_slot nth_error]. apply IH. lia.
Qed.

Lemma nth_error_set_slot_other {A} (v : list A) : forall i j x,
  i <> j -> nth_error (set_slot v i x) j = nth_error v j.
Proof.
  induction v as [|a v IH]; intros [|i] [|j] x Hij; cbn [set_slot nth_error];
    try reflexivity; try congruence.
  apply IH. congruence.
Qed.

Section DatasetProperties.

Variable shift0_default : double.

Lemma create_layer_spec st i tl :
  slots_match st ->
  nth_error (tile_ (dataset st)) i = Some tl ->
  let st' := create_layer shift0_default st i tl in
  dataset st' = dataset st /\
  slots_match st' /\
  (exists layer,
      nth_error (layers_ st') i = Some (Some layer) /\ layer_ layer = tl) /\
  (forall j, j <> i -> nth_error (layers_ st') j = nth_error (layers_ st) j) /\
  (forall old, nth_error (layers_ st) i = Some (Some old) -> st' = st) /\
  (nth_error (layers_ st) i = Some None ->
   nth_error (layers_ st') i
   = Some (Some (Layer_new shift0_default (dataset st) tl))).
Proof.
  intros [Hlen Hslots] Htl st'.
  assert (Hi : (i < List.length (layers_ st))%nat).
  { rewrite Hlen. apply nth_error_Some. congruence. }
  unfold st', create_layer.
  destruct (nth_error (layers_ st) i) as [[old|]|] eqn:Hslot.
  - split; [reflexivity|]. split; [split; assumption|].
    split; [exists old; split; [exact Hslot|]|].
    + specialize (Hslots i old Hslot). congruence.
    + repeat split; try reflexivity. intros H; discriminate H.
  - cbn [dataset layers_]. split; [reflexivity|]. split.
    { unfold slots_match. cbn [dataset layers_].
      split; [now rewrite set_slot_length|].
      intros j l Hj. destruct (Nat.eq_dec i j) as [<-|Hne].
      - rewrite nth_error_set_slot_same in Hj by assumption.
        inversion Hj; subst l. exact Htl.
      - rewrite nth_error_set_slot_other in Hj by assumption. now apply Hslots. }
    split.
    { eexists. split; [now apply nth_error_set_slot_same|reflexivity]. }
    split.
    { intros j Hj. apply nth_error_set_slot_other. congruence. }
    split; [intros old H; discriminate H|].
    intros _. now apply nth_error_set_slot_same.
  - exfalso. apply nth_error_None in Hslot. lia.
Qed.

(** X13. [GetLayer] returns [nullptr] for a negative index and for an
    index that is not below the number of layers, and changes nothing
    then.  For an index in range it returns the layer of that slot, made
    for the tile layer of the same index when the slot was empty and left
    as it is (its reading position included) when it was not; the other
    slots are not touched. *)
Theorem X13_GetLayer st l :
  slots_match st ->
  let count := Z.of_nat (List.length (tile_ (dataset st))) in
  (l < 0 \/ count <= l -> GetLayer shift0_default st l = (None, st)) /\
  (0 <= l < count ->
   exists st' layer tl,
     GetLayer shift0_default st l = (Some (Z.to_nat l), st') /\
     nth_error (tile_ (dataset st)) (Z.to_nat l) = Some tl /\
     nth_error (layers_ st') (Z.to_nat l) = Some (Some layer) /\
     layer_ layer = tl /\
     dataset st' = dataset st /\ slots_match st' /\
     (forall j, j <> Z.to_nat l ->
                nth_error (layers_ st') j = nth_error (layers_ st) j) /\
     (forall old, nth_error (layers_ st) (Z.to_nat l) = Some (Some old) ->
                  st' = st) /\
     (nth_error (layers_ st) (Z.to_nat l) = Some None ->
      layer = Layer_new shift0_default (dataset st) tl)).
Proof.
  intros Hst count. pose proof Hst as [Hlen _]. unfold GetLayer. split.
  - intros Hout.
    assert (E : ((l <? 0) || (l >=? Z.of_nat (List.length (layers_ st)))) = true).
    { rewrite Hlen. fold count. apply orb_true_iff. lia. }
    now rewrite E.
  - intros Hin.
    assert (E : ((l <? 0) || (l >=? Z.of_nat (List.length (layers_ st)))) = false).
    { rewrite Hlen. fold count. apply orb_false_iff. lia. }
    rewrite E.
    destruct (nth_error (tile_ (dataset st)) (Z.to_nat l)) as [tl|] eqn:Htl.
    + destruct (create_layer_spec st (Z.to_nat l) tl Hst Htl)
        as (Hds & Hst' & (layer & Hslot & Hlayer) & Hother & Hkept & Hnew).
      exists (create_layer shift0_default st (Z.to_nat l) tl), layer, tl.
      repeat split; try assumption; try (apply Hst').
      intros Hempty. specialize (Hnew Hempty). congruence.
    + exfalso. apply nth_error_None in Htl. unfold count in Hin. lia.
Qed.

Lemma GetLayerByName_from_spec st name tls : forall i,
  GetLayerByName_from shift0_default st tls i name
  = match first_named tls i name with
    | Some k =>
        match nth_error tls (k - i) with
        | Some tl => (Some k, create_layer shift0_default st k tl)
        | None => (None, st)
        end
    | None => (None, st)
    end.
Proof.
  induction tls as [|tl tls IH]; intros i; [reflexivity|].
  cbn [GetLayerByName_from first_named].
  destruct (String.eqb (Tile_Layer.name tl) name) eqn:E.
  - now rewrite Nat.sub_diag.
  - rewrite IH. destruct (first_named tls (S i) name) as [k|] eqn:Hk; [|reflexivity].
    assert (Hle : (S i <= k)%nat).
    { clear -Hk. revert i k Hk. induction tls as [|t tls IH]; intros i k Hk;
        [discriminate|].
      cbn [first_named] in Hk. destruct (String.eqb _ _).
      - inversion Hk; lia.
      - apply IH in Hk. lia. }
    replace (k - i)%nat with (S (k - S i)) by lia. reflexivity.
Qed.

Lemma first_named_spec name tls : forall i k,
  first_named tls i name = Some k ->
  (i <= k < i + List.length tls)%nat /\
  (exists tl, nth_error tls (k - i) = Some tl /\ Tile_Layer.name tl = name) /\
  (forall j tl, (j < k - i)%nat -> nth_error tls j = Some tl ->
                Tile_Layer.name tl <> name).
Proof.
  induction tls as [|t tls IH]; intros i k Hk; [discriminate|].
  cbn [first_named] in Hk.
  destruct (String.eqb (Tile_Layer.name t) name) eqn:E.
  - inversion Hk; subst k. rewrite Nat.sub_diag. cbn [List.length].
    split; [lia|]. split.
    + exists t. split; [reflexivity|now apply String.eqb_eq].
    + intros j tl Hj. lia.
  - apply IH in Hk. destruct Hk as (Hr & (tl & Hn & Hname) & Hbefore).
    cbn [List.length]. split; [lia|].
    replace (k - i)%nat with (S (k - S i)) by lia. split.
    + exists tl. split; [exact Hn|exact Hname].
    + intros [|j] tl' Hj Hnth.
      * inversion Hnth; subst tl'. now apply String.eqb_neq.
      * cbn [nth_error] in Hnth. apply (Hbefore j tl'); [lia|exact Hnth].
Qed.

Lemma first_named_none name tls : forall i,
  first_named tls i name = None ->
  Forall (fun tl => Tile_Layer.name tl <> name) tls.
Proof.
  induction tls as [|t tls IH]; intros i H; [constructor|].
  cbn [first_named] in H.
  destruct (String.eqb (Tile_Layer.name t) name) eqn:E; [discriminate|].
  constructor; [now apply String.eqb_neq|eapply IH, H].
Qed.

(** X14. [GetLayerByName] does what [GetLayer] does for the index of the
    first layer of the tile that has the name: it returns that layer,
    creating it if it was not yet created; a later layer of the same name
    is never returned.  When no layer has the name it returns [nullptr]
    and changes nothing. *)
Theorem X14_GetLayerByName st name :
  slots_match st ->
  match first_named (tile_ (dataset st)) 0 name with
  | Some k =>
      GetLayerByName shift0_default st name
      = GetLayer shift0_default st (Z.of_nat k) /\
      (exists tl,
          nth_error (tile_ (dataset st)) k = Some tl /\ Tile_Layer.name tl = name) /\
      (forall j tl, (j < k)%nat -> nth_error (tile_ (dataset st)) j = Some tl ->
                    Tile_Layer.name tl <> name)
  | None =>
      GetLayerByName shift0_default st name = (None, st) /\
      Forall (fun tl => Tile_Layer.name tl <> name) (tile_ (dataset st))
  end.
Proof.
  intros Hst. pose proof Hst as [Hlen _].
  unfold GetLayerByName. rewrite GetLayerByName_from_spec.
  destruct (first_named (tile_ (dataset st)) 0 name) as [k|] eqn:Hk.
  - destruct (first_named_spec _ _ _ _ Hk) as (Hr & (tl & Hn & Hname) & Hbefore).
    rewrite Nat.sub_0_r in Hn, Hbefore. rewrite Nat.sub_0_r, Hn.
    split; [|split; [exists tl; split; [reflexivity|assumption]|exact Hbefore]].
    unfold GetLayer.
    assert (E : ((Z.of_nat k <? 0)
                 || (Z.of_nat k >=? Z.of_nat (List.length (layers_ st)))) = false).
    { apply orb_false_iff. rewrite Hlen. lia. }
    rewrite E, Nat2Z.id, Hn. reflexivity.
  - split; [reflexivity|]. eapply first_named_none, Hk.
Qed.

(** The constructor gives a dataset whose slots match its tile. *)
Lemma MvtDataset_new_slots_match ds : slots_match (MvtDataset_new ds).
Proof.
  unfold MvtDataset_new. split; cbn [layers_ dataset].
  - apply repeat_length.
  - intros i l H. exfalso.
    assert (Hin : In (Some l) (repeat None (List.length (tile_ ds))))
      by (eapply nth_error_In, H).
    apply repeat_spec in Hin. discriminate Hin.
Qed.

End DatasetProperties.

Lemma X13_GetLayer_witness :
  let st := MvtDataset_new three_layers in
  slots_match st /\
  GetLayer dzero st 3 = (None, st) /\
  GetLayer dzero st (-1) = (None, st) /\
  exists st',
    GetLayer dzero st 1 = (Some 1%nat, st') /\
    layers_ st'
    = [None; Some (Layer_new dzero three_layers broken_then_point); None] /\
    GetLayer dzero st' 1 = (Some 1%nat, st').
Proof.
  intros st.
  pose proof (MvtDataset_new_slots_match three_layers) as Hst.
  split; [exact Hst|].
  destruct (X13_GetLayer dzero st 3 Hst) as [Hout _].
  destruct (X13_GetLayer dzero st (-1) Hst) as [Hneg _].
  split; [apply Hout; right; cbn; lia|].
  split; [apply Hneg; left; lia|].
  eexists. split; [reflexivity|]. split; reflexivity.
Defined.

Lemma X14_GetLayerByName_witness :
  let st := MvtDataset_new three_layers in
  slots_match st /\
  GetLayerByName dzero st "places"%string = GetLayer dzero st 0 /\
  GetLayerByName dzero st "roads"%string = GetLayer dzero st 1 /\
  GetLayerByName dzero st "rivers"%string = (None, st).
Proof.
  intros st.
  pose proof (MvtDataset_new_slots_match three_layers) as Hst.
  split; [exact Hst|].
  pose proof (X14_GetLayerByName dzero st "places"%string Hst) as H1.
  pose proof (X14_GetLayerByName dzero st "roads"%string Hst) as H2.
  pose proof (X14_GetLayerByName dzero st "rivers"%string Hst) as H3.
  split; [exact (proj1 H1)|]. split; [exact (proj1 H2)|exact (proj1 H3)].
Defined.

(** ** The tile address of an MBTiles path *)

Lemma isDigit_range c :
  mbtiles.isDigit c = true -> 0 <= mbtiles.positive c <= 9.
Proof.
  unfold mbtiles.isDigit, mbtiles.positive. intros H.
  apply andb_true_iff in H. destruct H as [H1 H2].
  apply Nat.leb_le in H1, H2. cbn in H1, H2 |- *. lia.
Qed.

Lemma isDigit_not c d :
  mbtiles.isDigit d = false -> mbtiles.isDigit c = true -> c <> d.
Proof. intros Hd Hc ->. congruence. Qed.

Lemma value_of_nonneg s :
  Forall (fun c => mbtiles.isDigit c = true) s -> 0 <= mbtiles.value_of s.
Proof.
  induction 1 as [|c s Hc _ IH]; cbn [mbtiles.value_of]; [lia|].
  apply isDigit_range in Hc.
  assert (0 <= 10 ^ Z.of_nat (List.length s)) by (apply Z.pow_nonneg; lia).
  nia.
Qed.

Lemma value_of_bound s :
  Forall (fun c => mbtiles.isDigit c = true) s ->
  mbtiles.value_of s < 10 ^ Z.of_nat (List.length s).
Proof.
  induction 1 as [|c s Hc _ IH]; cbn [mbtiles.value_of List.length]; [cbn; lia|].
  apply isDigit_range in Hc.
  rewrite Nat2Z.inj_succ, Z.pow_succ_r by lia. nia.
Qed.

Lemma wrap32_horner v d k r :
  wrap32 (wrap32 (wrap32 (v * 10) + d) * k + r) = wrap32 (v * (10 * k) + (d * k + r)).
Proof.
  unfold wrap32.
  rewrite Z.add_mod_idemp_l by (unfold uint32_modulus; lia).
  rewrite <- Z.add_mod_idemp_l by (unfold uint32_modulus; lia).
  rewrite Z.mul_mod_idemp_l by (unfold uint32_modulus; lia).
  rewrite Z.add_mod_idemp_l by (unfold uint32_modulus; lia).
  f_equal. ring.
Qed.

(** The loop takes the digits in front and stops at the first character
    that is not one. *)
Lemma digits_run s : forall e v d,
  Forall (fun c => mbtiles.isDigit c = true) s ->
  mbtiles.isDigit (mbtiles.peek e) = false ->
  v = wrap32 v ->
  mbtiles.digits mbtiles.positive (s ++ e) v d
  = (wrap32 (v * 10 ^ Z.of_nat (List.length s) + mbtiles.value_of s), e,
     d + Z.of_nat (List.length s)).
Proof.
  induction s as [|c s IH]; intros e v d Hs He Hv.
  - cbn [app List.length mbtiles.value_of]. cbn [Z.of_nat].
    rewrite Z.pow_0_r, Z.mul_1_r, !Z.add_0_r, <- Hv.
    destruct e as [|c e]; [reflexivity|].
    cbn [mbtiles.digits]. cbn [mbtiles.peek] in He. now rewrite He.
  - inversion Hs as [|? ? Hc Hs']; subst.
    cbn [app mbtiles.digits]. rewrite Hc.
    rewrite IH; [|assumption|assumption|symmetry; apply wrap32_idem].
    cbn [List.length mbtiles.value_of].
    rewrite wrap32_horner.
    rewrite Nat2Z.inj_succ, Z.pow_succ_r by lia.
    f_equal. lia.
Qed.

Lemma digits_stop p :
  exists s e,
    p = s ++ e /\ Forall (fun c => mbtiles.isDigit c = true) s /\
    mbtiles.isDigit (mbtiles.peek e) = false.
Proof.
  induction p as [|c p IH].
  - exists [], []. repeat split; constructor.
  - destruct (mbtiles.isDigit c) eqn:Hc.
    + destruct IH as (s & e & -> & Hs & He).
      exists (c :: s), e. repeat split; [constructor; assumption|assumption].
    + exists [], (c :: p). repeat split; [constructor|exact Hc].
Qed.

Lemma digits_split s s' e e' :
  Forall (fun c => mbtiles.isDigit c = true) s ->
  mbtiles.isDigit (mbtiles.peek e) = false ->
  Forall (fun c => mbtiles.isDigit c = true) s' ->
  mbtiles.isDigit (mbtiles.peek e') = false ->
  s ++ e = s' ++ e' -> s = s' /\ e = e'.
Proof.
  intros Hs He. revert s' e'.
  induction Hs as [|c s Hc Hs IH]; intros s' e' Hs' He' Heq.
  - destruct Hs' as [|c' s' Hc' Hs']; [auto|].
    cbn in Heq. subst e. cbn in He. congruence.
  - destruct Hs' as [|c' s' Hc' Hs'].
    + cbn in Heq. subst e'. cbn in He'. congruence.
    + cbn in Heq. injection Heq as -> Heq.
      destruct (IH s' e' Hs' He' Heq) as [-> ->]. auto.
Qed.

Lemma peek_app s e : s <> [] -> mbtiles.peek (s ++ e) = mbtiles.peek s.
Proof. destruct s; [congruence|reflexivity]. Qed.

Lemma numeral_head s :
  mbtiles.numeral s ->
  mbtiles.isDigit (mbtiles.peek s) = true.
Proof.
  intros (Hne & Hs & _). destruct s as [|c s]; [congruence|].
  inversion Hs; assumption.
Qed.

(** [parsePart<1>] takes a decimal numeral off the front. *)
Lemma parsePart_numeral p v0 rest v :
  mbtiles.parsePart 1 p v0 = (Some rest, v) <->
  exists s,
    p = s ++ rest /\ mbtiles.numeral s /\
    mbtiles.isDigit (mbtiles.peek rest) = false /\
    v = wrap32 (mbtiles.value_of s).
Proof.
  unfold mbtiles.parsePart, mbtiles.parsePartImpl. split.
  - intros H.
    destruct (Ascii.eqb (mbtiles.peek p) mbtiles.dash
              || Ascii.eqb (mbtiles.peek p) mbtiles.plus); [discriminate|].
    destruct (digits_stop p) as (s & e & -> & Hs & He).
    rewrite (digits_run s e 0 0 Hs He eq_refl) in H.
    rewrite Z.mul_0_l, !Z.add_0_l in H.
    destruct (Z.of_nat (List.length s) <? 1) eqn:Hlen; [discriminate|].
    apply Z.ltb_ge in Hlen.
    assert (Hne : s <> []) by (intros ->; cbn in Hlen; lia).
    rewrite (peek_app s e Hne) in H.
    destruct (Ascii.eqb (mbtiles.peek s) mbtiles.digit0
              && (Z.of_nat (List.length s) >? 1)) eqn:Hp; [discriminate|].
    injection H as <- <-.
    exists s. repeat split; try assumption.
    intros H0. apply andb_false_iff in Hp. destruct Hp as [Hp|Hp].
    + rewrite H0, Ascii.eqb_refl in Hp. discriminate.
    + rewrite Z.gtb_ltb in Hp. apply Z.ltb_ge in Hp. lia.
  - intros (s & -> & Hnum & He & ->).
    pose proof (numeral_head s Hnum) as Hhead.
    destruct Hnum as (Hne & Hs & Hzero).
    rewrite (peek_app s rest Hne).
    assert (Hd : Ascii.eqb (mbtiles.peek s) mbtiles.dash = false).
    { apply Ascii.eqb_neq.
      apply (isDigit_not _ mbtiles.dash eq_refl Hhead). }
    assert (Hpl : Ascii.eqb (mbtiles.peek s) mbtiles.plus = false).
    { apply Ascii.eqb_neq.
      apply (isDigit_not _ mbtiles.plus eq_refl Hhead). }
    rewrite Hd, Hpl. cbn [orb].
    rewrite (digits_run s rest 0 0 Hs He eq_refl).
    rewrite Z.mul_0_l, !Z.add_0_l.
    assert (Hlen : (Z.of_nat (List.length s) <? 1) = false).
    { apply Z.ltb_ge. destruct s; [congruence|cbn [List.length]; lia]. }
    rewrite Hlen.
    destruct (Ascii.eqb (mbtiles.peek s) mbtiles.digit0) eqn:H0; [|reflexivity].
    apply Ascii.eqb_eq in H0. rewrite (Hzero H0). reflexivity.
Qed.

(** A part that does not start with a digit is refused, and the value is
    zero or untouched. *)
Lemma parsePart_no_digit p :
  mbtiles.isDigit (mbtiles.peek p) = false ->
  mbtiles.parsePart 1 p 0 = (None, 0).
Proof.
  intros H. unfold mbtiles.parsePart, mbtiles.parsePartImpl.
  destruct (Ascii.eqb (mbtiles.peek p) mbtiles.dash
            || Ascii.eqb (mbtiles.peek p) mbtiles.plus); [reflexivity|].
  pose proof (digits_run [] p 0 0 (Forall_nil _) H eq_refl) as Hrun.
  cbn [app] in Hrun. rewrite Hrun. reflexivity.
Qed.

Lemma parse_accepts sz sc sr rest z0 c0 r0 :
  mbtiles.numeral sz -> mbtiles.numeral sc -> mbtiles.numeral sr ->
  mbtiles.peek rest = mbtiles.NUL ->
  mbtiles.parse (sz ++ mbtiles.dash :: sc ++ mbtiles.dash :: sr ++ rest) z0 c0 r0
  = (true, (wrap32 (mbtiles.value_of sz), wrap32 (mbtiles.value_of sc),
            wrap32 (mbtiles.value_of sr))).
Proof.
  intros Hsz Hsc Hsr Hend. unfold mbtiles.parse.
  assert (H1 : mbtiles.parsePart 1
                 (sz ++ mbtiles.dash :: sc ++ mbtiles.dash :: sr ++ rest) z0
               = (Some (mbtiles.dash :: sc ++ mbtiles.dash :: sr ++ rest),
                  wrap32 (mbtiles.value_of sz))).
  { apply parsePart_numeral. exists sz.
    split; [reflexivity|split; [assumption|split; reflexivity]]. }
  rewrite H1. cbn [mbtiles.peek tl]. rewrite Ascii.eqb_refl. cbn [negb].
  assert (H2 : mbtiles.parsePart 1 (sc ++ mbtiles.dash :: sr ++ rest) c0
               = (Some (mbtiles.dash :: sr ++ rest),
                  wrap32 (mbtiles.value_of sc))).
  { apply parsePart_numeral. exists sc.
    split; [reflexivity|split; [assumption|split; reflexivity]]. }
  rewrite H2. cbn [mbtiles.peek tl]. rewrite Ascii.eqb_refl. cbn [negb].
  assert (H3 : mbtiles.parsePart 1 (sr ++ rest) r0
               = (Some rest, wrap32 (mbtiles.value_of sr))).
  { apply parsePart_numeral. exists sr.
    split; [reflexivity|split; [assumption|split; [|reflexivity]]].
    rewrite Hend. reflexivity. }
  rewrite H3, Hend. reflexivity.
Qed.

(** X15. [parse] accepts exactly the strings [zoom-col-row] of three
    decimal numerals followed by the end of the string: each numeral has
    at least one digit, no sign and no zero in front of other digits.
    The three values are the numbers the numerals denote, reduced modulo
    2^32: a numeral that does not fit an [unsigned int] is accepted. *)
Theorem X15_parse_grammar p z0 c0 r0 z c r :
  mbtiles.parse p z0 c0 r0 = (true, (z, c, r)) <->
  exists sz sc sr rest,
    p = sz ++ mbtiles.dash :: sc ++ mbtiles.dash :: sr ++ rest /\
    mbtiles.numeral sz /\ mbtiles.numeral sc /\ mbtiles.numeral sr /\
    mbtiles.peek rest = mbtiles.NUL /\
    z = wrap32 (mbtiles.value_of sz) /\
    c = wrap32 (mbtiles.value_of sc) /\
    r = wrap32 (mbtiles.value_of sr).
Proof.
  unfold mbtiles.parse. split.
  - intros H.
    destruct (mbtiles.parsePart 1 p z0) as [[p1|] z1] eqn:H1; [|discriminate].
    apply parsePart_numeral in H1. destruct H1 as (sz & -> & Hsz & _ & ->).
    destruct (Ascii.eqb (mbtiles.peek p1) mbtiles.dash) eqn:Hd1; [|discriminate].
    cbn [negb] in H. apply Ascii.eqb_eq in Hd1.
    destruct p1 as [|d1 p1]; [discriminate Hd1|]. cbn in Hd1. subst d1.
    cbn [tl] in H.
    destruct (mbtiles.parsePart 1 p1 c0) as [[p2|] c1] eqn:H2; [|discriminate].
    apply parsePart_numeral in H2. destruct H2 as (sc & -> & Hsc & _ & ->).
    destruct (Ascii.eqb (mbtiles.peek p2) mbtiles.dash) eqn:Hd2; [|discriminate].
    cbn [negb] in H. apply Ascii.eqb_eq in Hd2.
    destruct p2 as [|d2 p2]; [discriminate Hd2|]. cbn in Hd2. subst d2.
    cbn [tl] in H.
    destruct (mbtiles.parsePart 1 p2 r0) as [[p3|] r1] eqn:H3; [|discriminate].
    apply parsePart_numeral in H3. destruct H3 as (sr & -> & Hsr & _ & ->).
    injection H as Hend <- <- <-. apply Ascii.eqb_eq in Hend.
    exists sz, sc, sr, p3. split; [reflexivity|].
    do 3 (split; [assumption|]). split; [exact Hend|]. repeat split.
  - intros (sz & sc & sr & rest & -> & Hsz & Hsc & Hsr & Hend & -> & -> & ->).
    now apply parse_accepts.
Qed.

Lemma strrchr_slash_none s :
  Forall (fun c => c <> mbtiles.slash) s -> mbtiles.strrchr_slash s = None.
Proof.
  induction 1 as [|c s Hc _ IH]; [reflexivity|].
  cbn [mbtiles.strrchr_slash]. rewrite IH.
  destruct (Ascii.eqb c mbtiles.NUL); [reflexivity|].
  apply Ascii.eqb_neq in Hc. now rewrite Hc.
Qed.

Lemma strrchr_slash_last archive last :
  mbtiles.c_string archive ->
  Forall (fun c => c <> mbtiles.slash) last ->
  mbtiles.strrchr_slash (archive ++ mbtiles.slash :: last) = Some (archive, last).
Proof.
  intros Ha Hl. induction Ha as [|c archive Hc _ IH].
  - cbn [app mbtiles.strrchr_slash]. rewrite (strrchr_slash_none last Hl).
    reflexivity.
  - cbn [app mbtiles.strrchr_slash]. rewrite IH.
    apply Ascii.eqb_neq in Hc. now rewrite Hc.
Qed.

Lemma numeral_no_slash s :
  mbtiles.numeral s -> Forall (fun c => c <> mbtiles.slash) s.
Proof.
  intros (_ & Hs & _). eapply Forall_impl; [|exact Hs].
  intros c Hc. apply (isDigit_not _ mbtiles.slash eq_refl Hc).
Qed.

Lemma wrap32_small z : 0 <= z < uint32_modulus -> wrap32 z = z.
Proof. intros H. unfold wrap32. now apply Z.mod_small. Qed.

(** X16. For a path [archive/zoom-col-row] whose last element is made of
    three decimal numerals, with a zoom of at most 30 and a column and a
    row inside the grid of that zoom, [loadFromMbTilesArchive] reports
    nothing and looks up, in the archive named by the path in front of
    the last slash, the tile of that zoom and column whose row is counted
    from the other side: [2^zoom - 1 - row], again a row of the grid. *)
Theorem X16_address_of_path lib archive sz sc sr :
  mbtiles.c_string archive ->
  mbtiles.numeral sz -> mbtiles.numeral sc -> mbtiles.numeral sr ->
  let zoom := mbtiles.value_of sz in
  let col := mbtiles.value_of sc in
  let row := mbtiles.value_of sr in
  zoom <= 30 -> col < 2 ^ zoom -> row < 2 ^ zoom ->
  mbtiles.loadFromMbTilesArchive lib
    (archive ++ mbtiles.slash :: sz ++ mbtiles.dash :: sc ++ mbtiles.dash :: sr)
  = mbtiles.load lib archive zoom col (2 ^ zoom - 1 - row) [] /\
  0 <= 2 ^ zoom - 1 - row < 2 ^ zoom.
Proof.
  intros Ha Hsz Hsc Hsr zoom col row Hz Hc Hr.
  assert (Hz0 : 0 <= zoom) by (apply value_of_nonneg, Hsz).
  assert (Hc0 : 0 <= col) by (apply value_of_nonneg, Hsc).
  assert (Hr0 : 0 <= row) by (apply value_of_nonneg, Hsr).
  assert (Hpow : 2 ^ zoom <= 2 ^ 30) by (apply Z.pow_le_mono_r; lia).
  assert (Hpos : 0 < 2 ^ zoom) by (apply Z.pow_pos_nonneg; lia).
  assert (Hm : uint32_modulus = 2 ^ 32) by reflexivity.
  assert (H30 : 2 ^ 30 < 2 ^ 32) by (apply Z.pow_lt_mono_r; lia).
  split; [|lia].
  unfold mbtiles.loadFromMbTilesArchive.
  rewrite strrchr_slash_last; [|exact Ha|].
  2:{ apply Forall_app. split; [now apply numeral_no_slash|].
      constructor; [discriminate|].
      apply Forall_app. split; [now apply numeral_no_slash|].
      constructor; [discriminate|now apply numeral_no_slash]. }
  assert (Hparse : mbtiles.parse
                     (sz ++ mbtiles.dash :: sc ++ mbtiles.dash :: sr) 0 0 0
                   = (true, (zoom, col, row))).
  { pose proof (parse_accepts sz sc sr [] 0 0 0 Hsz Hsc Hsr eq_refl) as Hp.
    rewrite app_nil_r in Hp. rewrite Hp. unfold zoom, col, row.
    rewrite !wrap32_small by lia. reflexivity. }
  rewrite Hparse. cbn [negb app].
  replace (31 <=? zoom) with false by (symmetry; apply Z.leb_gt; lia).
  rewrite (wrap32_small (2 ^ zoom - 1)) by lia.
  replace (col >? 2 ^ zoom - 1) with false
    by (symmetry; rewrite Z.gtb_ltb; apply Z.ltb_ge; lia).
  replace (row >? 2 ^ zoom - 1) with false
    by (symmetry; rewrite Z.gtb_ltb; apply Z.ltb_ge; lia).
  cbn [orb app]. rewrite wrap32_small by lia. reflexivity.
Qed.

(** X17. A last path element that is not [zoom-col-row] does not make
    [loadFromMbTilesArchive] return: the mismatch is reported, and the
    function goes on with what the parser left in the three values.  With
    a zoom of 31 or more left there the shift [1 << zoom] is not defined;
    otherwise the database is opened and the tile of these values is
    looked up, the row flipped.  When the element does not start with a
    digit the three values are zero: tile 0-0-0 of the archive is looked
    up and, when the archive opens and has it, handed to the decoder,
    whose result is the result of the call. *)
Theorem X17_unmatched_element_loads_tile_0 lib path archive last :
  mbtiles.strrchr_slash path = Some (archive, last) ->
  fst (mbtiles.parse last 0 0 0) = false ->
  let zoom := fst (fst (snd (mbtiles.parse last 0 0 0))) in
  let col := snd (fst (snd (mbtiles.parse last 0 0 0))) in
  let row := snd (snd (mbtiles.parse last 0 0 0)) in
  (31 <= zoom -> mbtiles.loadFromMbTilesArchive lib path = mbtiles.Undefined) /\
  (zoom <= 30 ->
   exists errors,
     mbtiles.loadFromMbTilesArchive lib path
     = mbtiles.load lib archive zoom col (wrap32 (wrap32 (2 ^ zoom - 1) - row))
         (mbtiles.UnableToMatch :: errors) /\
     (errors = [] \/ errors = [mbtiles.OutOfBound (wrap32 (2 ^ zoom - 1))])) /\
  (mbtiles.isDigit (mbtiles.peek last) = false ->
   mbtiles.loadFromMbTilesArchive lib path
   = mbtiles.load lib archive 0 0 0 [mbtiles.UnableToMatch] /\
   forall blob,
     mbtiles.sqlite3_open_v2 lib archive = 0 ->
     mbtiles.sqlite3_prepare lib archive = 0 ->
     (forall i v, mbtiles.sqlite3_bind_int lib i v = 0) ->
     mbtiles.sqlite3_step lib archive 0 0 0 = mbtiles.SQLITE_ROW (Some blob) ->
     blob <> [] ->
     mbtiles.loadFromMbTilesArchive lib path
     = mbtiles.Returns
         (if Ascii.eqb (mbtiles.peek blob) (Ascii.ascii_of_nat 31)
          then mbtiles.ParseFromIstream_gunzip lib blob
          else mbtiles.ParseFromArray lib blob)
         [mbtiles.UnableToMatch]).
Proof.
  intros Hslash Hfail zoom col row.
  assert (Hgeneral :
            mbtiles.loadFromMbTilesArchive lib path
            = if 31 <=? zoom then mbtiles.Undefined
              else mbtiles.load lib archive zoom col
                     (wrap32 (wrap32 (2 ^ zoom - 1) - row))
                     ([mbtiles.UnableToMatch]
                        ++ if (col >? wrap32 (2 ^ zoom - 1))
                              || (row >? wrap32 (2 ^ zoom - 1))
                           then [mbtiles.OutOfBound (wrap32 (2 ^ zoom - 1))]
                           else [])).
  { unfold mbtiles.loadFromMbTilesArchive. rewrite Hslash.
    unfold zoom, col, row.
    destruct (mbtiles.parse last 0 0 0) as [parsed [[z c] r]].
    cbn [fst snd] in Hfail |- *. subst parsed. reflexivity. }
  split; [|split].
  - intros Hz. rewrite Hgeneral.
    replace (31 <=? zoom) with true by (symmetry; apply Z.leb_le; lia).
    reflexivity.
  - intros Hz. rewrite Hgeneral.
    replace (31 <=? zoom) with false by (symmetry; apply Z.leb_gt; lia).
    eexists. split; [reflexivity|].
    destruct ((col >? wrap32 (2 ^ zoom - 1)) || (row >? wrap32 (2 ^ zoom - 1)));
      [right|left]; reflexivity.
  - intros Hlast.
    assert (Hzero : mbtiles.loadFromMbTilesArchive lib path
                    = mbtiles.load lib archive 0 0 0 [mbtiles.UnableToMatch]).
    { unfold mbtiles.loadFromMbTilesArchive. rewrite Hslash.
      unfold mbtiles.parse. rewrite (parsePart_no_digit last Hlast). reflexivity. }
    split; [exact Hzero|].
    intros blob Hopen Hprepare Hbind Hstep Hblob. rewrite Hzero.
    unfold mbtiles.load. rewrite Hopen, Hprepare, !Hbind.
    cbn [Z.eqb negb mbtiles.int_of_unsigned].
    change (mbtiles.int_of_unsigned 0) with 0. rewrite Hstep.
    destruct blob as [|b blob]; [congruence|].
    cbn [List.length]. rewrite Nat2Z.inj_succ.
    replace (Z.succ (Z.of_nat (List.length blob)) =? 0) with false
      by (symmetry; apply Z.eqb_neq; lia).
    destruct (Ascii.eqb (mbtiles.peek (b :: blob)) (Ascii.ascii_of_nat 31));
      reflexivity.
Qed.

Lemma X16_address_of_path_witness :
  let lib := mbtiles.one_tile 3 5 1 (list_ascii_of_string "tile") in
  mbtiles.loadFromMbTilesArchive lib (list_ascii_of_string "/data/world.mbtiles/3-5-6")
  = mbtiles.Returns true [] /\
  mbtiles.loadFromMbTilesArchive lib (list_ascii_of_string "/data/world.mbtiles/3-5-1")
  = mbtiles.Returns false [mbtiles.NoTileFound 3 5 6].
Proof.
  intros lib.
  assert (H3 : mbtiles.numeral (list_ascii_of_string "3")).
  { split; [discriminate|]. split; [repeat constructor|reflexivity]. }
  assert (H5 : mbtiles.numeral (list_ascii_of_string "5")).
  { split; [discriminate|]. split; [repeat constructor|reflexivity]. }
  assert (H6 : mbtiles.numeral (list_ascii_of_string "6")).
  { split; [discriminate|]. split; [repeat constructor|reflexivity]. }
  assert (H1 : mbtiles.numeral (list_ascii_of_string "1")).
  { split; [discriminate|]. split; [repeat constructor|reflexivity]. }
  assert (Ha : mbtiles.c_string (list_ascii_of_string "/data/world.mbtiles")).
  { repeat constructor; discriminate. }
  split.
  - destruct (X16_address_of_path lib _ _ _ _ Ha H3 H5 H6) as [Hload _];
      [vm_compute; discriminate|reflexivity|reflexivity|].
    exact Hload.
  - destruct (X16_address_of_path lib _ _ _ _ Ha H3 H5 H1) as [Hload _];
      [vm_compute; discriminate|reflexivity|reflexivity|].
    exact Hload.
Defined.

Lemma X17_unmatched_element_loads_tile_0_witness :
  let lib := mbtiles.one_tile 0 0 0 (list_ascii_of_string "tile") in
  mbtiles.loadFromMbTilesArchive lib (list_ascii_of_string "/data/world.mbtiles/readme")
  = mbtiles.Returns true [mbtiles.UnableToMatch] /\
  mbtiles.loadFromMbTilesArchive lib (list_ascii_of_string "/data/world.mbtiles/99")
  = mbtiles.Undefined /\
  exists errors,
    mbtiles.loadFromMbTilesArchive lib (list_ascii_of_string "/data/world.mbtiles/3-5")
    = mbtiles.load lib (list_ascii_of_string "/data/world.mbtiles") 3 5 7
        (mbtiles.UnableToMatch :: errors).
Proof.
  intros lib.
  destruct (X17_unmatched_element_loads_tile_0 lib
              (list_ascii_of_string "/data/world.mbtiles/readme")
              (list_ascii_of_string "/data/world.mbtiles")
              (list_ascii_of_string "readme") eq_refl eq_refl)
    as (_ & _ & Hzero).
  destruct (X17_unmatched_element_loads_tile_0 lib
              (list_ascii_of_string "/data/world.mbtiles/99")
              (list_ascii_of_string "/data/world.mbtiles")
              (list_ascii_of_string "99") eq_refl eq_refl)
    as (Hundefined & _ & _).
  destruct (X17_unmatched_element_loads_tile_0 lib
              (list_ascii_of_string "/data/world.mbtiles/3-5")
              (list_ascii_of_string "/data/world.mbtiles")
              (list_ascii_of_string "3-5") eq_refl eq_refl)
    as (_ & Hgoes & _).
  split; [|split].
  - destruct (Hzero eq_refl) as [_ Hloads].
    apply (Hloads (list_ascii_of_string "tile")); try reflexivity; discriminate.
  - apply Hundefined. vm_compute. discriminate.
  - destruct (Hgoes ltac:(vm_compute; discriminate)) as (errors & Hload & _).
    exists errors. exact Hload.
Defined.

(** ** The overviews of the solid dataset *)

Lemma round_half_nonneg v : 0 <= v -> solid.round_half v = (v + 1) / 2.
Proof.
  intros H. unfold solid.round_half.
  destruct (0 <=? v) eqn:E; [reflexivity|]. apply Z.leb_gt in E. lia.
Qed.

Lemma round_half_le v : 0 <= v -> 0 <= solid.round_half v <= v.
Proof.
  intros H. rewrite round_half_nonneg by assumption.
  pose proof (Z.div_mod (v + 1) 2). pose proof (Z.mod_pos_bound (v + 1) 2).
  lia.
Qed.

Lemma round_half_lt v : 2 <= v -> solid.round_half v < v.
Proof.
  intros H. rewrite round_half_nonneg by lia.
  apply Z.div_lt_upper_bound; lia.
Qed.

Lemma round_half_pos v : 1 <= v -> 1 <= solid.round_half v.
Proof.
  intros H. rewrite round_half_nonneg by lia.
  apply Z.div_le_lower_bound; lia.
Qed.

Lemma div_up_nonneg a b : 0 <= a -> 0 < b -> 0 <= solid.div_up a b.
Proof. intros Ha Hb. unfold solid.div_up. apply Z.div_pos; lia. Qed.

Lemma div_up_1 a : solid.div_up a 1 = a.
Proof. unfold solid.div_up. rewrite Z.div_1_r. lia. Qed.

Lemma round_half_div_up a b :
  0 <= a -> 0 < b ->
  solid.round_half (solid.div_up a b) = solid.div_up a (2 * b).
Proof.
  intros Ha Hb. rewrite round_half_nonneg by now apply div_up_nonneg.
  unfold solid.div_up.
  replace ((a + b - 1) / b + 1) with ((a + 2 * b - 1) / b).
  - rewrite Z.mul_comm. apply Z.div_div; lia.
  - replace (a + 2 * b - 1) with ((a + b - 1) + 1 * b) by lia.
    apply Z.div_add; lia.
Qed.

Lemma pow2_pos k : 0 < 2 ^ Z.of_nat k.
Proof. apply Z.pow_pos_nonneg; lia. Qed.

Lemma halve_level size k :
  0 <= solid.width size -> 0 <= solid.height size ->
  solid.halve (solid.level size k) = solid.level size (S k).
Proof.
  intros Hw Hh. unfold solid.halve, solid.level. cbn [solid.width solid.height].
  rewrite !round_half_div_up by (assumption || apply pow2_pos).
  rewrite Nat2Z.inj_succ, Z.pow_succ_r by lia. reflexivity.
Qed.

Lemma level_0 size : solid.level size 0 = size.
Proof.
  unfold solid.level. cbn [Z.of_nat]. rewrite Z.pow_0_r, !div_up_1.
  now destruct size.
Qed.

Lemma level_nonneg size k :
  0 <= solid.width size -> 0 <= solid.height size ->
  0 <= solid.width (solid.level size k) /\ 0 <= solid.height (solid.level size k).
Proof.
  intros Hw Hh. unfold solid.level. cbn [solid.width solid.height].
  split; apply div_up_nonneg; assumption || apply pow2_pos.
Qed.

Lemma fills_a_tile_dec tileSize size :
  ((solid.width size >=? solid.width tileSize)
   || (solid.height size >=? solid.height tileSize)) = true
  <-> solid.fills_a_tile tileSize size.
Proof.
  unfold solid.fills_a_tile. rewrite orb_true_iff, !Z.geb_le. reflexivity.
Qed.

(** The loop from level [k] on. *)
Lemma overviews_loop_levels size tileSize :
  0 <= solid.width size -> 0 <= solid.height size ->
  2 <= solid.width tileSize -> 2 <= solid.height tileSize ->
  forall m k,
    (Z.to_nat (solid.width (solid.level size k)
               + solid.height (solid.level size k)) <= m)%nat ->
    exists n,
      (forall fuel, (n < fuel)%nat ->
         solid.overviews_loop fuel tileSize (solid.level size k)
         = Some (map (solid.level size) (seq k n))) /\
      (forall j, (k <= j < k + n)%nat ->
         solid.fills_a_tile tileSize (solid.level size j)) /\
      ~ solid.fills_a_tile tileSize (solid.level size (k + n)).
Proof.
  intros Hw Hh Htw Hth. induction m as [|m IH]; intros k Hm.
  - exists 0%nat. destruct (level_nonneg size k Hw Hh) as [Hlw Hlh].
    assert (Hnot : ~ solid.fills_a_tile tileSize (solid.level size k)).
    { unfold solid.fills_a_tile. lia. }
    split; [|split].
    + intros [|fuel] Hfuel; [lia|]. cbn [solid.overviews_loop seq map].
      destruct ((solid.width (solid.level size k) >=? solid.width tileSize)
                || (solid.height (solid.level size k) >=? solid.height tileSize))
        eqn:E; [|reflexivity].
      apply fills_a_tile_dec in E. contradiction.
    + intros j Hj. lia.
    + now rewrite Nat.add_0_r.
  - destruct ((solid.width (solid.level size k) >=? solid.width tileSize)
              || (solid.height (solid.level size k) >=? solid.height tileSize))
      eqn:E.
    + pose proof E as Hfill. apply fills_a_tile_dec in Hfill.
      destruct (level_nonneg size k Hw Hh) as [Hlw Hlh].
      assert (Hless : (Z.to_nat (solid.width (solid.level size (S k))
                                 + solid.height (solid.level size (S k))) <= m)%nat).
      { rewrite <- (halve_level size k Hw Hh).
        unfold solid.halve. cbn [solid.width solid.height].
        pose proof (round_half_le _ Hlw). pose proof (round_half_le _ Hlh).
        destruct Hfill as [Hf|Hf].
        - pose proof (round_half_lt (solid.width (solid.level size k))). lia.
        - pose proof (round_half_lt (solid.height (solid.level size k))). lia. }
      destruct (IH (S k) Hless) as (n & Hrun & Hall & Hstop).
      exists (S n). split; [|split].
      * intros [|fuel] Hfuel; [lia|]. cbn [solid.overviews_loop].
        rewrite E, (halve_level size k Hw Hh), Hrun by lia. reflexivity.
      * intros j Hj. destruct (Nat.eq_dec j k) as [->|Hne]; [exact Hfill|].
        apply Hall. lia.
      * replace (k + S n)%nat with (S k + n)%nat by lia. exact Hstop.
    + exists 0%nat. split; [|split].
      * intros [|fuel] Hfuel; [lia|]. cbn [solid.overviews_loop seq map].
        now rewrite E.
      * intros j Hj. lia.
      * rewrite Nat.add_0_r. intros Hfill. apply fills_a_tile_dec in Hfill.
        congruence.
Qed.

(** X18. For tiles of at least two pixels a side the constructor's loop
    ends, and the overviews it prepares are the levels 1 to [n] of the
    raster, level [k] having both sides divided by [2^k] and rounded up:
    all the levels in front of the first one that is smaller than a tile
    on both sides, and no others.  The full-size raster is not among
    them. *)
Theorem X18_overviews_are_the_levels size tileSize :
  0 <= solid.width size -> 0 <= solid.height size ->
  2 <= solid.width tileSize -> 2 <= solid.height tileSize ->
  exists n,
    (forall fuel, (n < fuel)%nat ->
       solid.overviews fuel size tileSize
       = Some (map (solid.level size) (seq 1 n))) /\
    (forall k, (1 <= k <= n)%nat ->
       solid.fills_a_tile tileSize (solid.level size k)) /\
    ~ solid.fills_a_tile tileSize (solid.level size (S n)).
Proof.
  intros Hw Hh Htw Hth.
  destruct (overviews_loop_levels size tileSize Hw Hh Htw Hth _ 1%nat (Nat.le_refl _))
    as (n & Hrun & Hall & Hstop).
  exists n. split; [|split].
  - intros fuel Hfuel. unfold solid.overviews.
    rewrite <- (level_0 size) at 1. rewrite (halve_level size 0 Hw Hh).
    now apply Hrun.
  - intros k Hk. apply Hall. lia.
  - exact Hstop.
Qed.

Lemma overviews_loop_never_ends tileSize fuel : forall size,
  (1 <= solid.width size /\ solid.width tileSize <= 1) \/
  (1 <= solid.height size /\ solid.height tileSize <= 1) ->
  solid.overviews_loop fuel tileSize size = None.
Proof.
  induction fuel as [|fuel IH]; intros size H; [reflexivity|].
  cbn [solid.overviews_loop].
  assert (E : ((solid.width size >=? solid.width tileSize)
               || (solid.height size >=? solid.height tileSize)) = true).
  { apply fills_a_tile_dec. unfold solid.fills_a_tile. lia. }
  rewrite E, IH; [reflexivity|].
  unfold solid.halve. cbn [solid.width solid.height].
  destruct H as [[Hs Ht]|[Hs Ht]]; [left|right];
    (split; [now apply round_half_pos|exact Ht]).
Qed.

(** X19. With a tile that is one pixel wide, or one pixel high, and a
    raster that is not empty on that side, the condition of the
    constructor's loop never becomes false: half of 1, rounded, is 1
    again, so the size never gets below the tile's; whatever the number
    of rounds, the loop has not been left and another size is pushed. *)
Theorem X19_overviews_never_end size tileSize :
  (1 <= solid.width size /\ solid.width tileSize <= 1) \/
  (1 <= solid.height size /\ solid.height tileSize <= 1) ->
  forall fuel, solid.overviews fuel size tileSize = None.
Proof.
  intros H fuel. unfold solid.overviews. apply overviews_loop_never_ends.
  unfold solid.halve. cbn [solid.width solid.height].
  destruct H as [[Hs Ht]|[Hs Ht]]; [left|right];
    (split; [now apply round_half_pos|exact Ht]).
Qed.

(** X20. [writeConfig] writes the file to its end only for a
    configuration that holds a geo transform.  For one that holds
    extents, the [if] that tests the geo transform is not the [else] of
    the one that tests the extents: the extents are written, and then
    the function throws "Neither extents nor geoTransform are set". *)
Theorem X20_writeConfig_needs_geoTransform config :
  ((exists written, solid.writeConfig true config = solid.Closed written) <->
   (exists g, solid.extentsOrGeoTransform config = solid.HoldsGeoTransform g)) /\
  (forall e,
      solid.extentsOrGeoTransform config = solid.HoldsExtents e ->
      exists head,
        solid.writeConfig true config
        = solid.ThrowsRuntimeError
            (head ++ [solid.Text "\nextents = "; solid.PutExtents e]) /\
        forall opens written,
          solid.writeConfig opens config <> solid.Closed written).
Proof.
  unfold solid.writeConfig, solid.extents, solid.geoTransform. split; [split|].
  - intros [written H].
    destruct (solid.extentsOrGeoTransform config) as [e|g]; [discriminate|].
    now exists g.
  - intros [g ->]. cbn [negb]. eexists. reflexivity.
  - intros e ->. cbn [negb]. eexists. split; [reflexivity|].
    intros [|] written; discriminate.
Qed.

Lemma X18_overviews_are_the_levels_witness :
  solid.overviews 3 (solid.mkSize2 1000 600) (solid.mkSize2 256 256)
  = Some [solid.mkSize2 500 300] /\
  exists n,
    (forall fuel, (n < fuel)%nat ->
       solid.overviews fuel (solid.mkSize2 1000 600) (solid.mkSize2 256 256)
       = Some (map (solid.level (solid.mkSize2 1000 600)) (seq 1 n))) /\
    (forall k, (1 <= k <= n)%nat ->
       solid.fills_a_tile (solid.mkSize2 256 256)
         (solid.level (solid.mkSize2 1000 600) k)) /\
    ~ solid.fills_a_tile (solid.mkSize2 256 256)
        (solid.level (solid.mkSize2 1000 600) (S n)).
Proof.
  split; [reflexivity|].
  apply (X18_overviews_are_the_levels (solid.mkSize2 1000 600) (solid.mkSize2 256 256));
    cbn; lia.
Defined.

Lemma X19_overviews_never_end_witness :
  solid.overviews 1000 (solid.mkSize2 1000 600) (solid.mkSize2 1 256) = None.
Proof.
  apply (X19_overviews_never_end (solid.mkSize2 1000 600) (solid.mkSize2 1 256)).
  left. cbn. lia.
Defined.

Lemma X20_writeConfig_needs_geoTransform_witness :
  let config :=
    solid.mkConfig "EPSG:3857"%string (solid.mkSize2 1000 600)
      (solid.mkSize2 256 256)
      (solid.HoldsExtents (Trafo.mkExtents2 (dzero, dzero) (done, done))) [] in
  exists head,
    solid.writeConfig true config
    = solid.ThrowsRuntimeError
        (head ++ [solid.Text "\nextents = ";
                  solid.PutExtents (Trafo.mkExtents2 (dzero, dzero) (done, done))]).
Proof.
  intros config.
  destruct (proj2 (X20_writeConfig_needs_geoTransform config) _ eq_refl)
    as (head & Hthrows & _).
  exists head. exact Hthrows.
Defined.

(** ** The sources of a block of the blender *)

Lemma inter_shape a b :
  cv.inter a b = cv.mkRect 0 0 0 0 \/
  (0 < cv.width (cv.inter a b) /\ 0 < cv.height (cv.inter a b) /\
   cv.x a <= cv.x (cv.inter a b) /\ cv.x b <= cv.x (cv.inter a b) /\
   cv.x (cv.inter a b) + cv.width (cv.inter a b) <= cv.x a + cv.width a /\
   cv.x (cv.inter a b) + cv.width (cv.inter a b) <= cv.x b + cv.width b /\
   cv.y a <= cv.y (cv.inter a b) /\ cv.y b <= cv.y (cv.inter a b) /\
   cv.y (cv.inter a b) + cv.height (cv.inter a b) <= cv.y a + cv.height a /\
   cv.y (cv.inter a b) + cv.height (cv.inter a b) <= cv.y b + cv.height b).
Proof.
  unfold cv.inter.
  destruct ((Z.min (cv.x a + cv.width a) (cv.x b + cv.width b)
             - Z.max (cv.x a) (cv.x b) <=? 0)
            || (Z.min (cv.y a + cv.height a) (cv.y b + cv.height b)
                - Z.max (cv.y a) (cv.y b) <=? 0)) eqn:E; [left; reflexivity|].
  right. apply orb_false_iff in E. destruct E as [Ew Eh].
  apply Z.leb_gt in Ew, Eh. cbn [cv.x cv.y cv.width cv.height]. lia.
Qed.

Lemma meets_inter block b :
  meets block b = true ->
  let roi := cv.inter block (extents (ref b)) in
  0 < cv.width roi /\ 0 < cv.height roi /\
  cv.x block <= cv.x roi /\ cv.x (extents (ref b)) <= cv.x roi /\
  cv.x roi + cv.width roi <= cv.x block + cv.width block /\
  cv.x roi + cv.width roi <= cv.x (extents (ref b)) + cv.width (extents (ref b)) /\
  cv.y block <= cv.y roi /\ cv.y (extents (ref b)) <= cv.y roi /\
  cv.y roi + cv.height roi <= cv.y block + cv.height block /\
  cv.y roi + cv.height roi <= cv.y (extents (ref b)) + cv.height (extents (ref b)).
Proof.
  intros H. cbv zeta. unfold meets in H. apply negb_true_iff, Z.eqb_neq in H.
  destruct (inter_shape block (extents (ref b))) as [E|E]; [|exact E].
  exfalso. apply H. rewrite E. reflexivity.
Qed.

Section BlockSources.

Variable math_empty : double * double -> bool.
Variable math_area : double * double -> double.
Variable Sample : Type.
Variable convertTo : CvType -> double -> Sample.
Variable overlap_ : double * double.

Lemma contribution_skipped block b :
  contribution math_empty math_area overlap_ block b = Skipped
  <-> meets block b = false.
Proof.
  unfold contribution, meets.
  destruct (cv.area (cv.inter block (extents (ref b))) =? 0); cbn [negb].
  - split; reflexivity.
  - split; [|discriminate].
    destruct (RasterIO (band b) _) as [err image].
    destruct (negb (is_CE_None err)); [discriminate|].
    destruct (negb (MaskAllValid (band b))).
    + destruct (MaskRasterIO (band b) _) as [err' m].
      destruct (negb (is_CE_None err')); discriminate.
    + discriminate.
Qed.

Lemma contribution_error block b err :
  contribution math_empty math_area overlap_ block b = ReadError err ->
  err <> CE_None.
Proof.
  unfold contribution.
  destruct (cv.area (cv.inter block (extents (ref b))) =? 0); [discriminate|].
  destruct (RasterIO (band b) _) as [e image].
  destruct (negb (is_CE_None e)) eqn:E.
  - intros H; injection H as <-. intros ->. discriminate E.
  - destruct (negb (MaskAllValid (band b))).
    + destruct (MaskRasterIO (band b) _) as [e' m].
      destruct (negb (is_CE_None e')) eqn:E'; [|discriminate].
      intros H; injection H as <-. intros ->. discriminate E'.
    + discriminate.
Qed.

Lemma accumulate_error block bands err : forall acc wacc,
  accumulate math_empty math_area overlap_ block bands acc wacc = inl err <->
  exists pre b post,
    bands = pre ++ b :: post /\
    Forall (reads math_empty math_area overlap_ block) pre /\
    contribution math_empty math_area overlap_ block b = ReadError err.
Proof.
  induction bands as [|b bands IH]; intros acc wacc.
  - cbn [accumulate]. split; [discriminate|].
    intros (pre & b & post & H & _). destruct pre; discriminate H.
  - cbn [accumulate].
    destruct (contribution math_empty math_area overlap_ block b)
      as [|e|view image weights] eqn:Hb.
    + rewrite IH. split.
      * intros (pre & b' & post & -> & Hpre & Hb').
        exists (b :: pre), b', post. repeat split; try assumption.
        constructor; [unfold reads; now rewrite Hb|assumption].
      * intros (pre & b' & post & Heq & Hpre & Hb').
        destruct pre as [|p pre]; cbn in Heq; injection Heq as <- ->.
        -- congruence.
        -- inversion Hpre; subst. now exists pre, b', post.
    + split.
      * intros H; injection H as ->. exists [], b, bands. repeat split.
        -- constructor.
        -- exact Hb.
      * intros (pre & b' & post & Heq & Hpre & Hb').
        destruct pre as [|p pre]; cbn in Heq; injection Heq as <- ->.
        -- congruence.
        -- inversion Hpre as [|? ? Hp]; subst. unfold reads in Hp.
           rewrite Hb in Hp. contradiction.
    + rewrite IH. split.
      * intros (pre & b' & post & -> & Hpre & Hb').
        exists (b :: pre), b', post. repeat split; try assumption.
        constructor; [unfold reads; now rewrite Hb|assumption].
      * intros (pre & b' & post & Heq & Hpre & Hb').
        destruct pre as [|p pre]; cbn in Heq; injection Heq as <- ->.
        -- congruence.
        -- inversion Hpre; subst. now exists pre, b', post.
Qed.

(** X21. [IReadBlock] returns an error code exactly when a source that
    meets the block cannot be read, its data or, for a source with a
    mask, its mask: the code is the one of the first such source in the
    order of the sources, it is never [CE_None], and the sources behind
    it play no part. *)
Theorem X21_first_read_error bands_ nBlockXOff nBlockYOff err :
  let block := block_rect nBlockXOff nBlockYOff in
  (IReadBlock math_empty math_area Sample convertTo overlap_
     bands_ nBlockXOff nBlockYOff = BlockError Sample err
   <->
   exists pre b post,
     bands_ = pre ++ b :: post /\
     Forall (reads math_empty math_area overlap_ block) pre /\
     contribution math_empty math_area overlap_ block b = ReadError err) /\
  (IReadBlock math_empty math_area Sample convertTo overlap_
     bands_ nBlockXOff nBlockYOff = BlockError Sample err ->
   err <> CE_None).
Proof.
  intros block.
  assert (Hiff : IReadBlock math_empty math_area Sample convertTo overlap_
                   bands_ nBlockXOff nBlockYOff = BlockError Sample err
                 <-> accumulate math_empty math_area overlap_ block bands_
                       (fun _ _ => dzero) (fun _ _ => dzero) = inl err).
  { unfold IReadBlock. fold block.
    destruct (accumulate math_empty math_area overlap_ block bands_
                (fun _ _ => dzero) (fun _ _ => dzero)) as [e|[acc wacc]].
    - split; intros H; injection H as ->; reflexivity.
    - split; [|discriminate].
      destruct bands_ as [|front rest]; [discriminate|].
      destruct (gdal2cv (GetRasterDataType (band front))); discriminate. }
  split.
  - rewrite Hiff. apply accumulate_error.
  - intros H. apply Hiff, accumulate_error in H.
    destruct H as (pre & b & post & _ & _ & Hb).
    eapply contribution_error, Hb.
Qed.

(** X22. For a source that meets the block, the window that is read
    from its band (and from its mask band) lies inside the source's
    raster and has pixels, and nothing else of the source is read: a
    source that gives the same for that one window brings the same.
    The view the samples are added to lies inside the block and has the
    size of the window. *)
Theorem X22_window_inside_source block b :
  meets block b = true ->
  inside (window block b)
    (cv.width (extents (ref b))) (cv.height (extents (ref b))) /\
  (forall b',
      same_reading (window block b) b b' ->
      contribution math_empty math_area overlap_ block b'
      = contribution math_empty math_area overlap_ block b) /\
  (forall view image weights,
      contribution math_empty math_area overlap_ block b = Adds view image weights ->
      inside view (cv.width block) (cv.height block) /\
      cv.width view = cv.width (window block b) /\
      cv.height view = cv.height (window block b)).
Proof.
  intros Hmeets. pose proof (meets_inter block b Hmeets) as Hroi.
  cbv zeta in Hroi. split; [|split].
  - unfold inside, window, cv.shift_back. cbn [cv.x cv.y cv.width cv.height]. lia.
  - intros b' (Href & Hmask & Hio & Hmio).
    unfold contribution. rewrite Href.
    fold (window block b). rewrite Hio, Hmask, Hmio. reflexivity.
  - intros view image weights. unfold contribution.
    unfold meets in Hmeets. apply negb_true_iff in Hmeets. rewrite Hmeets.
    fold (window block b).
    destruct (RasterIO (band b) (window block b)) as [e img].
    destruct (negb (is_CE_None e)); [discriminate|].
    assert (Hview :
              inside (cv.mkRect
                        (cv.x (cv.inter block (extents (ref b))) - cv.x block)
                        (cv.y (cv.inter block (extents (ref b))) - cv.y block)
                        (cv.width (window block b)) (cv.height (window block b)))
                     (cv.width block) (cv.height block)).
    { unfold inside, window, cv.shift_back. cbn [cv.x cv.y cv.width cv.height]. lia. }
    destruct (negb (MaskAllValid (band b))).
    + destruct (MaskRasterIO (band b) (window block b)) as [e' m].
      destruct (negb (is_CE_None e')); [discriminate|].
      intros H; injection H as <- _ _. split; [exact Hview|split; reflexivity].
    + intros H; injection H as <- _ _. split; [exact Hview|split; reflexivity].
Qed.

Lemma accumulate_filter block bands : forall acc wacc,
  accumulate math_empty math_area overlap_ block (filter (meets block) bands) acc wacc
  = accumulate math_empty math_area overlap_ block bands acc wacc.
Proof.
  induction bands as [|b bands IH]; intros acc wacc; [reflexivity|].
  cbn [filter]. destruct (meets block b) eqn:Hb.
  - cbn [accumulate].
    destruct (contribution math_empty math_area overlap_ block b); auto.
  - cbn [accumulate]. apply contribution_skipped in Hb. rewrite Hb. apply IH.
Qed.

(** X23. What [IReadBlock] gives depends on the sources only through
    those that meet the block, in their order, and through the data type
    of the first source, whether that one meets the block or not: the
    sources away from the block are not read and change nothing. *)
Theorem X23_sources_away_from_the_block bands_ bands' nBlockXOff nBlockYOff :
  let block := block_rect nBlockXOff nBlockYOff in
  filter (meets block) bands' = filter (meets block) bands_ ->
  option_map (fun b => GetRasterDataType (band b)) (hd_error bands')
  = option_map (fun b => GetRasterDataType (band b)) (hd_error bands_) ->
  IReadBlock math_empty math_area Sample convertTo overlap_
    bands' nBlockXOff nBlockYOff
  = IReadBlock math_empty math_area Sample convertTo overlap_
      bands_ nBlockXOff nBlockYOff.
Proof.
  intros block Hmeet Hfront. unfold IReadBlock. fold block.
  rewrite <- (accumulate_filter block bands'), Hmeet, accumulate_filter.
  destruct (accumulate math_empty math_area overlap_ block bands_
              (fun _ _ => dzero) (fun _ _ => dzero)) as [e|[acc wacc]];
    [reflexivity|].
  destruct bands' as [|f' r'], bands_ as [|f r]; cbn in Hfront;
    try discriminate; [reflexivity|].
  injection Hfront as ->. reflexivity.
Qed.

(** X24. Without overlap every weight of a source is zero or 1: the
    weights are not fractions, a source counts for a pixel in full or not
    at all. *)
Theorem X24_weights_without_overlap block b view image weights :
  math_empty overlap_ = true ->
  contribution math_empty math_area overlap_ block b = Adds view image weights ->
  forall j i, deqb (weights j i) dzero = true \/ weights j i = done.
Proof.
  intros Hempty. unfold contribution.
  destruct (cv.area (cv.inter block (extents (ref b))) =? 0); [discriminate|].
  destruct (RasterIO (band b) _) as [e img].
  destruct (negb (is_CE_None e)); [discriminate|].
  rewrite Hempty.
  destruct (negb (MaskAllValid (band b))).
  - destruct (MaskRasterIO (band b) _) as [e' m].
    destruct (negb (is_CE_None e')); [discriminate|].
    intros H; injection H as _ _ <-. intros j i.
    unfold hard_weights, mask_weights.
    destruct (negb (cv.containsd _ _ _)); [left; reflexivity|].
    destruct (deqb (m j i) dzero) eqn:E; [left; exact E|right; reflexivity].
  - intros H; injection H as _ _ <-. intros j i.
    unfold hard_weights.
    destruct (negb (cv.containsd _ _ _)); [left; reflexivity|right; reflexivity].
Qed.

End BlockSources.

Lemma X22_window_inside_source_witness :
  let block := block_rect 0 0 in
  let b := mkBand (only_window (cv.mkRect 0 0 56 100) 7)
             (mkImageReference (cv.mkRect 200 50 100 100)
                (cv.mkRect2d (double_of_Z 200) (double_of_Z 50)
                   (double_of_Z 100) (double_of_Z 100))) in
  meets block b = true /\
  window block b = cv.mkRect 0 0 56 100 /\
  inside (window block b) 100 100 /\
  exists view image weights,
    contribution size_empty size_area (dzero, dzero) block b
    = Adds view image weights /\
    inside view 256 256.
Proof.
  intros block b.
  assert (Hmeets : meets block b = true) by reflexivity.
  destruct (X22_window_inside_source size_empty size_area (dzero, dzero)
              block b Hmeets) as (Hin & _ & Hview).
  split; [exact Hmeets|]. split; [reflexivity|]. split; [exact Hin|].
  eexists. eexists. eexists. split; [reflexivity|].
  eapply Hview. reflexivity.
Defined.

Lemma X23_sources_away_from_the_block_witness :
  IReadBlock size_empty size_area double (fun _ d => d) (dzero, dzero)
    [placed 100 0 0 4 4; placed 200 1000 1000 4 4; placed 300 2 0 4 4] 0 0
  = IReadBlock size_empty size_area double (fun _ d => d) (dzero, dzero)
      [placed 100 0 0 4 4; placed 300 2 0 4 4] 0 0.
Proof.
  apply (X23_sources_away_from_the_block size_empty size_area double
           (fun _ d => d) (dzero, dzero)); reflexivity.
Defined.

Lemma X24_weights_without_overlap_witness :
  size_empty (dzero, dzero) = true /\
  exists view image weights,
    contribution size_empty size_area (dzero, dzero) (block_rect 0 0)
      (placed 100 0 0 4 4)
    = Adds view image weights /\
    (deqb (weights 1 1) dzero = true \/ weights 1 1 = done).
Proof.
  split; [reflexivity|].
  eexists. eexists. eexists. split; [reflexivity|].
  eapply (X24_weights_without_overlap size_empty size_area (dzero, dzero)
            (block_rect 0 0) (placed 100 0 0 4 4)); reflexivity.
Defined.
